(** * fire-tracker: schema migrations and badge/PIN authentication

    A shallow embedding of the migration code and of the authentication
    route of [server.js], over a small model of the SQLite store the
    code talks to, and the properties of the two that the specification
    states. *)

From Stdlib Require Import ZArith String Ascii List Bool Lia.
From stdpp Require Import base tactics option list gmap strings.

Local Open Scope string_scope.
Local Open Scope Z_scope.

(** ** Values, rows, tables *)

(** What a column of a row holds, and what a bound parameter is: NULL
    (also JavaScript's [null] and [undefined]), a number, or a text.
    Every number the code stores is an integer. *)
Inductive Value : Type :=
| VNull
| VNum (n : Z)
| VText (s : string).

#[global] Instance Value_eq_dec : EqDecision Value.
Proof. solve_decision. Defined.

Inductive SqlType : Type := TEXT | INTEGER | REAL.

(** The [DEFAULT] clause of a column; [DAutoIncrement] stands for
    [INTEGER PRIMARY KEY AUTOINCREMENT]. *)
Inductive Default : Type :=
| DNull
| DConst (v : Value)
| DCurrentTimestamp
| DAutoIncrement.

Record Column : Type := mkColumn {
  cname : string;
  ctype : SqlType;
  cnotnull : bool;     (* NOT NULL *)
  cunique : bool;      (* PRIMARY KEY or UNIQUE *)
  cdefault : Default
}.

(** A row is an object keyed by column name, as [db.get] hands it to
    its callback. *)
Abbreviation Row := (gmap string Value).

(** A table: its columns, its rows, and the largest rowid it has
    generated for its AUTOINCREMENT column. SQLite keeps that number in
    the table's row of [sqlite_sequence]; it is 0 when there is none. *)
Record Table : Type := mkTable {
  tcols : list Column;
  trows : list Row;
  tseq : Z
}.

Abbreviation Store := (gmap string Table).

(** Reading a property of a row object; a missing property reads as
    [undefined], which the model identifies with NULL. *)
Definition field (r : Row) (k : string) : Value :=
  match r !! k with
  | Some v => v
  | None => VNull
  end.

(** ** Errors *)

Inductive Error : Type :=
| NoSuchTable (t : string)
| NoSuchColumn (t c : string)
| DuplicateColumn (t c : string)
| ConstraintFailed (t c : string)
| StorageFault                      (* an I/O failure of the storage layer *)
| BcryptArguments.                  (* bcrypt.compare called without a hash *)

(** ** The SQL statements of the program *)

Inductive Stmt : Type :=
| CreateTableIfNotExists (t : string) (cols : list Column)
| AlterTableAddColumn (t : string) (c : Column)
| DeleteFrom (t : string)
| InsertInto (t : string) (vals : list (string * Value))
| InsertOrIgnoreInto (t : string) (vals : list (string * Value))
| UpdateSetWhere (t : string) (sets : list (string * Value))
                 (wcol : string) (wval : Value).

Inductive Query : Type :=
| SelectNameFromMaster (t : string)
    (* SELECT name FROM sqlite_master WHERE type='table' AND name=t *)
| SelectFirst (t : string) (proj : option string)
              (cond : option (string * Value)).
    (* SELECT proj|* FROM t [WHERE c = v], first row *)

Inductive Op : Type :=
| Run (s : Stmt)
| Get (q : Query).

(** ** Semantics of the statements *)

Definition col_names (t : Table) : list string := cname <$> tcols t.

Definition has_col (t : Table) (c : string) : bool :=
  bool_decide (c ∈ col_names t).

Fixpoint assoc (vals : list (string * Value)) (c : string) : option Value :=
  match vals with
  | [] => None
  | (k, v) :: rest => if decide (k = c) then Some v else assoc rest c
  end.

(** The largest number stored under column [c]. *)
Fixpoint max_id (c : string) (rows : list Row) : Z :=
  match rows with
  | [] => 0
  | r :: rest =>
      match r !! c with
      | Some (VNum n) => Z.max n (max_id c rest)
      | _ => max_id c rest
      end
  end.

(** The value of a column that an INSERT does not list. An
    AUTOINCREMENT column gets one more than the largest rowid in the
    table and than the largest rowid the table has generated ([seq]). *)
Definition default_value (now : string) (rows : list Row) (seq : Z) (c : Column) : Value :=
  match cdefault c with
  | DNull => VNull
  | DConst v => v
  | DCurrentTimestamp => VText now
  | DAutoIncrement => VNum (Z.max (max_id (cname c) rows) seq + 1)
  end.

(** The row an INSERT builds: the given value for a listed column, the
    column's default for the others. *)
Definition cell (now : string) (rows : list Row) (seq : Z) (vals : list (string * Value))
    (c : Column) : Value :=
  match assoc vals (cname c) with
  | Some v => v
  | None => default_value now rows seq c
  end.

Fixpoint build_row (now : string) (rows : list Row) (seq : Z)
    (vals : list (string * Value)) (cols : list Column) : Row :=
  match cols with
  | [] => ∅
  | c :: rest => <[cname c := cell now rows seq vals c]> (build_row now rows seq vals rest)
  end.

Definition auto_column (cols : list Column) : option Column :=
  find (fun c => match cdefault c with DAutoIncrement => true | _ => false end) cols.

(** The sequence of a table once the rowid of row [r] is generated for
    it: SQLite raises it to that rowid before it checks the constraints
    of the row, and keeps it when INSERT OR IGNORE then skips the row. *)
Definition advance (tb : Table) (r : Row) : Z :=
  match auto_column (tcols tb) with
  | Some c =>
      match field r (cname c) with
      | VNum id => Z.max (tseq tb) id
      | _ => tseq tb
      end
  | None => tseq tb
  end.

Definition violates_not_null (r : Row) (c : Column) : bool :=
  cnotnull c && bool_decide (field r (cname c) = VNull).

(** Two rows collide on a unique column when both hold the same
    non-NULL value there. *)
Definition collides (r r' : Row) (c : Column) : bool :=
  cunique c && negb (bool_decide (field r (cname c) = VNull))
            && bool_decide (field r' (cname c) = field r (cname c)).

Definition conflicts (r : Row) (t : Table) (c : Column) : bool :=
  existsb (fun r' => collides r r' c) (trows t).

Definition insert_row (or_ignore : bool) (now : string) (t : string)
    (vals : list (string * Value)) (db : Store) : Error + Store :=
  match db !! t with
  | None => inl (NoSuchTable t)
  | Some tb =>
      match find (fun cv => negb (has_col tb cv.1)) vals with
      | Some cv => inl (NoSuchColumn t cv.1)
      | None =>
          let r := build_row now (trows tb) (tseq tb) vals (tcols tb) in
          let skipped := <[t := mkTable (tcols tb) (trows tb) (advance tb r)]> db in
          match find (violates_not_null r) (tcols tb) with
          | Some c => if or_ignore then inr skipped else inl (ConstraintFailed t (cname c))
          | None =>
              match find (conflicts r tb) (tcols tb) with
              | Some c =>
                  if or_ignore then inr skipped else inl (ConstraintFailed t (cname c))
              | None =>
                  inr (<[t := mkTable (tcols tb) (trows tb ++ [r]) (advance tb r)]> db)
              end
          end
      end
  end.

Fixpoint set_fields (sets : list (string * Value)) (r : Row) : Row :=
  match sets with
  | [] => r
  | (c, v) :: rest => set_fields rest (<[c := v]> r)
  end.

Definition update_row (sets : list (string * Value)) (wcol : string)
    (wval : Value) (r : Row) : Row :=
  if decide (r !! wcol = Some wval) then set_fields sets r else r.

Definition added_cell (c : Column) : Value :=
  match cdefault c with
  | DConst v => v
  | _ => VNull
  end.

Definition exec (now : string) (s : Stmt) (db : Store) : Error + Store :=
  match s with
  | CreateTableIfNotExists t cols =>
      match db !! t with
      | Some _ => inr db
      | None => inr (<[t := mkTable cols [] 0]> db)
      end
  | AlterTableAddColumn t c =>
      match db !! t with
      | None => inl (NoSuchTable t)
      | Some tb =>
          if has_col tb (cname c) then inl (DuplicateColumn t (cname c))
          else inr (<[t := mkTable (tcols tb ++ [c])
                              ((fun r => <[cname c := added_cell c]> r) <$> trows tb)
                              (tseq tb)]> db)
      end
  | DeleteFrom t =>
      match db !! t with
      | None => inl (NoSuchTable t)
      | Some tb => inr (<[t := mkTable (tcols tb) [] (tseq tb)]> db)
      end
  | InsertInto t vals => insert_row false now t vals db
  | InsertOrIgnoreInto t vals => insert_row true now t vals db
  | UpdateSetWhere t sets wcol wval =>
      match db !! t with
      | None => inl (NoSuchTable t)
      | Some tb =>
          match find (fun c => negb (has_col tb c)) (wcol :: sets.*1) with
          | Some c => inl (NoSuchColumn t c)
          | None => inr (<[t := mkTable (tcols tb)
                                 (update_row sets wcol wval <$> trows tb)
                                 (tseq tb)]> db)
          end
      end
  end.

Definition matches (cond : option (string * Value)) (r : Row) : bool :=
  match cond with
  | None => true
  | Some (c, v) => bool_decide (r !! c = Some v)
  end.

Definition project (proj : option string) (r : Row) : Row :=
  match proj with
  | None => r
  | Some c => {[ c := field r c ]}
  end.

Definition query (q : Query) (db : Store) : Error + option Row :=
  match q with
  | SelectNameFromMaster t =>
      match db !! t with
      | Some _ => inr (Some {[ "name" := VText t ]})
      | None => inr None
      end
  | SelectFirst t proj cond =>
      match db !! t with
      | None => inl (NoSuchTable t)
      | Some tb =>
          match find (fun c => negb (has_col tb c))
                     (match proj with Some c => [c] | None => [] end ++
                      match cond with Some cv => [cv.1] | None => [] end) with
          | Some c => inl (NoSuchColumn t c)
          | None => inr (project proj <$> find (matches cond) (trows tb))
          end
      end
  end.

(** ** JavaScript values and coercions *)

(** Truthiness of a value: [null], [0] and the empty string are falsy. *)
Definition js_truthy (v : Value) : bool :=
  match v with
  | VNull => false
  | VNum n => negb (n =? 0)
  | VText s => negb (bool_decide (s = ""))
  end.

(** [a || b] *)
Definition js_or (a b : Value) : Value := if js_truthy a then a else b.

(** The double nearest to an integer: the integer itself when it has at
    most 53 significant bits, and otherwise the nearest multiple of the
    power of two that leaves 53, a tie going to the even one. (The
    integers of a store are below 2^1023, where every double is
    finite.) *)
Definition to_double (n : Z) : Z :=
  let a := Z.abs n in
  if a <? 2 ^ 53 then n
  else
    let e := Z.log2 a - 52 in
    let q := a / 2 ^ e in
    let r := a mod 2 ^ e in
    let half := 2 ^ (e - 1) in
    let q' := if (half <? r) || ((r =? half) && Z.odd q) then q + 1 else q in
    Z.sgn n * (q' * 2 ^ e).

(** A property of the request body: a string, nothing ([undefined] or
    [null]), or another JSON value: a number, a boolean, an array or an
    object. Of such a value the program sees whether it is truthy; and
    where the value is bound to a statement, it is compared with and
    stored in columns of type [TEXT] only, for which SQLite converts
    what the driver binds to a text, [text]. *)
Inductive Json : Type :=
| JString (s : string)
| JNothing
| JOther (is_truthy : bool) (text : string).

(** [!!j] *)
Definition truthy (j : Json) : bool :=
  match j with
  | JString s => negb (bool_decide (s = ""))
  | JNothing => false
  | JOther t _ => t
  end.

(** What a [TEXT] column holds, or is compared with, when [j] is bound. *)
Definition bound (j : Json) : Value :=
  match j with
  | JString s => VText s
  | JNothing => VNull
  | JOther _ s => VText s
  end.

Definition lower_ascii (a : ascii) : ascii :=
  let n := nat_of_ascii a in
  if ((65 <=? n) && (n <=? 90))%nat then ascii_of_nat (n + 32) else a.

Fixpoint toLowerCase (s : string) : string :=
  match s with
  | EmptyString => EmptyString
  | String a rest => String (lower_ascii a) (toLowerCase rest)
  end.

(** [s.replace(from, to)] for one-character patterns: only the first
    occurrence is replaced. *)
Fixpoint replace (from to : ascii) (s : string) : string :=
  match s with
  | EmptyString => EmptyString
  | String a rest =>
      if decide (a = from) then String to rest else String a (replace from to rest)
  end.

(** ** The world of a call *)

(** What a run of the program reads from outside: the two clocks, the
    salt [bcrypt.hash] draws, and which storage operations fail in the
    storage layer during this run. *)
Record Env : Type := mkEnv {
  sql_now : string;              (* CURRENT_TIMESTAMP *)
  js_now : string;               (* new Date().toISOString() *)
  salt : string -> string;
  faults : Op -> bool
}.

(** The store, and the errors of statements issued without a callback:
    the driver has nobody to hand them to and emits them as error events
    on the database object. *)
Record World : Type := mkWorld {
  store : Store;
  unhandled : list Error
}.

(** How a computation ends: its promise resolves or rejects, or the
    process is killed. The program registers no listener for the error
    events of the database object, so that the first one is thrown as
    an exception that nothing catches. *)
Inductive Settled (A : Type) : Type :=
| Resolved (a : A)
| Rejected (e : Error)
| Crashed (e : Error).
Arguments Resolved {A} a.
Arguments Rejected {A} e.
Arguments Crashed {A} e.

(** An asynchronous computation, in a world it may change. *)
Definition Async (A : Type) : Type := Env -> World -> Settled A * World.

Definition resolve {A : Type} (a : A) : Async A :=
  fun _ w => (Resolved a, w).

Definition reject {A : Type} (e : Error) : Async A :=
  fun _ w => (Rejected e, w).

(** [await m] followed by [k]: a rejection of [m] is thrown past [k],
    and nothing runs once the process is killed. *)
Definition await {A B : Type} (m : Async A) (k : A -> Async B) : Async B :=
  fun env w =>
    match m env w with
    | (Resolved a, w') => k a env w'
    | (Rejected e, w') => (Rejected e, w')
    | (Crashed e, w') => (Crashed e, w')
    end.

Notation "'let*' x ':=' m 'in' k" := (await m (fun x => k))
  (at level 10, x name, m at level 100, k at level 200).
Notation "m ';;' k" := (await m (fun _ => k))
  (at level 100, k at level 200, right associativity).

Definition ask : Async Env := fun env w => (Resolved env, w).

(** One statement against the store. *)
Definition perform (s : Stmt) (env : Env) (db : Store) : option Error * Store :=
  if faults env (Run s) then (Some StorageFault, db)
  else match exec (sql_now env) s db with
       | inl e => (Some e, db)
       | inr db' => (None, db')
       end.

Definition fetch (q : Query) (env : Env) (db : Store) : Error + option Row :=
  if faults env (Get q) then inl StorageFault else query q db.

(** [db.run(sql)] without a callback: an error of the statement is
    emitted as an error event, which kills the process. *)
Definition db_run (s : Stmt) : Async unit :=
  fun env w =>
    match perform s env (store w) with
    | (Some e, db) => (Crashed e, mkWorld db (unhandled w ++ [e]))
    | (None, db) => (Resolved tt, mkWorld db (unhandled w))
    end.

(** [new Promise((resolve, reject) => db.run(sql, (err) => err ? reject(err) : resolve()))] *)
Definition db_run_checked (s : Stmt) : Async unit :=
  fun env w =>
    match perform s env (store w) with
    | (Some e, db) => (Rejected e, mkWorld db (unhandled w))
    | (None, db) => (Resolved tt, mkWorld db (unhandled w))
    end.

(** [new Promise((resolve) => db.run(sql, () => resolve()))]: the
    callback does not look at its error argument. *)
Definition db_run_ignoring (s : Stmt) : Async unit :=
  fun env w => (Resolved tt, mkWorld (perform s env (store w)).2 (unhandled w)).

(** [db.get(sql, (err, row) => ...)]: the callback receives the error or
    the row. *)
Definition db_get (q : Query) : Async (Error + option Row) :=
  fun env w => (Resolved (fetch q env (store w)), w).

Fixpoint for_of {A : Type} (l : list A) (body : A -> Async unit) : Async unit :=
  match l with
  | [] => resolve tt
  | x :: rest => body x ;; for_of rest body
  end.

(** ** The schema of the migrations *)

Definition col (n : string) (ty : SqlType) : Column := mkColumn n ty false false DNull.
Definition col_not_null (n : string) (ty : SqlType) : Column := mkColumn n ty true false DNull.
Definition col_key (n : string) (ty : SqlType) : Column := mkColumn n ty false true DNull.
Definition col_id (n : string) : Column := mkColumn n INTEGER false true DAutoIncrement.
Definition col_default (n : string) (ty : SqlType) (v : Value) : Column :=
  mkColumn n ty false false (DConst v).
Definition col_timestamp (n : string) : Column :=
  mkColumn n TEXT false false DCurrentTimestamp.

Definition firefighters_cols : list Column :=
  [ col_key "badge" TEXT;
    col_not_null "name" TEXT;
    col "email" TEXT;
    col_default "rank" TEXT (VText "Firefighter");
    col "station" TEXT;
    col "phone" TEXT;
    col "hire_date" TEXT;
    col_default "status" TEXT (VText "active");
    col "certifications" TEXT;
    col_default "vacation_days_total" INTEGER (VNum 11);
    col_default "vacation_days_used" INTEGER (VNum 0);
    col_timestamp "created_at";
    col_timestamp "updated_at" ].

Definition incidents_cols : list Column :=
  [ col_key "id" TEXT;
    col_not_null "location" TEXT;
    col_not_null "incident_type" TEXT;
    col "description" TEXT;
    col_default "priority" TEXT (VText "Medium");
    col_timestamp "time";
    col_default "active" INTEGER (VNum 1);
    col "closed_reason" TEXT;
    col "closed_by_badge" TEXT;
    col "closed_by_station" TEXT;
    col_timestamp "created_at" ].

Definition attendees_cols : list Column :=
  [ col_id "id";
    col "incident_id" TEXT;
    col "badge" TEXT;
    col "name" TEXT;
    col "station" TEXT;
    col_timestamp "check_in_time";
    col "check_out_time" TEXT;
    col_default "flagged" INTEGER (VNum 0);
    col "flag_reason" TEXT;
    col "pay_code" TEXT ].

Definition events_cols : list Column :=
  [ col_id "id";
    col_not_null "event_name" TEXT;
    col_not_null "event_type" TEXT;
    col "activity_category" TEXT;
    col "location" TEXT;
    col_not_null "start_date" TEXT;
    col "end_date" TEXT;
    col "description" TEXT;
    col_default "status" TEXT (VText "pending");
    col "created_by" TEXT;
    col "created_by_badge" TEXT;
    col_default "active" INTEGER (VNum 1);
    col_timestamp "created_at" ].

Definition event_attendees_cols : list Column :=
  [ col_id "id";
    col "event_id" INTEGER;
    col "badge" TEXT;
    col "name" TEXT;
    col "station" TEXT;
    col "attendance_type" TEXT;
    col_timestamp "check_in_time";
    col "check_out_time" TEXT;
    col "actual_start_time" TEXT;
    col "actual_end_time" TEXT;
    col "hours_worked" REAL;
    col "approved_hours" REAL;
    col "notes" TEXT;
    col "pay_code" TEXT ].

Definition stations_cols : list Column :=
  [ col_key "name" TEXT;
    col "address" TEXT;
    col "phone" TEXT;
    col_timestamp "created_at" ].

Definition station_accounts_cols : list Column :=
  [ col_key "station_name" TEXT;
    col_not_null "password" TEXT;
    col_timestamp "created_at" ].

Definition auth_logs_cols : list Column :=
  [ col_id "id";
    col "badge" TEXT;
    col_timestamp "attempt_time";
    col "success" INTEGER;
    col "ip_address" TEXT;
    col "user_agent" TEXT;
    col "failure_reason" TEXT ].

Definition pin_reset_logs_cols : list Column :=
  [ col_id "id";
    col "badge" TEXT;
    col "reset_by" TEXT;
    col "reset_reason" TEXT;
    col_timestamp "reset_time";
    col "reset_type" TEXT ].

Definition activity_categories_cols : list Column :=
  [ col_id "id";
    col_key "category_name" TEXT;
    col "description" TEXT;
    col_default "requires_approval" INTEGER (VNum 1);
    col "default_hours" REAL;
    col_timestamp "created_at" ].

Definition settings_cols : list Column :=
  [ col_key "key" TEXT;
    col "value" TEXT;
    col "description" TEXT;
    col_timestamp "updated_at" ].

Definition audit_log_cols : list Column :=
  [ col_id "id";
    col "user_badge" TEXT;
    col "action" TEXT;
    col "table_name" TEXT;
    col "record_id" TEXT;
    col "old_values" TEXT;
    col "new_values" TEXT;
    col "ip_address" TEXT;
    col "user_agent" TEXT;
    col_timestamp "timestamp" ].

Definition db_version_cols : list Column := [ col "version" INTEGER ].

(** The columns [migration_v2] adds to [firefighters], in its order. *)
Definition firefighters_auth_cols : list Column :=
  [ col "pin_hash" TEXT;
    col "pin_reset_at" TEXT;
    col "pin_reset_by" TEXT;
    col_default "account_locked" INTEGER (VNum 0);
    col_default "failed_attempts" INTEGER (VNum 0);
    col "last_failed_attempt" TEXT ].

Definition CURRENT_DB_VERSION : Z := 3.

(** ** Seed data of [insertDefaultData] *)

Record Station : Type := mkStation { st_name : string; st_address : string; st_phone : string }.
Record Account : Type := mkAccount { ac_station : string; ac_password : string }.
Record Person : Type := mkPerson {
  p_badge : string; p_name : string; p_rank : string; p_station : string; p_pin : string }.
Record Category : Type := mkCategory { cat_name : string; cat_description : string; cat_hours : Z }.

Definition defaultStations : list Station :=
  [ mkStation "Station 1" "123 Fire Station Rd" "555-0001";
    mkStation "Station 2" "456 Emergency Ave" "555-0002";
    mkStation "Station 3" "789 Rescue Blvd" "555-0003";
    mkStation "Station 4" "321 Safety St" "555-0004";
    mkStation "Station 5" "654 Hero Ln" "555-0005" ].

Definition stationAccounts : list Account :=
  [ mkAccount "Station 1" "station1pass";
    mkAccount "Station 2" "station2pass";
    mkAccount "Station 3" "station3pass";
    mkAccount "Station 4" "station4pass";
    mkAccount "Station 5" "station5pass" ].

Definition defaultPersonnel : list Person :=
  [ mkPerson "001" "John Smith" "Captain" "Station 1" "1234";
    mkPerson "002" "Jane Doe" "Lieutenant" "Station 1" "2345";
    mkPerson "003" "Mike Johnson" "Firefighter" "Station 2" "3456";
    mkPerson "004" "Sarah Williams" "Engineer" "Station 2" "4567";
    mkPerson "005" "Tom Brown" "Firefighter" "Station 3" "5678" ].

Definition defaultCategories : list Category :=
  [ mkCategory "Fire Training" "Fire suppression and prevention training" 4;
    mkCategory "EMS Training" "Emergency medical services training" 4;
    mkCategory "Equipment Maintenance" "Equipment checks and maintenance" 2;
    mkCategory "Community Event" "Public education and community engagement" 3;
    mkCategory "Physical Training" "Physical fitness and conditioning" 1 ].

(** ** Responses of the authentication route *)

Inductive Body : Type :=
| ErrorBody (error : string)                  (* { error: ... } *)
| SuccessBody (firefighter : Row).            (* { success: true, firefighter: ... } *)

Record Response : Type := mkResponse {
  status : Z;
  body : Body
}.

Section Program.

(** [bcrypt.hash(pin, 10)] as a function of the pin and of the salt it
    draws, [bcrypt.compare] on two strings, and JavaScript's conversion
    of a string to a number ([None] for NaN). *)
Variable bcrypt_hash : string -> string -> string.
Variable bcrypt_compare : string -> string -> bool.
Variable js_number : string -> option Z.

Definition to_number (v : Value) : option Z :=
  match v with
  | VNull => Some 0
  | VNum n => Some n
  | VText s => js_number s
  end.

(** [v < k] and [v >= k] for a number [k]; a comparison with NaN is false. *)
Definition js_lt (v : Value) (k : Z) : bool :=
  match to_number v with
  | Some n => n <? k
  | None => false
  end.

Definition js_ge (v : Value) (k : Z) : bool :=
  match to_number v with
  | Some n => k <=? n
  | None => false
  end.

(** [v + 1]: addition on numbers, concatenation on a string. A number
    of JavaScript is a double: the driver hands a stored integer over
    as the nearest double, and the sum is rounded again. *)
Definition js_plus_one (v : Value) : Value :=
  match v with
  | VNull => VNum 1
  | VNum n => VNum (to_double (to_double n + 1))
  | VText s => VText (s +:+ "1")
  end.

(** *** Schema version *)

Definition getDatabaseVersion : Async Value :=
  let* found := db_get (SelectNameFromMaster "db_version") in
  match found with
  | inl err => reject err
  | inr None => resolve (VNum 0)
  | inr (Some _) =>
      let* got := db_get (SelectFirst "db_version" (Some "version") None) in
      match got with
      | inl err => reject err
      | inr (Some versionRow) => resolve (field versionRow "version")
      | inr None => resolve (VNum 0)
      end
  end.

Definition setDatabaseVersion (version : Value) : Async unit :=
  db_run_checked (CreateTableIfNotExists "db_version" db_version_cols) ;;
  db_run_checked (DeleteFrom "db_version") ;;
  db_run_checked (InsertInto "db_version" [("version", version)]).

(** *** Migration steps *)

Definition migration_v1 : Async unit :=
  db_run (CreateTableIfNotExists "firefighters" firefighters_cols) ;;
  db_run (CreateTableIfNotExists "incidents" incidents_cols) ;;
  db_run (CreateTableIfNotExists "attendees" attendees_cols) ;;
  db_run (CreateTableIfNotExists "events" events_cols) ;;
  db_run (CreateTableIfNotExists "event_attendees" event_attendees_cols) ;;
  db_run (CreateTableIfNotExists "stations" stations_cols) ;;
  db_run_checked (CreateTableIfNotExists "station_accounts" station_accounts_cols).

Definition migration_v2 : Async unit :=
  for_of firefighters_auth_cols
    (fun c => db_run (AlterTableAddColumn "firefighters" c)) ;;
  db_run (CreateTableIfNotExists "auth_logs" auth_logs_cols) ;;
  db_run_checked (CreateTableIfNotExists "pin_reset_logs" pin_reset_logs_cols).

Definition migration_v3 : Async unit :=
  db_run (CreateTableIfNotExists "activity_categories" activity_categories_cols) ;;
  db_run (CreateTableIfNotExists "settings" settings_cols) ;;
  db_run (CreateTableIfNotExists "audit_log" audit_log_cols) ;;
  resolve tt.

Definition when (b : bool) (m : Async unit) : Async unit :=
  if b then m else resolve tt.

Definition runMigrations : Async unit :=
  let* currentVersion := getDatabaseVersion in
  when (js_lt currentVersion 1) migration_v1 ;;
  when (js_lt currentVersion 2) migration_v2 ;;
  when (js_lt currentVersion 3) migration_v3 ;;
  setDatabaseVersion (VNum CURRENT_DB_VERSION).

(** *** Reference data *)

Definition email_of (name : string) : string :=
  replace " "%char "."%char (toLowerCase name) +:+ "@firedept.gov".

Definition station_insert (station : Station) : Stmt :=
  InsertOrIgnoreInto "stations"
    [("name", VText (st_name station));
     ("address", VText (st_address station));
     ("phone", VText (st_phone station))].

Definition account_insert (account : Account) : Stmt :=
  InsertOrIgnoreInto "station_accounts"
    [("station_name", VText (ac_station account));
     ("password", VText (ac_password account))].

Definition person_insert (pinHash : string) (person : Person) : Stmt :=
  InsertOrIgnoreInto "firefighters"
    [("badge", VText (p_badge person));
     ("name", VText (p_name person));
     ("rank", VText (p_rank person));
     ("station", VText (p_station person));
     ("pin_hash", VText pinHash);
     ("email", VText (email_of (p_name person)))].

Definition category_insert (category : Category) : Stmt :=
  InsertOrIgnoreInto "activity_categories"
    [("category_name", VText (cat_name category));
     ("description", VText (cat_description category));
     ("default_hours", VNum (cat_hours category))].

Definition insertDefaultData : Async unit :=
  for_of defaultStations (fun station =>
    db_run_ignoring (station_insert station)) ;;
  for_of stationAccounts (fun account =>
    db_run_ignoring (account_insert account)) ;;
  for_of defaultPersonnel (fun person =>
    let* env := ask in
    let pinHash := bcrypt_hash (p_pin person) (salt env (p_pin person)) in
    db_run_ignoring (person_insert pinHash person)) ;;
  for_of defaultCategories (fun category =>
    db_run_ignoring (category_insert category)).

(** The statements [insertDefaultData] issues in environment [env], in
    order. *)
Definition seed_statements (env : Env) : list Stmt :=
  ((station_insert <$> defaultStations) ++
   (account_insert <$> stationAccounts) ++
   ((fun person =>
       person_insert (bcrypt_hash (p_pin person) (salt env (p_pin person))) person)
      <$> defaultPersonnel) ++
   (category_insert <$> defaultCategories))%list.

Definition initializeDatabase : Async unit :=
  runMigrations ;;
  insertDefaultData.

(** *** Authentication *)

(** The values [logAuthAttempt] binds to its INSERT. *)
Definition attempt_values (badge : Value) (success : bool)
    (ipAddress userAgent failureReason : Value) : list (string * Value) :=
  [("badge", badge);
   ("success", VNum (if success then 1 else 0));
   ("ip_address", ipAddress);
   ("user_agent", userAgent);
   ("failure_reason", failureReason)].

Definition logAuthAttempt (badge : Value) (success : bool)
    (ipAddress userAgent failureReason : Value) : Async unit :=
  db_run_ignoring
    (InsertInto "auth_logs" (attempt_values badge success ipAddress userAgent failureReason)).

(** [await bcrypt.compare(pin, hash)]: the promise rejects unless both
    arguments are strings. *)
Definition compare_pin (pin : Json) (hash : Value) : Async bool :=
  match pin, hash with
  | JString p, VText h => resolve (bcrypt_compare p h)
  | _, _ => reject BcryptArguments
  end.

Definition lookup_firefighter (badge : Value) : Query :=
  SelectFirst "firefighters" None (Some ("badge", badge)).

Definition reset_attempts (badge : Value) : Stmt :=
  UpdateSetWhere "firefighters"
    [("failed_attempts", VNum 0); ("last_failed_attempt", VNull)]
    "badge" badge.

Definition record_failure (failedAttempts : Value) (at_ : string)
    (shouldLock : bool) (badge : Value) : Stmt :=
  UpdateSetWhere "firefighters"
    [("failed_attempts", failedAttempts);
     ("last_failed_attempt", VText at_);
     ("account_locked", VNum (if shouldLock then 1 else 0))]
    "badge" badge.

(** The handler of [POST /api/firefighters/authenticate], behind the
    rate limiter; [badge] and [pin] are the two properties of the
    request body. The computation resolves with the response the
    handler sends; it rejects when an exception escapes the lookup
    callback, and it crashes when the UPDATE fails, which has no
    callback: in both cases no response is sent. *)
Definition authenticate (badge pin : Json) (clientIP userAgent : Value)
    : Async Response :=
  if negb (truthy badge) || negb (truthy pin) then
    logAuthAttempt (bound badge) false clientIP userAgent (VText "Missing badge or PIN") ;;
    resolve (mkResponse 400 (ErrorBody "Badge and PIN are required"))
  else
    let* found := db_get (lookup_firefighter (bound badge)) in
    match found with
    | inl err =>
        resolve (mkResponse 500 (ErrorBody "Internal server error"))
    | inr None =>
        logAuthAttempt (bound badge) false clientIP userAgent (VText "Badge not found") ;;
        resolve (mkResponse 401 (ErrorBody "Invalid badge number"))
    | inr (Some firefighter) =>
        if js_truthy (field firefighter "account_locked") then
          logAuthAttempt (bound badge) false clientIP userAgent (VText "Account locked") ;;
          resolve (mkResponse 423 (ErrorBody "Account is locked. Contact administrator."))
        else
          let* isPinValid := compare_pin pin (field firefighter "pin_hash") in
          if isPinValid then
            db_run (reset_attempts (bound badge)) ;;
            logAuthAttempt (bound badge) true clientIP userAgent VNull ;;
            resolve (mkResponse 200 (SuccessBody (delete "pin_hash" firefighter)))
          else
            let failedAttempts :=
              js_plus_one (js_or (field firefighter "failed_attempts") (VNum 0)) in
            let shouldLock := js_ge failedAttempts 5 in
            let* env := ask in
            db_run (record_failure failedAttempts (js_now env) shouldLock (bound badge)) ;;
            logAuthAttempt (bound badge) false clientIP userAgent (VText "Invalid PIN") ;;
            if shouldLock then
              resolve (mkResponse 423 (ErrorBody
                "Account locked due to multiple failed attempts. Contact administrator."))
            else
              resolve (mkResponse 401 (ErrorBody "Invalid PIN"))
    end.

End Program.

(** ** Observations on a store *)

#[global] Instance SqlType_eq_dec : EqDecision SqlType.
Proof. solve_decision. Defined.
#[global] Instance Default_eq_dec : EqDecision Default.
Proof. solve_decision. Defined.
#[global] Instance Column_eq_dec : EqDecision Column.
Proof. solve_decision. Defined.

(** The table a statement writes to. *)
Definition target (s : Stmt) : string :=
  match s with
  | CreateTableIfNotExists t _ => t
  | AlterTableAddColumn t _ => t
  | DeleteFrom t => t
  | InsertInto t _ => t
  | InsertOrIgnoreInto t _ => t
  | UpdateSetWhere t _ _ _ => t
  end.

(** Table [t] is present with exactly the columns [cols]. *)
Definition has_schema (t : string) (cols : list Column) (db : Store) : bool :=
  match db !! t with
  | Some tb => bool_decide (tcols tb = cols)
  | None => false
  end.

Definition rows_of (t : string) (db : Store) : list Row :=
  match db !! t with
  | Some tb => trows tb
  | None => []
  end.

Definition seq_of (t : string) (db : Store) : Z :=
  match db !! t with
  | Some tb => tseq tb
  | None => 0
  end.

(** The attempt log. *)
Definition auth_logs (db : Store) : list Row := rows_of "auth_logs" db.

(** The credential record stored under a badge: what the lookup of the
    route reads. *)
Definition stored (db : Store) (badge : Value) : option Row :=
  match query (lookup_firefighter badge) db with
  | inr found => found
  | inl _ => None
  end.

(** The [firefighters] table has the three columns the failure branch
    writes. *)
Definition has_attempt_columns (db : Store) : bool :=
  match db !! "firefighters" with
  | Some tb => has_col tb "failed_attempts" && has_col tb "last_failed_attempt"
               && has_col tb "account_locked"
  | None => false
  end.

(** The failed-attempt counter of a record as a number; a NULL counter
    counts as 0, as in [firefighter.failed_attempts || 0]. *)
Definition counter (r : Row) : option Z :=
  match field r "failed_attempts" with
  | VNull => Some 0
  | VNum n => Some n
  | VText _ => None
  end.

Definition locked (r : Row) : bool := js_truthy (field r "account_locked").

(** The schema version a store records: what [getDatabaseVersion] reads. *)
Definition recorded_version (db : Store) : Value :=
  match db !! "db_version" with
  | None => VNum 0
  | Some tb =>
      match trows tb with
      | [] => VNum 0
      | versionRow :: _ => field versionRow "version"
      end
  end.

Definition no_faults (env : Env) : Prop := forall op, faults env op = false.

(** The row an INSERT of [logAuthAttempt] appends to the migrated
    [auth_logs] table. *)
Definition log_entry (now : string) (rows : list Row) (seq : Z)
    (vals : list (string * Value)) : Row :=
  build_row now rows seq vals auth_logs_cols.

(** The world after [db.run(s)] without a callback, and after a call of
    [logAuthAttempt] binding [vals]. *)
Definition after_run (s : Stmt) (env : Env) (w : World) : World :=
  (db_run s env w).2.

Definition after_log (vals : list (string * Value)) (env : Env) (w : World) : World :=
  mkWorld (perform (InsertInto "auth_logs" vals) env (store w)).2 (unhandled w).

Definition response_400 : Response :=
  mkResponse 400 (ErrorBody "Badge and PIN are required").
Definition response_500 : Response :=
  mkResponse 500 (ErrorBody "Internal server error").
Definition response_unknown : Response :=
  mkResponse 401 (ErrorBody "Invalid badge number").
Definition response_locked : Response :=
  mkResponse 423 (ErrorBody "Account is locked. Contact administrator.").
Definition response_invalid_pin : Response :=
  mkResponse 401 (ErrorBody "Invalid PIN").
Definition response_now_locked : Response :=
  mkResponse 423 (ErrorBody
    "Account locked due to multiple failed attempts. Contact administrator.").

(** Table [t] is absent, or present with exactly the columns [cols]. *)
Definition absent_or_schema (t : string) (cols : list Column) (db : Store) : bool :=
  match db !! t with
  | Some tb => bool_decide (tcols tb = cols)
  | None => true
  end.

(** The recorded version as a number. *)
Definition version_number (db : Store) : Z :=
  match recorded_version db with
  | VNum n => n
  | _ => 0
  end.

Definition version_insert : Stmt :=
  InsertInto "db_version" [("version", VNum CURRENT_DB_VERSION)].

(** Whatever holds of the world before [m] and is kept by it: [Q] holds
    of the world [m] leaves, however it settles. *)
Definition ensures {A : Type} (env : Env) (P : World -> Prop) (m : Async A)
    (Q : World -> Prop) : Prop :=
  forall w, P w -> Q (m env w).2.

(** *** Keys of the reference data *)

(** A unique column other than the key [k] is a generated id that the
    statement does not set. *)
Definition fresh_or_plain (k : string) (names : list string) (c : Column) : bool :=
  negb (cunique c) || bool_decide (cname c = k) ||
  (bool_decide (cdefault c = DAutoIncrement) && negb (bool_decide (cname c ∈ names))).

(** A NOT NULL column is set by the statement or has a default. *)
Definition never_null (names : list string) (c : Column) : bool :=
  negb (cnotnull c) || bool_decide (cname c ∈ names) ||
  match cdefault c with
  | DNull => false
  | DConst v => negb (bool_decide (v = VNull))
  | _ => true
  end.

(** An INSERT OR IGNORE that sets the columns [names] into a table with
    columns [cols] can be ignored only for a row that has its key [k]. *)
Definition keyed_by (k : string) (names : list string) (cols : list Column) : bool :=
  bool_decide (NoDup (cname <$> cols)) &&
  forallb (fresh_or_plain k names) cols &&
  forallb (never_null names) cols &&
  existsb (fun c => bool_decide (cname c = k) && cunique c) cols.

Definition key_present (k : string) (v : Value) (rows : list Row) : bool :=
  existsb (fun r => bool_decide (field r k = v)) rows.

(** The table, key and columns of an INSERT OR IGNORE of the reference
    data: the key is the first column it sets. *)
Definition seed_key (s : Stmt) : option (string * string * Value * list string) :=
  match s with
  | InsertOrIgnoreInto t ((k, v) :: rest) => Some (t, k, v, k :: rest.*1)
  | _ => None
  end.

(** Statement [s] has nothing left to do on [db]: its table is absent
    or lacks one of its columns, or a row with its key is stored. *)
Definition settled (s : Stmt) (db : Store) : bool :=
  match seed_key s with
  | Some (t, k, v, names) =>
      match db !! t with
      | None => true
      | Some tb => negb (forallb (has_col tb) names) || key_present k v (trows tb)
      end
  | None => true
  end.

Definition seed_tables : list (string * string * list string) :=
  [("stations", "name", ["name"; "address"; "phone"]);
   ("station_accounts", "station_name", ["station_name"; "password"]);
   ("firefighters", "badge", ["badge"; "name"; "rank"; "station"; "pin_hash"; "email"]);
   ("activity_categories", "category_name",
    ["category_name"; "description"; "default_hours"])].

Definition keyed (db : Store) : bool :=
  forallb (fun '(t, k, names) =>
             match db !! t with
             | Some tb => keyed_by k names (tcols tb)
             | None => true
             end) seed_tables.

(** Two stores with the same tables and the same columns in each. *)
Definition same_columns (db db' : Store) : Prop :=
  forall t, tcols <$> db' !! t = tcols <$> db !! t.

(** The columns and the rows of a table: what a query can read. *)
Definition contents (tb : Table) : list Column * list Row := (tcols tb, trows tb).

(** Two stores with the same tables, and the same columns and rows in
    each; the sequences of their tables may differ. *)
Definition same_rows (db db' : Store) : Prop :=
  forall t, contents <$> db' !! t = contents <$> db !! t.

(** The store after one statement whose error, if any, is dropped. *)
Definition seed_step (env : Env) (db : Store) (s : Stmt) : Store :=
  (perform s env db).2.

(** [s] is an INSERT OR IGNORE of reference data: it sets no NULL, and
    its table, key and columns are those of [seed_tables]. *)
Definition is_seed (s : Stmt) : bool :=
  match s with
  | InsertOrIgnoreInto t ((k, v) :: rest) =>
      forallb (fun cv : string * Value => negb (bool_decide (cv.2 = VNull))) ((k, v) :: rest)
      && bool_decide ((t, k, k :: rest.*1) ∈ seed_tables)
  | _ => false
  end.

(** A statement that writes rows only. *)
Definition rows_only (s : Stmt) : bool :=
  match s with
  | CreateTableIfNotExists _ _ | AlterTableAddColumn _ _ => false
  | _ => true
  end.

(** The [firefighters] table is absent, or has the columns of
    [migration_v1] followed by the first [n] columns that
    [migration_v2] adds, for some [n] from [i] on. *)
Definition firefighters_shape (i : nat) (db : Store) : bool :=
  match db !! "firefighters" with
  | Some tb =>
      existsb (fun n => (i <=? n)%nat &&
                        bool_decide (tcols tb = (firefighters_cols ++
                                                 take n firefighters_auth_cols)%list))
              (seq 0 7)
  | None => true
  end.

(** The tables [ts] are present; the columns [cs] are present in
    [firefighters]. *)
Definition tables_exist (ts : list string) (w : World) : Prop :=
  forall t, t ∈ ts -> is_Some (store w !! t).

Definition columns_exist (cs : list string) (w : World) : Prop :=
  exists tb, store w !! "firefighters" = Some tb /\
             forall c, c ∈ cs -> has_col tb c = true.

Definition v1_tables : list string :=
  ["firefighters"; "incidents"; "attendees"; "events"; "event_attendees";
   "stations"; "station_accounts"].

Definition v2_tables : list string := ["auth_logs"; "pin_reset_logs"].

Definition v3_tables : list string := ["activity_categories"; "settings"; "audit_log"].

(** The version table and the seeded tables other than [firefighters]
    are absent or have the columns the migrations give them. *)
Definition other_tables : list (string * list Column) :=
  [("db_version", db_version_cols);
   ("stations", stations_cols);
   ("station_accounts", station_accounts_cols);
   ("activity_categories", activity_categories_cols)].

Definition other_schemas (db : Store) : bool :=
  forallb (fun '(t, cols) => absent_or_schema t cols db) other_tables.

(** The tables that the migrations read or seed are absent or have the
    columns the migrations give them. *)
Definition own_schema (db : Store) : bool :=
  other_schemas db && firefighters_shape 0 db.

(** The same as a condition on the world, with at least the first [i]
    columns of [migration_v2] where [firefighters] is present. *)
Definition migrating (i : nat) (w : World) : Prop :=
  other_schemas (store w) = true /\ firefighters_shape i (store w) = true.

(** Before [migration_v1]: [firefighters] is absent or has the columns
    of that step. Before the [i]-th ADD COLUMN of [migration_v2]: it is
    present with the columns of [migration_v1] and the first [i] of
    [migration_v2], and no other. *)
Definition fresh (w : World) : Prop :=
  other_schemas (store w) = true /\
  absent_or_schema "firefighters" firefighters_cols (store w) = true.

Definition altering (i : nat) (w : World) : Prop :=
  other_schemas (store w) = true /\
  has_schema "firefighters" (firefighters_cols ++ take i firefighters_auth_cols)%list
    (store w) = true.

(** The tables agree with the version the store records: below version
    2 [firefighters] has the columns of [migration_v1] and none of
    [migration_v2], and below version 1 it may be absent. *)
Definition consistent (js_number : string -> option Z) (db : Store) : bool :=
  other_schemas db &&
  if js_lt js_number (recorded_version db) 2 then
    if js_lt js_number (recorded_version db) 1
    then absent_or_schema "firefighters" firefighters_cols db
    else has_schema "firefighters" firefighters_cols db
  else firefighters_shape 0 db.

(** A CREATE TABLE of table [t] with columns [cols] agrees with the
    tables above. *)
Definition create_ok (i : nat) (t : string) (cols : list Column) : bool :=
  forallb (fun '(t0, c0) => negb (bool_decide (t = t0)) || bool_decide (cols = c0))
          other_tables &&
  (negb (bool_decide (t = "firefighters")) ||
   (bool_decide (cols = firefighters_cols) && (i =? 0)%nat)).

(** The store records the current version, in a version table with the
    columns the engine gives it. *)
Definition at_current_version (db : Store) : Prop :=
  exists seq, db !! "db_version" =
              Some (mkTable db_version_cols [{[ "version" := VNum CURRENT_DB_VERSION ]}] seq).

(** Under a condition on the world before it, [m] resolves and leaves a
    world as [Q] says. *)
Definition succeeds {A : Type} (env : Env) (P : World -> Prop) (m : Async A)
    (Q : World -> Prop) : Prop :=
  forall w, P w -> exists a w', m env w = (Resolved a, w') /\ Q w'.

(** Table [t] is (still) what [tb] says. *)
Definition table_is (t : string) (tb : option Table) (w : World) : Prop :=
  store w !! t = tb.




(** One authentication request and the environment it runs in. *)
Record Call : Type := mkCall {
  call_pin : Json;
  call_ip : Value;
  call_agent : Value;
  call_env : Env
}.

Definition is_log_insert (op : Op) : bool :=
  match op with
  | Run (InsertInto t _) => bool_decide (t = "auth_logs")
  | _ => false
  end.

(** Two environments that differ at most in whether an INSERT into the
    log fails. *)
Definition same_but_log (env env' : Env) : Prop :=
  sql_now env' = sql_now env /\
  js_now env' = js_now env /\
  forall op, is_log_insert op = false -> faults env' op = faults env op.

(** How each of a sequence of calls against one badge settles. *)
Fixpoint call_results (bcrypt_compare : string -> string -> bool)
    (js_number : string -> option Z) (badge : Json)
    (calls : list Call) (w : World) : list (Settled Response) :=
  match calls with
  | [] => []
  | c :: rest =>
      let result := authenticate bcrypt_compare js_number badge
                      (call_pin c) (call_ip c) (call_agent c) (call_env c) w in
      result.1 :: call_results bcrypt_compare js_number badge rest result.2
  end.

(** The world after a sequence of calls against one badge. *)
Fixpoint run_calls (bcrypt_compare : string -> string -> bool)
    (js_number : string -> option Z) (badge : Json)
    (calls : list Call) (w : World) : World :=
  match calls with
  | [] => w
  | c :: rest =>
      run_calls bcrypt_compare js_number badge rest
        (authenticate bcrypt_compare js_number badge
           (call_pin c) (call_ip c) (call_agent c) (call_env c) w).2
  end.

(** The worlds after each of a sequence of migration runs, one
    environment per run. *)
Fixpoint migration_runs (js_number : string -> option Z) (envs : list Env) (w : World)
    : list World :=
  match envs with
  | [] => []
  | env :: rest =>
      let w' := (runMigrations js_number env w).2 in
      w' :: migration_runs js_number rest w'
  end.

(** ** Sample data for the concrete instances *)

Definition toy_hash (pin salt_ : string) : string := salt_ +:+ "$" +:+ pin.
Definition toy_compare (pin hash : string) : bool :=
  bool_decide (hash = "salt$" +:+ pin).
Definition toy_number (s : string) : option Z := None.

Definition sample_env : Env :=
  mkEnv "2024-01-01 00:00:00" "2024-01-01T00:00:00.000Z"
        (fun _ => "salt") (fun _ => false).

Definition later_env : Env :=
  mkEnv "2024-02-02 00:00:00" "2024-02-02T00:00:00.000Z"
        (fun _ => "pepper") (fun _ => false).

(** An environment in which every query fails in the storage layer, and
    one in which every INSERT into [auth_logs] does. *)
Definition broken_lookup_env : Env :=
  mkEnv "2024-01-01 00:00:00" "2024-01-01T00:00:00.000Z" (fun _ => "salt")
        (fun op => match op with Get _ => true | Run _ => false end).

Definition broken_log_env : Env :=
  mkEnv "2024-01-01 00:00:00" "2024-01-01T00:00:00.000Z" (fun _ => "salt")
        (fun op => match op with
                   | Run (InsertInto "auth_logs" _) => true
                   | _ => false
                   end).

Definition broken_version_insert_env : Env :=
  mkEnv "2024-01-01 00:00:00" "2024-01-01T00:00:00.000Z" (fun _ => "salt")
        (fun op => match op with
                   | Run (InsertInto "db_version" _) => true
                   | _ => false
                   end).

Definition empty_world : World := mkWorld ∅ [].

(** The first two steps applied to an empty database, the version not
    yet recorded. *)
Definition after_two_steps : World :=
  ((migration_v1 ;; migration_v2) sample_env empty_world).2.

Definition sample_call (pin : Json) : Call :=
  mkCall pin (VText "10.0.0.1") VNull sample_env.

(** A correct PIN, five wrong ones, a correct one again, and a request
    without a PIN. *)
Definition sample_calls : list Call :=
  sample_call (JString "1234") :: (List.repeat (sample_call (JString "0000")) 5 ++
  [sample_call (JString "1234"); sample_call JNothing])%list.

(** The world after a first start on an empty database. *)
Definition sample_world : World :=
  (initializeDatabase toy_hash toy_number sample_env empty_world).2.

(** The same recording schema version [n]. *)
Definition sample_world_versioned (n : Z) : World :=
  mkWorld (<["db_version" := mkTable db_version_cols [{[ "version" := VNum n ]}] 0]>
             (store sample_world)) [].

(** The same with badge 001 at [n] failed attempts and lock flag [l]. *)
Definition sample_world_at (n l : Z) : World :=
  match exec "" (UpdateSetWhere "firefighters"
                   [("failed_attempts", VNum n); ("account_locked", VNum l)]
                   "badge" (VText "001")) (store sample_world) with
  | inr db => mkWorld db []
  | inl _ => sample_world
  end.


(** ** The storage layer *)

Lemma find_is_None {A : Type} (f : A -> bool) (l : list A) :
  Forall (fun x => f x = false) l -> find f l = None.
Proof.
  induction 1 as [|x l Hx _ IH]; simpl; [reflexivity|].
  rewrite Hx. exact IH.
Qed.

Lemma find_None_all {A : Type} (f : A -> bool) (l : list A) :
  find f l = None -> Forall (fun x => f x = false) l.
Proof.
  induction l as [|x l IH]; simpl; intros H; [constructor|].
  destruct (f x) eqn:E; [discriminate|].
  constructor; auto.
Qed.

Lemma existsb_all_false {A : Type} (f : A -> bool) (l : list A) :
  Forall (fun x => f x = false) l -> existsb f l = false.
Proof.
  induction 1 as [|x l Hx _ IH]; simpl; [reflexivity|].
  rewrite Hx. exact IH.
Qed.

Lemma max_id_bound (c : string) (rows : list Row) (r : Row) (n : Z) :
  r ∈ rows -> r !! c = Some (VNum n) -> n <= max_id c rows.
Proof.
  induction rows as [|r0 rows IH]; intros Hin Hr.
  - inversion Hin.
  - apply elem_of_cons in Hin as [->|Hin]; simpl.
    + rewrite Hr. lia.
    + specialize (IH Hin Hr). destruct (r0 !! c) as [[| |]|]; lia.
Qed.

Lemma max_id_nonneg (c : string) (rows : list Row) : 0 <= max_id c rows.
Proof.
  induction rows as [|r0 rows IH]; simpl; [lia|].
  destruct (r0 !! c) as [[| |]|]; lia.
Qed.

Lemma conflicts_not_unique (r : Row) (tb : Table) (c : Column) :
  cunique c = false -> conflicts r tb c = false.
Proof.
  intros Hc. unfold conflicts. apply existsb_all_false, Forall_forall.
  intros r' _. unfold collides. rewrite Hc. reflexivity.
Qed.

(** A freshly numbered row collides with no stored row. *)
Lemma conflicts_fresh_id (r : Row) (tb : Table) (c : Column) (seq : Z) :
  field r (cname c) = VNum (Z.max (max_id (cname c) (trows tb)) seq + 1) ->
  conflicts r tb c = false.
Proof.
  intros Hr. unfold conflicts. apply existsb_all_false, Forall_forall.
  intros r' Hin. unfold collides. rewrite Hr.
  destruct (cunique c); simpl; [|reflexivity].
  apply bool_decide_eq_false. unfold field.
  destruct (r' !! cname c) as [v|] eqn:E; [|discriminate].
  intros ->. pose proof (max_id_bound _ _ _ _ Hin E). lia.
Qed.

Lemma perform_other_table (s : Stmt) (env : Env) (db : Store) (t : string) :
  t <> target s -> (perform s env db).2 !! t = db !! t.
Proof.
  intros Hne. unfold perform.
  destruct (faults env (Run s)); [reflexivity|].
  destruct (exec (sql_now env) s db) as [e|db'] eqn:E; [reflexivity|]. simpl.
  destruct s; simpl in *; unfold insert_row in *;
    repeat match type of E with
           | context [match ?x with _ => _ end] => destruct x eqn:?; try discriminate
           end;
    inversion E; subst; try reflexivity;
    rewrite lookup_insert_ne; congruence.
Qed.

Lemma has_schema_lookup (t : string) (cols : list Column) (db : Store) :
  has_schema t cols db = true ->
  exists rows seq, db !! t = Some (mkTable cols rows seq).
Proof.
  unfold has_schema. destruct (db !! t) as [[cols' rows seq]|]; [|discriminate].
  intros H. apply bool_decide_eq_true in H. simpl in H. subst. eauto.
Qed.

(** ** The attempt log *)

Lemma log_entry_fields (now : string) (rows : list Row) (seq : Z)
    (b : Value) (s : bool) (ip ua reason : Value) :
  let entry := log_entry now rows seq (attempt_values b s ip ua reason) in
  field entry "badge" = b /\
  field entry "success" = VNum (if s then 1 else 0) /\
  field entry "failure_reason" = reason /\
  field entry "ip_address" = ip /\
  field entry "user_agent" = ua /\
  field entry "attempt_time" = VText now /\
  field entry "id" = VNum (Z.max (max_id "id" rows) seq + 1).
Proof. repeat split; reflexivity. Qed.

(** On a store with the [auth_logs] table of [migration_v2], an INSERT of
    [logAuthAttempt] that the storage layer does not fail appends one
    row and touches nothing else. *)
Lemma log_insert (env : Env) (db : Store) (vals : list (string * Value))
    (b : Value) (s : bool) (ip ua reason : Value) :
  vals = attempt_values b s ip ua reason ->
  has_schema "auth_logs" auth_logs_cols db = true ->
  faults env (Run (InsertInto "auth_logs" vals)) = false ->
  let seq := seq_of "auth_logs" db in
  perform (InsertInto "auth_logs" vals) env db =
    (None, <["auth_logs" := mkTable auth_logs_cols
               (auth_logs db ++ [log_entry (sql_now env) (auth_logs db) seq vals])
               (Z.max (max_id "id" (auth_logs db)) seq + 1)]> db).
Proof.
  intros -> Hs Hf seq. subst seq. apply has_schema_lookup in Hs as (rows & seq & Hdb).
  unfold perform. rewrite Hf. unfold auth_logs, rows_of, seq_of. rewrite Hdb.
  unfold exec, insert_row. rewrite Hdb. cbv beta iota zeta. unfold tcols, trows, tseq.
  assert (E1 : find (fun cv : string * Value =>
                       negb (has_col (mkTable auth_logs_cols rows seq) cv.1))
                    (attempt_values b s ip ua reason) = None)
    by (vm_compute; reflexivity).
  rewrite E1.
  assert (E2 : find (violates_not_null
                       (build_row (sql_now env) rows seq (attempt_values b s ip ua reason)
                                  auth_logs_cols)) auth_logs_cols = None)
    by reflexivity.
  rewrite E2.
  pose proof (log_entry_fields (sql_now env) rows seq b s ip ua reason) as F.
  cbv zeta in F. destruct F as (_ & _ & _ & _ & _ & _ & Fid).
  rewrite find_is_None.
  2:{ repeat constructor; try (apply conflicts_not_unique; reflexivity).
      apply (conflicts_fresh_id _ _ _ seq). exact Fid. }
  assert (A : advance (mkTable auth_logs_cols rows seq)
                (build_row (sql_now env) rows seq (attempt_values b s ip ua reason)
                           auth_logs_cols)
              = Z.max (max_id "id" rows) seq + 1).
  { unfold advance. cbn [tcols tseq auto_column auth_logs_cols find col_id col
                         col_timestamp cdefault cname].
    unfold log_entry in Fid. rewrite Fid. lia. }
  rewrite A. reflexivity.
Qed.

(** ** The paths of the authentication route *)

Section Authentication.

Variable bcrypt_compare : string -> string -> bool.
Variable js_number : string -> option Z.

Local Abbreviation authenticate := (authenticate bcrypt_compare js_number).
Local Abbreviation js_ge := (js_ge js_number).

Variables (badge pin : Json) (clientIP userAgent : Value).
Variables (env : Env) (w : World).

Local Abbreviation attempt success reason :=
  (attempt_values (bound badge) success clientIP userAgent reason).

Lemma logAuthAttempt_run (b : Value) (s : bool) (ip ua reason : Value)
    (e : Env) (v : World) :
  logAuthAttempt b s ip ua reason e v =
    (Resolved tt, after_log (attempt_values b s ip ua reason) e v).
Proof.
  reflexivity.
Qed.

(** [db.run] without a callback resolves when the statement raises no
    error, and kills the process when it raises one. *)
Lemma db_run_run (s : Stmt) (e : Env) (v : World) :
  (perform s e (store v)).1 = None ->
  db_run s e v = (Resolved tt, after_run s e v).
Proof.
  unfold after_run, db_run. destruct (perform s e (store v)) as [[err|] db];
    [discriminate|reflexivity].
Qed.

Lemma db_run_crash (s : Stmt) (e : Env) (v : World) (err : Error) :
  (perform s e (store v)).1 = Some err ->
  db_run s e v = (Crashed err, after_run s e v).
Proof.
  unfold after_run, db_run. destruct (perform s e (store v)) as [[err'|] db];
    [|discriminate].
  intros H. inversion H. reflexivity.
Qed.

Lemma path_missing :
  truthy badge = false \/ truthy pin = false ->
  authenticate badge pin clientIP userAgent env w =
    (Resolved response_400,
     after_log (attempt false (VText "Missing badge or PIN")) env w).
Proof.
  intros H. unfold authenticate.
  replace (negb (truthy badge) || negb (truthy pin))
    with true by (destruct H as [-> | ->]; simpl; rewrite ?orb_true_r; reflexivity).
  unfold await. rewrite ?logAuthAttempt_run. reflexivity.
Qed.

Section Present.

Hypothesis badge_given : truthy badge = true.
Hypothesis pin_given : truthy pin = true.

Lemma past_validation :
  negb (truthy badge) || negb (truthy pin) = false.
Proof. rewrite badge_given, pin_given. reflexivity. Qed.

Lemma path_lookup_error (err : Error) :
  fetch (lookup_firefighter (bound badge)) env (store w) = inl err ->
  authenticate badge pin clientIP userAgent env w = (Resolved response_500, w).
Proof.
  intros H. unfold authenticate. rewrite past_validation.
  unfold await, db_get. rewrite H. reflexivity.
Qed.

Lemma path_unknown :
  fetch (lookup_firefighter (bound badge)) env (store w) = inr None ->
  authenticate badge pin clientIP userAgent env w =
    (Resolved response_unknown,
     after_log (attempt false (VText "Badge not found")) env w).
Proof.
  intros H. unfold authenticate. rewrite past_validation.
  unfold await, db_get. rewrite H, ?logAuthAttempt_run. reflexivity.
Qed.

Variable firefighter : Row.
Hypothesis found :
  fetch (lookup_firefighter (bound badge)) env (store w) = inr (Some firefighter).

Lemma path_locked :
  locked firefighter = true ->
  authenticate badge pin clientIP userAgent env w =
    (Resolved response_locked,
     after_log (attempt false (VText "Account locked")) env w).
Proof.
  intros H. unfold authenticate. rewrite past_validation.
  unfold await, db_get. rewrite found. unfold locked in H. rewrite H.
  rewrite ?logAuthAttempt_run. reflexivity.
Qed.

(** A PIN that is not a string, or a record without a hash:
    [bcrypt.compare] rejects, and the exception escapes the callback. *)
Lemma path_no_hash :
  locked firefighter = false ->
  (forall p, pin <> JString p) \/ (forall h, field firefighter "pin_hash" <> VText h) ->
  authenticate badge pin clientIP userAgent env w = (Rejected BcryptArguments, w).
Proof.
  intros H Hh. unfold authenticate. rewrite past_validation.
  unfold await, db_get. rewrite found. unfold locked in H. rewrite H.
  unfold compare_pin.
  destruct pin as [p| |t s]; try reflexivity.
  destruct (field firefighter "pin_hash") as [| |h]; try reflexivity.
  destruct Hh as [Hh|Hh]; [destruct (Hh p)|destruct (Hh h)]; reflexivity.
Qed.

Variables p h : string.
Hypothesis pin_is : pin = JString p.
Hypothesis hash_is : field firefighter "pin_hash" = VText h.

Lemma path_success :
  locked firefighter = false ->
  bcrypt_compare p h = true ->
  (perform (reset_attempts (bound badge)) env (store w)).1 = None ->
  authenticate badge pin clientIP userAgent env w =
    (Resolved (mkResponse 200 (SuccessBody (delete "pin_hash" firefighter))),
     after_log (attempt true VNull) env
       (after_run (reset_attempts (bound badge)) env w)).
Proof.
  intros H Hc Hu. unfold authenticate. rewrite past_validation.
  unfold await, db_get. rewrite found. unfold locked in H. rewrite H.
  rewrite pin_is, hash_is. simpl. unfold resolve at 1. rewrite Hc.
  rewrite db_run_run by exact Hu. rewrite ?logAuthAttempt_run. reflexivity.
Qed.

Lemma path_success_crash (err : Error) :
  locked firefighter = false ->
  bcrypt_compare p h = true ->
  (perform (reset_attempts (bound badge)) env (store w)).1 = Some err ->
  authenticate badge pin clientIP userAgent env w =
    (Crashed err, after_run (reset_attempts (bound badge)) env w).
Proof.
  intros H Hc Hu. unfold authenticate. rewrite past_validation.
  unfold await, db_get. rewrite found. unfold locked in H. rewrite H.
  rewrite pin_is, hash_is. simpl. unfold resolve at 1. rewrite Hc.
  rewrite (db_run_crash _ _ _ err) by exact Hu. reflexivity.
Qed.

Lemma path_failure :
  locked firefighter = false ->
  bcrypt_compare p h = false ->
  let failedAttempts :=
    js_plus_one (js_or (field firefighter "failed_attempts") (VNum 0)) in
  let shouldLock := js_ge failedAttempts 5 in
  let update := record_failure failedAttempts (js_now env) shouldLock (bound badge) in
  (perform update env (store w)).1 = None ->
  authenticate badge pin clientIP userAgent env w =
    (Resolved (if shouldLock then response_now_locked else response_invalid_pin),
     after_log (attempt false (VText "Invalid PIN")) env (after_run update env w)).
Proof.
  intros H Hc fa sl upd Hu. unfold authenticate. rewrite past_validation.
  unfold await, db_get. rewrite found. unfold locked in H. rewrite H.
  rewrite pin_is, hash_is. simpl. unfold resolve at 1. rewrite Hc.
  unfold ask. fold fa. fold sl. fold upd.
  rewrite db_run_run by exact Hu. rewrite ?logAuthAttempt_run.
  destruct sl; reflexivity.
Qed.

Lemma path_failure_crash (err : Error) :
  locked firefighter = false ->
  bcrypt_compare p h = false ->
  let failedAttempts :=
    js_plus_one (js_or (field firefighter "failed_attempts") (VNum 0)) in
  let shouldLock := js_ge failedAttempts 5 in
  let update := record_failure failedAttempts (js_now env) shouldLock (bound badge) in
  (perform update env (store w)).1 = Some err ->
  authenticate badge pin clientIP userAgent env w = (Crashed err, after_run update env w).
Proof.
  intros H Hc fa sl upd Hu. unfold authenticate. rewrite past_validation.
  unfold await, db_get. rewrite found. unfold locked in H. rewrite H.
  rewrite pin_is, hash_is. simpl. unfold resolve at 1. rewrite Hc.
  unfold ask. fold fa. fold sl. fold upd.
  rewrite (db_run_crash _ _ _ err) by exact Hu. reflexivity.
Qed.

End Present.

End Authentication.

(** ** Effects of the statements of the route *)

Lemma after_log_other (vals : list (string * Value)) (env : Env) (w : World) (t : string) :
  t <> "auth_logs" -> store (after_log vals env w) !! t = store w !! t.
Proof. intros H. unfold after_log. simpl. apply perform_other_table. exact H. Qed.

Lemma after_log_unhandled (vals : list (string * Value)) (env : Env) (w : World) :
  unhandled (after_log vals env w) = unhandled w.
Proof. reflexivity. Qed.

Lemma after_log_appends (env : Env) (w : World)
    (b : Value) (s : bool) (ip ua reason : Value) :
  has_schema "auth_logs" auth_logs_cols (store w) = true ->
  faults env (Run (InsertInto "auth_logs" (attempt_values b s ip ua reason))) = false ->
  let entry := log_entry (sql_now env) (auth_logs (store w)) (seq_of "auth_logs" (store w))
                 (attempt_values b s ip ua reason) in
  auth_logs (store (after_log (attempt_values b s ip ua reason) env w)) =
    (auth_logs (store w) ++ [entry])%list /\
  has_schema "auth_logs" auth_logs_cols
    (store (after_log (attempt_values b s ip ua reason) env w)) = true.
Proof.
  intros Hs Hf entry. unfold after_log. simpl.
  pose proof (log_insert env (store w) _ b s ip ua reason eq_refl Hs Hf) as E.
  cbv zeta in E. rewrite E. simpl.
  unfold auth_logs at 1, rows_of, has_schema. rewrite lookup_insert_eq. simpl.
  split; reflexivity.
Qed.

Lemma after_run_store (s : Stmt) (env : Env) (w : World) :
  store (after_run s env w) = (perform s env (store w)).2.
Proof.
  unfold after_run, db_run. destruct (perform s env (store w)) as [[e|] db]; reflexivity.
Qed.

Lemma after_run_other (s : Stmt) (env : Env) (w : World) (t : string) :
  t <> target s -> store (after_run s env w) !! t = store w !! t.
Proof.
  intros H. rewrite after_run_store. apply perform_other_table. exact H.
Qed.

(** A statement that fails leaves the store as it was. *)
Lemma perform_error (s : Stmt) (env : Env) (db : Store) (err : Error) :
  (perform s env db).1 = Some err -> (perform s env db).2 = db.
Proof.
  unfold perform. destruct (faults env (Run s)); [reflexivity|].
  destruct (exec (sql_now env) s db); [reflexivity|discriminate].
Qed.

Lemma has_schema_same (t : string) (cols : list Column) (db db' : Store) :
  db' !! t = db !! t -> has_schema t cols db' = has_schema t cols db.
Proof. unfold has_schema. intros ->. reflexivity. Qed.

Lemma auth_logs_same (db db' : Store) :
  db' !! "auth_logs" = db !! "auth_logs" -> auth_logs db' = auth_logs db.
Proof. unfold auth_logs, rows_of. intros ->. reflexivity. Qed.

Lemma stored_same (db db' : Store) (b : Value) :
  db' !! "firefighters" = db !! "firefighters" -> stored db' b = stored db b.
Proof. unfold stored, query, lookup_firefighter. intros ->. reflexivity. Qed.

Lemma fetch_stored (env : Env) (db : Store) (b : Value) (r : Row) :
  faults env (Get (lookup_firefighter b)) = false ->
  stored db b = Some r ->
  fetch (lookup_firefighter b) env db = inr (Some r).
Proof.
  intros Hf Hs. unfold fetch. rewrite Hf. unfold stored in Hs.
  destruct (query (lookup_firefighter b) db) as [e|found]; [discriminate|].
  congruence.
Qed.

(** What a successful lookup says about the table. *)
Lemma stored_table (db : Store) (b : Value) (r : Row) :
  stored db b = Some r ->
  exists tb, db !! "firefighters" = Some tb /\ has_col tb "badge" = true /\
             find (matches (Some ("badge", b))) (trows tb) = Some r.
Proof.
  unfold stored, query, lookup_firefighter.
  destruct (db !! "firefighters") as [tb|]; [|discriminate].
  simpl. destruct (has_col tb "badge") eqn:E; simpl; [|discriminate].
  intros H. exists tb. split; [reflexivity|]. split; [exact E|].
  destruct (find _ (trows tb)); simpl in H; congruence.
Qed.

Lemma set_fields_other (sets : list (string * Value)) (r : Row) (k : string) :
  k ∉ sets.*1 -> set_fields sets r !! k = r !! k.
Proof.
  revert r. induction sets as [|[c v] sets IH]; intros r Hk; simpl; [reflexivity|].
  simpl in Hk. apply not_elem_of_cons in Hk as [Hne Hk].
  rewrite IH by exact Hk. apply lookup_insert_ne. congruence.
Qed.

Lemma update_row_matches (sets : list (string * Value)) (wcol : string) (wval : Value)
    (r : Row) :
  wcol ∉ sets.*1 ->
  matches (Some (wcol, wval)) (update_row sets wcol wval r) = matches (Some (wcol, wval)) r.
Proof.
  intros Hk. unfold update_row, matches.
  destruct (decide (r !! wcol = Some wval)) as [E|E]; [|reflexivity].
  rewrite set_fields_other by exact Hk. reflexivity.
Qed.

Lemma find_update_row (sets : list (string * Value)) (wcol : string) (wval : Value)
    (rows : list Row) :
  wcol ∉ sets.*1 ->
  find (matches (Some (wcol, wval))) (update_row sets wcol wval <$> rows) =
    set_fields sets <$> find (matches (Some (wcol, wval))) rows.
Proof.
  intros Hk. induction rows as [|r rows IH]; [reflexivity|].
  cbn [fmap list_fmap find]. rewrite update_row_matches by exact Hk.
  destruct (matches (Some (wcol, wval)) r) eqn:E; [|exact IH].
  unfold update_row. unfold matches in E. apply bool_decide_eq_true in E.
  rewrite decide_True by exact E. reflexivity.
Qed.

(** An UPDATE of the route that the storage layer does not fail, on a
    table that has the columns it names, rewrites the record of the
    badge and raises no error. *)
Lemma after_update (env : Env) (w : World) (sets : list (string * Value))
    (b : Value) (r : Row) (tb : Table) :
  faults env (Run (UpdateSetWhere "firefighters" sets "badge" b)) = false ->
  store w !! "firefighters" = Some tb ->
  forallb (has_col tb) ("badge" :: sets.*1) = true ->
  "badge" ∉ sets.*1 ->
  stored (store w) b = Some r ->
  let w' := after_run (UpdateSetWhere "firefighters" sets "badge" b) env w in
  (perform (UpdateSetWhere "firefighters" sets "badge" b) env (store w)).1 = None /\
  stored (store w') b = Some (set_fields sets r) /\
  unhandled w' = unhandled w /\
  (forall t, t <> "firefighters" -> store w' !! t = store w !! t).
Proof.
  intros Hf Htb Hcols Hk Hs w'.
  assert (Hfind : find (fun c => negb (has_col tb c)) ("badge" :: sets.*1) = None).
  { apply find_is_None. rewrite forallb_forall in Hcols. apply Forall_forall.
    intros c Hc. rewrite Hcols; [reflexivity|]. apply list_elem_of_In. exact Hc. }
  apply stored_table in Hs as (tb' & Htb' & Hb & Hr).
  rewrite Htb in Htb'. inversion Htb'; subst tb'; clear Htb'.
  subst w'. unfold after_run, db_run, perform. rewrite Hf. unfold exec.
  rewrite Htb, Hfind. simpl. repeat split.
  - unfold stored, query, lookup_firefighter. rewrite lookup_insert_eq. simpl.
    unfold has_col, col_names in *. simpl. rewrite Hb. simpl.
    rewrite find_update_row by exact Hk. rewrite Hr. reflexivity.
  - intros t Ht. apply lookup_insert_ne. congruence.
Qed.

Lemma text_truthy (s : string) : s <> "" -> truthy (JString s) = true.
Proof. intros H. simpl. rewrite bool_decide_eq_false_2 by exact H. reflexivity. Qed.

(** An integer of at most 53 bits is a double. *)
Lemma to_double_exact (n : Z) : Z.abs n <= 2 ^ 53 -> to_double n = n.
Proof.
  intros H. unfold to_double. destruct (Z.ltb_spec (Z.abs n) (2 ^ 53)) as [|Hge];
    [reflexivity|].
  assert (E : n = 2 ^ 53 \/ n = - 2 ^ 53) by lia.
  destruct E as [-> | ->]; vm_compute; reflexivity.
Qed.

Lemma counter_plus_one (js_number : string -> option Z) (r : Row) (n : Z) :
  counter r = Some n ->
  Z.abs n < 2 ^ 53 ->
  js_plus_one (js_or (field r "failed_attempts") (VNum 0)) = VNum (n + 1) /\
  js_ge js_number (VNum (n + 1)) 5 = (5 <=? n + 1).
Proof.
  unfold counter. intros H Hn. split; [|reflexivity].
  assert (E : to_double (to_double n + 1) = n + 1).
  { rewrite (to_double_exact n) by lia. apply to_double_exact. lia. }
  destruct (field r "failed_attempts") as [|m|t]; inversion H; subst; [reflexivity|].
  unfold js_or. simpl. destruct (Z.eqb_spec n 0) as [->|]; simpl; [reflexivity|].
  rewrite E. reflexivity.
Qed.

(** At 2^53 the sum is rounded back to the counter: the bound above is
    needed. *)
Lemma js_plus_one_rounds : js_plus_one (VNum (2 ^ 53)) = VNum (2 ^ 53).
Proof. vm_compute. reflexivity. Qed.

Lemma attempt_columns (db : Store) (tb : Table) :
  db !! "firefighters" = Some tb ->
  has_attempt_columns db = true ->
  has_col tb "failed_attempts" = true /\
  has_col tb "last_failed_attempt" = true /\
  has_col tb "account_locked" = true.
Proof.
  unfold has_attempt_columns. intros ->. rewrite !andb_true_iff. tauto.
Qed.

(** ** Failed verification *)

(** C1. On an unlocked record whose PIN does not verify, in a call in
    which no storage operation fails, the stored failed-attempt counter
    (a number below 2^53, the integers that JavaScript adds exactly)
    becomes its prior value plus one, the lock flag is set exactly when
    the new value is at least 5, and the response is the 423 lockout
    response in that case and the 401 invalid-PIN response otherwise;
    from a counter of 4 one failed attempt gives counter 5 and a locked
    record. *)
Theorem failed_attempt_counts_and_locks
    (bcrypt_compare : string -> string -> bool) (js_number : string -> option Z)
    (b p : string) (clientIP userAgent : Value) (env : Env) (w : World)
    (firefighter : Row) (h : string) (n : Z) :
  b <> "" -> p <> "" ->
  no_faults env ->
  has_attempt_columns (store w) = true ->
  stored (store w) (VText b) = Some firefighter ->
  locked firefighter = false ->
  field firefighter "pin_hash" = VText h ->
  bcrypt_compare p h = false ->
  counter firefighter = Some n ->
  Z.abs n < 2 ^ 53 ->
  exists (response : Response) (w' : World) (after : Row),
    authenticate bcrypt_compare js_number (JString b) (JString p) clientIP userAgent env w
      = (Resolved response, w') /\
    stored (store w') (VText b) = Some after /\
    field after "failed_attempts" = VNum (n + 1) /\
    field after "account_locked" = VNum (if 5 <=? n + 1 then 1 else 0) /\
    (locked after = true <-> 5 <= n + 1) /\
    field after "last_failed_attempt" = VText (js_now env) /\
    (forall k, k ∉ ["failed_attempts"; "last_failed_attempt"; "account_locked"] ->
               after !! k = firefighter !! k) /\
    response = (if 5 <=? n + 1 then response_now_locked else response_invalid_pin) /\
    (n = 4 -> field after "failed_attempts" = VNum 5 /\ locked after = true /\
              status response = 423).
Proof.
  intros Hb Hp Hnf Hcols Hs Hl Hh Hc Hn Hbound.
  destruct (counter_plus_one js_number _ _ Hn Hbound) as [Hfa Hge].
  destruct (stored_table _ _ _ Hs) as (tb & Htb & Hbadge & _).
  destruct (attempt_columns _ _ Htb Hcols) as (C1 & C2 & C3).
  set (upd := record_failure (VNum (n + 1)) (js_now env) (5 <=? n + 1) (VText b)).
  destruct (after_update env w _ (VText b) firefighter tb (Hnf (Run upd)) Htb)
    as (Hok & Hs' & _ & _).
  { simpl. rewrite Hbadge, C1, C2, C3. reflexivity. }
  { simpl. rewrite !not_elem_of_cons. repeat split; try discriminate. apply not_elem_of_nil. }
  { exact Hs. }
  pose proof (path_failure bcrypt_compare js_number (JString b) (JString p) clientIP
                userAgent env w (text_truthy b Hb) (text_truthy p Hp) firefighter
                (fetch_stored _ _ _ _ (Hnf _) Hs) p h eq_refl Hh Hl Hc) as Hpath.
  cbv zeta in Hpath. rewrite Hfa, Hge in Hpath. specialize (Hpath Hok).
  fold upd in Hpath.
  eexists _, _, _. split; [exact Hpath|].
  split.
  { rewrite (stored_same (store (after_run upd env w))); [exact Hs'|].
    apply after_log_other. discriminate. }
  assert (F1 : forall (r : Row) (x y z : Value),
             field (set_fields [("failed_attempts", x); ("last_failed_attempt", y);
                                ("account_locked", z)] r) "failed_attempts" = x).
  { intros. unfold field. simpl. rewrite !lookup_insert_ne by discriminate.
    rewrite lookup_insert_eq. reflexivity. }
  assert (F2 : forall (r : Row) (x y z : Value),
             field (set_fields [("failed_attempts", x); ("last_failed_attempt", y);
                                ("account_locked", z)] r) "last_failed_attempt" = y).
  { intros. unfold field. simpl. rewrite lookup_insert_ne by discriminate.
    rewrite lookup_insert_eq. reflexivity. }
  assert (F3 : forall (r : Row) (x y z : Value),
             field (set_fields [("failed_attempts", x); ("last_failed_attempt", y);
                                ("account_locked", z)] r) "account_locked" = z).
  { intros. unfold field. simpl. rewrite lookup_insert_eq. reflexivity. }
  assert (L : locked (set_fields [("failed_attempts", VNum (n + 1));
                                  ("last_failed_attempt", VText (js_now env));
                                  ("account_locked", VNum (if 5 <=? n + 1 then 1 else 0))]
                        firefighter) = (5 <=? n + 1)).
  { unfold locked. rewrite F3. destruct (5 <=? n + 1); reflexivity. }
  repeat split.
  - apply F1.
  - apply F3.
  - rewrite L. intros H. apply Z.leb_le. exact H.
  - rewrite L. intros H. apply Z.leb_le. exact H.
  - apply F2.
  - intros k Hk. apply set_fields_other. exact Hk.
  - subst n. apply F1.
  - subst n. rewrite L. reflexivity.
  - subst n. reflexivity.
Qed.

Lemma found_record (db : Store) (b : Value) :
  match stored db b with Some _ => true | None => false end = true ->
  stored db b = Some (default ∅ (stored db b)).
Proof. destruct (stored db b); [reflexivity|discriminate]. Qed.

Lemma one_element {A : Type} (l : list A) : length l = 1%nat -> exists x, l = [x].
Proof. destruct l as [|x [|]]; try discriminate. eauto. Qed.

Lemma failed_attempt_counts_and_locks_witness :
  exists (response : Response) (w' : World) (after : Row),
    authenticate toy_compare toy_number (JString "001") (JString "0000")
      (VText "10.0.0.1") VNull sample_env (sample_world_at 4 0)
      = (Resolved response, w') /\
    stored (store w') (VText "001") = Some after /\
    field after "failed_attempts" = VNum (4 + 1) /\
    field after "account_locked" = VNum (if 5 <=? 4 + 1 then 1 else 0) /\
    (locked after = true <-> 5 <= 4 + 1) /\
    field after "last_failed_attempt" = VText (js_now sample_env) /\
    (forall k, k ∉ ["failed_attempts"; "last_failed_attempt"; "account_locked"] ->
               after !! k = (default ∅ (stored (store (sample_world_at 4 0)) (VText "001"))) !! k) /\
    response = (if 5 <=? 4 + 1 then response_now_locked else response_invalid_pin) /\
    (4 = 4 -> field after "failed_attempts" = VNum 5 /\ locked after = true /\
              status response = 423).
Proof.
  apply (failed_attempt_counts_and_locks toy_compare toy_number "001" "0000"
           (VText "10.0.0.1") VNull sample_env (sample_world_at 4 0)
           (default ∅ (stored (store (sample_world_at 4 0)) (VText "001")))
           "salt$1234" 4).
  - discriminate.
  - discriminate.
  - intros op. reflexivity.
  - vm_compute. reflexivity.
  - apply found_record. vm_compute. reflexivity.
  - vm_compute. reflexivity.
  - vm_compute. reflexivity.
  - vm_compute. reflexivity.
  - vm_compute. reflexivity.
  - vm_compute. reflexivity.
Defined.

(** ** Every path of the route *)

Lemma fetch_found (env : Env) (db : Store) (b : Value) (r : Row) :
  fetch (lookup_firefighter b) env db = inr (Some r) -> stored db b = Some r.
Proof.
  unfold fetch, stored. destruct (faults env _); [discriminate|].
  intros ->. reflexivity.
Qed.

Lemma badge_not_set (sets : list (string * Value)) (k : string) :
  forallb (fun c => negb (bool_decide (c = k))) sets.*1 = true -> k ∉ sets.*1.
Proof.
  intros H Hin. rewrite forallb_forall in H.
  apply list_elem_of_In, H in Hin. rewrite bool_decide_eq_true_2 in Hin by reflexivity.
  discriminate.
Qed.

(** How a call ends. It is refused by the validation; or its lookup
    fails; or the badge is unknown; or the record is locked; or
    [bcrypt.compare] rejects, the PIN not being a string or the record
    having no hash; or the PIN is compared and the UPDATE of the branch
    taken succeeds; or that UPDATE fails, and the process dies with
    it. *)
Lemma authenticate_cases
    (bcrypt_compare : string -> string -> bool) (js_number : string -> option Z)
    (badge pin : Json) (clientIP userAgent : Value) (env : Env) (w : World) :
  let result :=
    authenticate bcrypt_compare js_number badge pin clientIP userAgent env w in
  let found := fetch (lookup_firefighter (bound badge)) env (store w) in
  let attempt := attempt_values (bound badge) in
  ((truthy badge = false \/ truthy pin = false) /\
   result = (Resolved response_400,
             after_log (attempt false clientIP userAgent (VText "Missing badge or PIN"))
                       env w)) \/
  (exists err,
      truthy badge = true /\ truthy pin = true /\ found = inl err /\
      result = (Resolved response_500, w)) \/
  (found = inr None /\
   result = (Resolved response_unknown,
             after_log (attempt false clientIP userAgent (VText "Badge not found")) env w)) \/
  (exists ff,
      found = inr (Some ff) /\ locked ff = true /\
      result = (Resolved response_locked,
                after_log (attempt false clientIP userAgent (VText "Account locked"))
                          env w)) \/
  (exists ff,
      found = inr (Some ff) /\ locked ff = false /\ truthy pin = true /\
      ((forall p, pin <> JString p) \/ (forall h, field ff "pin_hash" <> VText h)) /\
      result = (Rejected BcryptArguments, w)) \/
  (exists ff p h,
      found = inr (Some ff) /\ locked ff = false /\
      pin = JString p /\ field ff "pin_hash" = VText h /\
      bcrypt_compare p h = true /\
      (perform (reset_attempts (bound badge)) env (store w)).1 = None /\
      result = (Resolved (mkResponse 200 (SuccessBody (delete "pin_hash" ff))),
                after_log (attempt true clientIP userAgent VNull) env
                  (after_run (reset_attempts (bound badge)) env w))) \/
  (exists ff p h,
      found = inr (Some ff) /\ locked ff = false /\
      pin = JString p /\ field ff "pin_hash" = VText h /\
      bcrypt_compare p h = false /\
      let failedAttempts := js_plus_one (js_or (field ff "failed_attempts") (VNum 0)) in
      let shouldLock := js_ge js_number failedAttempts 5 in
      let update := record_failure failedAttempts (js_now env) shouldLock (bound badge) in
      (perform update env (store w)).1 = None /\
      result = (Resolved (if shouldLock then response_now_locked else response_invalid_pin),
                after_log (attempt false clientIP userAgent (VText "Invalid PIN")) env
                  (after_run update env w))) \/
  (exists ff sets err,
      found = inr (Some ff) /\ locked ff = false /\
      ("badge" ∉ sets.*1) /\ ("pin_hash" ∉ sets.*1) /\
      (forall c, c ∈ sets.*1 ->
                 c ∈ ["failed_attempts"; "last_failed_attempt"; "account_locked"]) /\
      let update := UpdateSetWhere "firefighters" sets "badge" (bound badge) in
      (perform update env (store w)).1 = Some err /\
      result = (Crashed err, after_run update env w)).
Proof.
  intros result found attempt. subst result found attempt.
  destruct (truthy badge) eqn:Hb; [|left; split; [auto|apply path_missing; auto]].
  destruct (truthy pin) eqn:Hp; [|left; split; [auto|apply path_missing; auto]].
  right.
  destruct (fetch (lookup_firefighter (bound badge)) env (store w)) as [err|[ff|]] eqn:Hf.
  - left. exists err. rewrite (path_lookup_error _ _ _ _ _ _ _ _ Hb Hp err Hf). auto.
  - do 2 right. destruct (locked ff) eqn:Hl.
    { left. exists ff. rewrite (path_locked _ _ _ _ _ _ _ _ Hb Hp ff Hf Hl). auto. }
    right.
    assert (Hrej : (forall p, pin <> JString p) \/
                   (forall h, field ff "pin_hash" <> VText h) ->
                   authenticate bcrypt_compare js_number badge pin clientIP userAgent env w
                   = (Rejected BcryptArguments, w))
      by (intros H; exact (path_no_hash _ _ _ _ _ _ _ _ Hb Hp ff Hf Hl H)).
    destruct pin as [p| |t s] eqn:Hpin;
      try (left; exists ff; rewrite Hrej by (left; intros; discriminate);
           repeat split; auto; left; intros; discriminate).
    destruct (field ff "pin_hash") as [| |h] eqn:Hh;
      try (left; exists ff; rewrite Hrej by (right; intros; discriminate);
           repeat split; auto; right; intros h' E; rewrite Hh in E; discriminate E).
    right.
    destruct (bcrypt_compare p h) eqn:Hc.
    + destruct (perform (reset_attempts (bound badge)) env (store w)).1 as [err|] eqn:Hu.
      * do 2 right. eexists ff, _, err.
        rewrite (path_success_crash _ _ _ _ _ _ _ _ Hb Hp ff Hf p h eq_refl Hh err Hl Hc Hu).
        repeat split; auto; try (apply badge_not_set; reflexivity);
          try (intros c Hin; simpl in Hin; rewrite !elem_of_cons in *; tauto).
      * left. exists ff, p, h.
        rewrite (path_success _ _ _ _ _ _ _ _ Hb Hp ff Hf p h eq_refl Hh Hl Hc Hu).
        repeat split; auto.
    + right.
      pose proof (path_failure _ js_number _ _ clientIP userAgent _ _ Hb Hp ff Hf p h
                    eq_refl Hh Hl Hc) as E.
      pose proof (fun err => path_failure_crash _ js_number _ _ clientIP userAgent _ _
                    Hb Hp ff Hf p h eq_refl Hh err Hl Hc) as E'.
      cbv zeta in E, E'.
      destruct (perform (record_failure
                           (js_plus_one (js_or (field ff "failed_attempts") (VNum 0)))
                           (js_now env)
                           (js_ge js_number
                              (js_plus_one (js_or (field ff "failed_attempts") (VNum 0))) 5)
                           (bound badge)) env (store w)).1 as [err|] eqn:Hu.
      * right. eexists ff, _, err. rewrite (E' err eq_refl).
        repeat split; auto; try (apply badge_not_set; reflexivity);
          try (intros c Hin; simpl in Hin; rewrite !elem_of_cons in *; tauto).
      * left. exists ff, p, h. rewrite (E eq_refl). cbv zeta. rewrite Hu.
        repeat split; auto.
  - right. left. rewrite (path_unknown _ _ _ _ _ _ _ _ Hb Hp Hf). auto.
Qed.

(** ** Successful verification *)

Lemma success_body_only_on_success
    (bcrypt_compare : string -> string -> bool) (js_number : string -> option Z)
    (badge pin : Json) (clientIP userAgent : Value) (env : Env) (w w' : World)
    (response : Response) (r : Row) :
  authenticate bcrypt_compare js_number badge pin clientIP userAgent env w
    = (Resolved response, w') ->
  body response = SuccessBody r ->
  r !! "pin_hash" = None.
Proof.
  intros Hrun Hbody.
  pose proof (authenticate_cases bcrypt_compare js_number badge pin clientIP userAgent
                env w) as H.
  cbv zeta in H.
  destruct H
    as [[_ E]|[(err & _ & _ & _ & E)|[[_ E]|[(ff & _ & _ & E)|[(ff & _ & _ & _ & _ & E)|
        [(ff & p & h & _ & _ & _ & _ & _ & _ & E)|[(ff & p & h & _ & _ & _ & _ & _ & _ & E)|
        (ff & sets & err & _ & _ & _ & _ & _ & _ & E)]]]]]]];
    rewrite E in Hrun; inversion Hrun; subst; try discriminate.
  - simpl in Hbody. inversion Hbody; subst. apply lookup_delete_eq.
  - destruct (js_ge js_number _ 5); discriminate.
Qed.

(** C4. On an unlocked record whose PIN verifies, in a call in which no
    storage operation fails, the stored failed-attempt counter is reset
    to 0 and the last-failure timestamp is cleared; the response carries
    the record that was read with the [pin_hash] property removed and
    every other property kept; and no response of the route whose body
    is a success body has a [pin_hash] property. *)
Theorem successful_login_resets_and_strips_hash
    (bcrypt_compare : string -> string -> bool) (js_number : string -> option Z)
    (b p : string) (clientIP userAgent : Value) (env : Env) (w : World)
    (firefighter : Row) (h : string) :
  b <> "" -> p <> "" ->
  no_faults env ->
  has_attempt_columns (store w) = true ->
  stored (store w) (VText b) = Some firefighter ->
  locked firefighter = false ->
  field firefighter "pin_hash" = VText h ->
  bcrypt_compare p h = true ->
  exists (safeFirefighter : Row) (w' : World) (after : Row),
    authenticate bcrypt_compare js_number (JString b) (JString p) clientIP userAgent env w
      = (Resolved (mkResponse 200 (SuccessBody safeFirefighter)), w') /\
    safeFirefighter !! "pin_hash" = None /\
    (forall k, k <> "pin_hash" -> safeFirefighter !! k = firefighter !! k) /\
    stored (store w') (VText b) = Some after /\
    field after "failed_attempts" = VNum 0 /\
    field after "last_failed_attempt" = VNull /\
    (forall k, k ∉ ["failed_attempts"; "last_failed_attempt"] ->
               after !! k = firefighter !! k) /\
    (forall badge' pin' ip' ua' env' v v' response r,
        authenticate bcrypt_compare js_number badge' pin' ip' ua' env' v
          = (Resolved response, v') ->
        body response = SuccessBody r -> r !! "pin_hash" = None).
Proof.
  intros Hb Hp Hnf Hcols Hs Hl Hh Hc.
  destruct (stored_table _ _ _ Hs) as (tb & Htb & Hbadge & _).
  destruct (attempt_columns _ _ Htb Hcols) as (C1 & C2 & C3).
  destruct (after_update env w [("failed_attempts", VNum 0); ("last_failed_attempt", VNull)]
              (VText b) firefighter tb (Hnf _) Htb) as (Hok & Hs' & _ & _).
  { simpl. rewrite Hbadge, C1, C2. reflexivity. }
  { simpl. rewrite !not_elem_of_cons. repeat split; try discriminate. apply not_elem_of_nil. }
  { exact Hs. }
  pose proof (path_success bcrypt_compare js_number (JString b) (JString p) clientIP
                userAgent env w (text_truthy b Hb) (text_truthy p Hp) firefighter
                (fetch_stored _ _ _ _ (Hnf _) Hs) p h eq_refl Hh Hl Hc Hok) as Hpath.
  eexists _, _, _. split; [exact Hpath|].
  split; [apply lookup_delete_eq|].
  split; [intros k Hk; apply lookup_delete_ne; congruence|].
  split.
  { rewrite (stored_same (store (after_run (reset_attempts (VText b)) env w)));
      [exact Hs'|].
    apply after_log_other. discriminate. }
  split.
  { unfold field. simpl. rewrite lookup_insert_ne by discriminate.
    rewrite lookup_insert_eq. reflexivity. }
  split.
  { unfold field. simpl. rewrite lookup_insert_eq. reflexivity. }
  split.
  { intros k Hk. apply set_fields_other. exact Hk. }
  intros. eapply success_body_only_on_success; eassumption.
Qed.

Lemma successful_login_resets_and_strips_hash_witness :
  exists (safeFirefighter : Row) (w' : World) (after : Row),
    authenticate toy_compare toy_number (JString "001") (JString "1234")
      (VText "10.0.0.1") VNull sample_env (sample_world_at 3 0)
      = (Resolved (mkResponse 200 (SuccessBody safeFirefighter)), w') /\
    safeFirefighter !! "pin_hash" = None /\
    stored (store w') (VText "001") = Some after /\
    field after "failed_attempts" = VNum 0 /\
    field after "last_failed_attempt" = VNull.
Proof.
  destruct (successful_login_resets_and_strips_hash toy_compare toy_number "001" "1234"
              (VText "10.0.0.1") VNull sample_env (sample_world_at 3 0)
              (default ∅ (stored (store (sample_world_at 3 0)) (VText "001")))
              "salt$1234")
    as (safe & w' & after & H1 & H2 & _ & H4 & H5 & H6 & _).
  - discriminate.
  - discriminate.
  - intros op. reflexivity.
  - vm_compute. reflexivity.
  - apply found_record. vm_compute. reflexivity.
  - vm_compute. reflexivity.
  - vm_compute. reflexivity.
  - vm_compute. reflexivity.
  - exists safe, w', after. auto.
Defined.

(** ** Missing credentials *)

Lemma after_log_depends (vals : list (string * Value)) (env env' : Env) (w : World) :
  sql_now env' = sql_now env ->
  (forall s, faults env' (Run s) = faults env (Run s)) ->
  after_log vals env' w = after_log vals env w.
Proof.
  intros Hn Hf. unfold after_log, perform. rewrite Hn, Hf. reflexivity.
Qed.

(** C9 (amended). A call with a missing or falsy badge or PIN (absent,
    empty, or any other falsy value) is answered 400 with body
    [{ error: "Badge and PIN are required" }]; the credential records
    are neither read (the answer is the same whether or not a lookup
    would fail) nor changed; and, when no storage operation fails, one
    failed-attempt entry is appended to the log, carrying the badge as
    supplied (NULL when absent) and the reason "Missing badge or PIN". *)
Theorem missing_credentials_fail_fast
    (bcrypt_compare : string -> string -> bool) (js_number : string -> option Z)
    (badge pin : Json) (clientIP userAgent : Value) (env : Env) (w : World) :
  truthy badge = false \/ truthy pin = false ->
  has_schema "auth_logs" auth_logs_cols (store w) = true ->
  no_faults env ->
  exists (w' : World) (entry : Row),
    authenticate bcrypt_compare js_number badge pin clientIP userAgent env w
      = (Resolved (mkResponse 400 (ErrorBody "Badge and PIN are required")), w') /\
    (forall t, t <> "auth_logs" -> store w' !! t = store w !! t) /\
    unhandled w' = unhandled w /\
    auth_logs (store w') = (auth_logs (store w) ++ [entry])%list /\
    field entry "badge" = bound badge /\
    field entry "success" = VNum 0 /\
    field entry "failure_reason" = VText "Missing badge or PIN" /\
    (forall env',
        sql_now env' = sql_now env ->
        (forall s, faults env' (Run s) = faults env (Run s)) ->
        authenticate bcrypt_compare js_number badge pin clientIP userAgent env' w
          = authenticate bcrypt_compare js_number badge pin clientIP userAgent env w).
Proof.
  intros Hmiss Hs Hnf.
  rewrite (path_missing _ _ _ _ _ _ env w Hmiss).
  destruct (after_log_appends env w (bound badge) false clientIP userAgent
              (VText "Missing badge or PIN") Hs (Hnf _)) as [Hlog _].
  pose proof (log_entry_fields (sql_now env) (auth_logs (store w))
                (seq_of "auth_logs" (store w)) (bound badge) false
                clientIP userAgent (VText "Missing badge or PIN")) as F.
  cbv zeta in F. destruct F as (F1 & F2 & F3 & _).
  eexists _, _. split; [reflexivity|].
  split; [intros t Ht; apply after_log_other; exact Ht|].
  split; [reflexivity|].
  split; [exact Hlog|].
  split; [exact F1|]. split; [exact F2|]. split; [exact F3|].
  intros env' Hn Hf. rewrite (path_missing _ _ _ _ _ _ env' w Hmiss).
  rewrite (after_log_depends _ env env' w Hn Hf). reflexivity.
Qed.

Lemma missing_credentials_fail_fast_witness :
  exists (w' : World) (entry : Row),
    authenticate toy_compare toy_number (JString "") (JString "1234")
      (VText "10.0.0.1") VNull sample_env sample_world
      = (Resolved (mkResponse 400 (ErrorBody "Badge and PIN are required")), w') /\
    auth_logs (store w') = (auth_logs (store sample_world) ++ [entry])%list /\
    field entry "badge" = VText "" /\
    field entry "success" = VNum 0 /\
    field entry "failure_reason" = VText "Missing badge or PIN".
Proof.
  destruct (missing_credentials_fail_fast toy_compare toy_number (JString "")
              (JString "1234") (VText "10.0.0.1") VNull sample_env sample_world)
    as (w' & entry & H1 & _ & _ & H4 & H5 & H6 & H7 & _).
  - left. reflexivity.
  - vm_compute. reflexivity.
  - intros op. reflexivity.
  - exists w', entry. auto.
Defined.

(** The entry logged for missing credentials does not carry the reason
    "missing credentials". *)
Lemma missing_credentials_reason_counterexample :
  let w' := (authenticate toy_compare toy_number JNothing (JString "1234")
               (VText "10.0.0.1") VNull sample_env sample_world).2 in
  (exists entry, auth_logs (store w') = [entry] /\
                 field entry "failure_reason" = VText "Missing badge or PIN") /\
  ~ (exists entry, auth_logs (store w') = (auth_logs (store sample_world) ++ [entry])%list /\
                   field entry "failure_reason" = VText "missing credentials").
Proof.
  assert (F : forallb (fun e => bool_decide (field e "failure_reason"
                                               = VText "Missing badge or PIN"))
                (auth_logs (store (authenticate toy_compare toy_number JNothing
                                     (JString "1234") (VText "10.0.0.1") VNull sample_env
                                     sample_world).2))
              = true) by (vm_compute; reflexivity).
  assert (L : length (auth_logs (store (authenticate toy_compare toy_number JNothing
                                          (JString "1234") (VText "10.0.0.1") VNull
                                          sample_env sample_world).2))
              = 1%nat) by (vm_compute; reflexivity).
  rewrite forallb_forall in F. cbv zeta. split.
  - destruct (one_element _ L) as [entry E]. exists entry. split; [exact E|].
    assert (Hf := F entry). rewrite E in Hf. specialize (Hf (or_introl eq_refl)).
    apply bool_decide_eq_true in Hf. exact Hf.
  - intros (entry & H1 & H2).
    assert (Hin : In entry (auth_logs (store (authenticate toy_compare toy_number JNothing
                     (JString "1234") (VText "10.0.0.1") VNull sample_env sample_world).2)))
      by (rewrite H1; apply in_or_app; right; left; reflexivity).
    apply F, bool_decide_eq_true in Hin. rewrite H2 in Hin. discriminate.
Qed.

(** ** Locked accounts *)

(** C3 (amended). On a record whose lock flag is set, in a call in which
    no storage operation fails, the route answers 423 with the locked
    message without consulting [bcrypt.compare] (whatever the PIN, a
    string or not, and whatever the comparison would say), leaves the
    record and every table but the log as they were, and appends one
    failed-attempt entry with the reason "Account locked". *)
Theorem locked_account_is_refused
    (bcrypt_compare : string -> string -> bool) (js_number : string -> option Z)
    (b : string) (pin : Json) (clientIP userAgent : Value) (env : Env) (w : World)
    (firefighter : Row) :
  b <> "" -> truthy pin = true ->
  no_faults env ->
  has_schema "auth_logs" auth_logs_cols (store w) = true ->
  stored (store w) (VText b) = Some firefighter ->
  locked firefighter = true ->
  exists (w' : World) (entry : Row),
    authenticate bcrypt_compare js_number (JString b) pin clientIP userAgent env w
      = (Resolved (mkResponse 423 (ErrorBody "Account is locked. Contact administrator.")),
         w') /\
    (forall t, t <> "auth_logs" -> store w' !! t = store w !! t) /\
    stored (store w') (VText b) = Some firefighter /\
    unhandled w' = unhandled w /\
    auth_logs (store w') = (auth_logs (store w) ++ [entry])%list /\
    field entry "badge" = VText b /\
    field entry "success" = VNum 0 /\
    field entry "failure_reason" = VText "Account locked".
Proof.
  intros Hb Hp Hnf Hs Hst Hl.
  rewrite (path_locked bcrypt_compare js_number (JString b) pin clientIP userAgent env w
             (text_truthy b Hb) Hp firefighter
             (fetch_stored _ _ _ _ (Hnf _) Hst) Hl).
  destruct (after_log_appends env w (VText b) false clientIP userAgent
              (VText "Account locked") Hs (Hnf _)) as [Hlog _].
  pose proof (log_entry_fields (sql_now env) (auth_logs (store w))
                (seq_of "auth_logs" (store w)) (VText b) false
                clientIP userAgent (VText "Account locked")) as F.
  cbv zeta in F. destruct F as (F1 & F2 & F3 & _).
  eexists _, _. split; [reflexivity|].
  split; [intros t Ht; apply after_log_other; exact Ht|].
  split.
  { rewrite (stored_same (store w)); [exact Hst|]. apply after_log_other. discriminate. }
  split; [reflexivity|].
  split; [exact Hlog|]. auto.
Qed.

Lemma locked_account_is_refused_witness :
  exists (w' : World) (entry : Row),
    authenticate toy_compare toy_number (JString "001") (JString "1234")
      (VText "10.0.0.1") VNull sample_env (sample_world_at 5 1)
      = (Resolved (mkResponse 423 (ErrorBody "Account is locked. Contact administrator.")),
         w') /\
    stored (store w') (VText "001") = stored (store (sample_world_at 5 1)) (VText "001") /\
    auth_logs (store w') = (auth_logs (store (sample_world_at 5 1)) ++ [entry])%list /\
    field entry "failure_reason" = VText "Account locked".
Proof.
  destruct (locked_account_is_refused toy_compare toy_number "001" (JString "1234")
              (VText "10.0.0.1") VNull sample_env (sample_world_at 5 1)
              (default ∅ (stored (store (sample_world_at 5 1)) (VText "001"))))
    as (w' & entry & H1 & _ & H3 & _ & H5 & _ & _ & H8).
  - discriminate.
  - reflexivity.
  - intros op. reflexivity.
  - vm_compute. reflexivity.
  - apply found_record. vm_compute. reflexivity.
  - vm_compute. reflexivity.
  - exists w', entry. split; [exact H1|]. split; [|split; [exact H5|exact H8]].
    rewrite H3. symmetry. apply found_record. vm_compute. reflexivity.
Defined.

(** The entry logged for a locked account carries the reason
    "Account locked", not "account locked". *)
Lemma locked_reason_counterexample :
  let w := sample_world_at 5 1 in
  let w' := (authenticate toy_compare toy_number (JString "001") (JString "1234")
               (VText "10.0.0.1") VNull sample_env w).2 in
  (exists entry, auth_logs (store w') = [entry] /\
                 field entry "failure_reason" = VText "Account locked") /\
  ~ (exists entry, auth_logs (store w') = (auth_logs (store w) ++ [entry])%list /\
                   field entry "failure_reason" = VText "account locked").
Proof.
  assert (F : forallb (fun e => bool_decide (field e "failure_reason"
                                               = VText "Account locked"))
                (auth_logs (store (authenticate toy_compare toy_number (JString "001")
                                     (JString "1234") (VText "10.0.0.1") VNull sample_env
                                     (sample_world_at 5 1)).2))
              = true) by (vm_compute; reflexivity).
  assert (L : length (auth_logs (store (authenticate toy_compare toy_number (JString "001")
                                          (JString "1234") (VText "10.0.0.1") VNull
                                          sample_env (sample_world_at 5 1)).2))
              = 1%nat) by (vm_compute; reflexivity).
  rewrite forallb_forall in F. cbv zeta. split.
  - destruct (one_element _ L) as [entry E]. exists entry. split; [exact E|].
    assert (Hf := F entry). rewrite E in Hf. specialize (Hf (or_introl eq_refl)).
    apply bool_decide_eq_true in Hf. exact Hf.
  - intros (entry & H1 & H2).
    assert (Hin : In entry (auth_logs (store (authenticate toy_compare toy_number
                     (JString "001") (JString "1234") (VText "10.0.0.1") VNull sample_env
                     (sample_world_at 5 1)).2)))
      by (rewrite H1; apply in_or_app; right; left; reflexivity).
    apply F, bool_decide_eq_true in Hin. rewrite H2 in Hin. discriminate.
Qed.

(** ** Storage error in the lookup *)

Lemma app_one_neq {A : Type} (l : list A) (x : A) : (l ++ [x])%list <> l.
Proof.
  intros H. apply (f_equal length) in H. rewrite length_app in H. simpl in H. lia.
Qed.

Lemma after_run_logs (s : Stmt) (env : Env) (w : World) :
  target s <> "auth_logs" ->
  auth_logs (store (after_run s env w)) = auth_logs (store w) /\
  has_schema "auth_logs" auth_logs_cols (store (after_run s env w))
    = has_schema "auth_logs" auth_logs_cols (store w).
Proof.
  intros H.
  assert (E : store (after_run s env w) !! "auth_logs" = store w !! "auth_logs")
    by (apply after_run_other; congruence).
  split; [apply auth_logs_same | apply has_schema_same]; exact E.
Qed.

(** A call that is answered, on a store with the migrated log table and
    with a working INSERT into it, has appended one entry for its badge
    unless its lookup failed. *)
Lemma answered_call_is_logged
    (bcrypt_compare : string -> string -> bool) (js_number : string -> option Z)
    (badge pin : Json) (clientIP userAgent : Value) (env : Env) (w w' : World)
    (response : Response) :
  has_schema "auth_logs" auth_logs_cols (store w) = true ->
  (forall vals, faults env (Run (InsertInto "auth_logs" vals)) = false) ->
  authenticate bcrypt_compare js_number badge pin clientIP userAgent env w
    = (Resolved response, w') ->
  (response = response_500 /\ w' = w /\
   exists err, fetch (lookup_firefighter (bound badge)) env (store w) = inl err) \/
  (exists entry,
      auth_logs (store w') = (auth_logs (store w) ++ [entry])%list /\
      field entry "badge" = bound badge /\
      has_schema "auth_logs" auth_logs_cols (store w') = true).
Proof.
  intros Hs Hnf Hrun.
  assert (Hlog : forall success reason u,
             auth_logs (store u) = auth_logs (store w) ->
             has_schema "auth_logs" auth_logs_cols (store u) = true ->
             exists entry,
               auth_logs (store (after_log (attempt_values (bound badge) success clientIP
                                              userAgent reason) env u))
                 = (auth_logs (store w) ++ [entry])%list /\
               field entry "badge" = bound badge /\
               has_schema "auth_logs" auth_logs_cols
                 (store (after_log (attempt_values (bound badge) success clientIP
                                      userAgent reason) env u)) = true).
  { intros su reason u E1 E2.
    destruct (after_log_appends env u (bound badge) su clientIP userAgent reason E2 (Hnf _))
      as [Happ Hs'].
    pose proof (log_entry_fields (sql_now env) (auth_logs (store u))
                  (seq_of "auth_logs" (store u)) (bound badge) su
                  clientIP userAgent reason) as F.
    cbv zeta in F. destruct F as (F1 & _).
    eexists. split; [rewrite Happ, E1; reflexivity|]. split; [exact F1|exact Hs']. }
  assert (Hupd : forall s, target s <> "auth_logs" ->
             auth_logs (store (after_run s env w)) = auth_logs (store w) /\
             has_schema "auth_logs" auth_logs_cols (store (after_run s env w)) = true).
  { intros s Ht. destruct (after_run_logs s env w Ht) as [E1 E2]. rewrite E1, E2. auto. }
  pose proof (authenticate_cases bcrypt_compare js_number badge pin clientIP userAgent
                env w) as H.
  cbv zeta in H.
  destruct H
    as [[_ E]|[(err & _ & _ & He & E)|[[_ E]|[(ff & _ & _ & E)|[(ff & _ & _ & _ & _ & E)|
        [(ff & p & h & _ & _ & _ & _ & _ & _ & E)|[(ff & p & h & _ & _ & _ & _ & _ & _ & E)|
        (ff & sets & err & _ & _ & _ & _ & _ & _ & E)]]]]]]];
    rewrite E in Hrun; inversion Hrun; subst; clear Hrun.
  - right. apply Hlog; auto.
  - left. eauto.
  - right. apply Hlog; auto.
  - right. apply Hlog; auto.
  - right. apply Hlog; apply Hupd; discriminate.
  - right. apply Hlog; apply Hupd; discriminate.
Qed.

(** C10 (amended). When the lookup of the record returns an error, the
    route answers 500 with "Internal server error" and leaves the whole
    store as it was: no log entry, no change to any record. On a store
    with the migrated log table and with no INSERT into the log failing,
    it is the only answer that leaves the log as it was: every call that
    is answered and leaves the log unchanged took this path. *)
Theorem lookup_error_is_internal_error
    (bcrypt_compare : string -> string -> bool) (js_number : string -> option Z)
    (badge pin : Json) (clientIP userAgent : Value) (env : Env) (w : World)
    (err : Error) :
  truthy badge = true ->
  truthy pin = true ->
  fetch (lookup_firefighter (bound badge)) env (store w) = inl err ->
  authenticate bcrypt_compare js_number badge pin clientIP userAgent env w
    = (Resolved (mkResponse 500 (ErrorBody "Internal server error")), w) /\
  (forall badge' pin' ip' ua' env' v v' response,
      has_schema "auth_logs" auth_logs_cols (store v) = true ->
      (forall vals, faults env' (Run (InsertInto "auth_logs" vals)) = false) ->
      authenticate bcrypt_compare js_number badge' pin' ip' ua' env' v
        = (Resolved response, v') ->
      auth_logs (store v') = auth_logs (store v) ->
      response = mkResponse 500 (ErrorBody "Internal server error") /\
      exists err', fetch (lookup_firefighter (bound badge')) env' (store v) = inl err').
Proof.
  intros Hb Hp Hf. split.
  - exact (path_lookup_error _ _ _ _ _ _ _ _ Hb Hp err Hf).
  - intros badge' pin' ip' ua' env' v v' response Hs Hnf Hrun Hsame.
    destruct (answered_call_is_logged _ _ _ _ _ _ _ _ _ _ Hs Hnf Hrun)
      as [(-> & _ & He)|(entry & Hlog & _)]; [auto|].
    exfalso. rewrite Hlog in Hsame. exact (app_one_neq _ _ Hsame).
Qed.

Lemma lookup_error_is_internal_error_witness :
  authenticate toy_compare toy_number (JString "001") (JString "1234")
    (VText "10.0.0.1") VNull broken_lookup_env sample_world
    = (Resolved (mkResponse 500 (ErrorBody "Internal server error")), sample_world).
Proof.
  apply (lookup_error_is_internal_error toy_compare toy_number (JString "001")
           (JString "1234") (VText "10.0.0.1") VNull broken_lookup_env sample_world
           StorageFault).
  - reflexivity.
  - reflexivity.
  - reflexivity.
Defined.

(** The lookup-error path is not the only one that leaves the log as it
    was. With the INSERT into the log failing, the call of an unknown
    badge is answered 401 without an entry, its lookup having found
    nothing; and with a working log, a PIN sent as a number against an
    unlocked record ends the call in [bcrypt.compare], unanswered and
    without an entry. *)
Lemma log_unchanged_counterexample :
  let unknown := authenticate toy_compare toy_number (JString "999") (JString "1234")
                   (VText "10.0.0.1") VNull broken_log_env sample_world in
  let numeric := authenticate toy_compare toy_number (JString "001") (JOther true "1234")
                   (VText "10.0.0.1") VNull sample_env sample_world in
  (unknown.1 = Resolved (mkResponse 401 (ErrorBody "Invalid badge number")) /\
   auth_logs (store unknown.2) = auth_logs (store sample_world) /\
   fetch (lookup_firefighter (VText "999")) broken_log_env (store sample_world)
     = inr None) /\
  (numeric.1 = Rejected BcryptArguments /\
   auth_logs (store numeric.2) = auth_logs (store sample_world) /\
   exists firefighter,
     fetch (lookup_firefighter (VText "001")) sample_env (store sample_world)
       = inr (Some firefighter)).
Proof.
  cbv zeta. split; [split; [|split]|split; [|split]].
  - vm_compute. reflexivity.
  - vm_compute. reflexivity.
  - vm_compute. reflexivity.
  - vm_compute. reflexivity.
  - vm_compute. reflexivity.
  - exists (default ∅ (stored (store sample_world) (VText "001"))).
    apply fetch_stored; [reflexivity|]. apply found_record. vm_compute. reflexivity.
Qed.

(** ** One log entry per call *)











(** X8. The scenario of the specification on badge 001: a correct PIN is
    answered 200; of five wrong PINs the first four are answered 401 and
    the fifth 423; a correct PIN is then answered 423, and the counter
    stays at 5. *)
Example lockout_scenario :
  let calls := removelast sample_calls in
  (fun result => match result with
                 | Resolved response => status response
                 | _ => 0
                 end)
    <$> call_results toy_compare toy_number (JString "001") calls sample_world
    = [200; 401; 401; 401; 401; 423; 423] /\
  (fun r => (field r "failed_attempts", field r "account_locked"))
    <$> stored (store (run_calls toy_compare toy_number (JString "001") calls sample_world))
               (VText "001")
    = Some (VNum 5, VNum 1).
Proof. split; vm_compute; reflexivity. Qed.

(** ** Failure of the log insert *)

Section LogFailure.

Variables env env' : Env.
Hypothesis agree : same_but_log env env'.
Hypothesis log_fails : forall vals, faults env (Run (InsertInto "auth_logs" vals)) = true.

Lemma fetch_agrees (q : Query) (db : Store) : fetch q env' db = fetch q env db.
Proof.
  destruct agree as (_ & _ & Hf). unfold fetch. rewrite (Hf (Get q)); reflexivity.
Qed.

Lemma perform_agrees (sets : list (string * Value)) (b : Value) (db : Store) :
  perform (UpdateSetWhere "firefighters" sets "badge" b) env' db =
  perform (UpdateSetWhere "firefighters" sets "badge" b) env db.
Proof.
  destruct agree as (Hn & _ & Hf). unfold perform.
  rewrite Hn, (Hf (Run _)); reflexivity.
Qed.

Lemma after_run_agrees (sets : list (string * Value)) (b : Value) (w : World) :
  after_run (UpdateSetWhere "firefighters" sets "badge" b) env' w =
  after_run (UpdateSetWhere "firefighters" sets "badge" b) env w.
Proof.
  unfold after_run, db_run. rewrite perform_agrees. reflexivity.
Qed.

Lemma after_failed_log (vals : list (string * Value)) (v : World) :
  store (after_log vals env v) = store v /\
  unhandled (after_log vals env v) = unhandled (after_log vals env' v) /\
  (forall t, t <> "auth_logs" ->
             store (after_log vals env v) !! t = store (after_log vals env' v) !! t).
Proof.
  split; [|split].
  - unfold after_log, perform. rewrite log_fails. reflexivity.
  - reflexivity.
  - intros t Ht. rewrite !after_log_other by exact Ht. reflexivity.
Qed.

(** The two calls after their log inserts, from the same world. *)
Lemma after_logs_compared (vals : list (string * Value)) (w u : World) :
  store u !! "auth_logs" = store w !! "auth_logs" ->
  store (after_log vals env u) !! "auth_logs" = store w !! "auth_logs" /\
  (forall t, t <> "auth_logs" ->
             store (after_log vals env u) !! t = store (after_log vals env' u) !! t) /\
  unhandled (after_log vals env u) = unhandled (after_log vals env' u).
Proof.
  intros Hu. destruct (after_failed_log vals u) as (E1 & E2 & E3).
  split; [rewrite E1; exact Hu|]. split; [exact E3|exact E2].
Qed.

End LogFailure.

(** C8 (amended). When the INSERT of the attempt log fails, the failure
    is ignored: the call settles exactly as the same call does with a
    working log (same response, same status), makes the same changes to
    every other table, and leaves the log without an entry for it. *)
Theorem failed_log_insert_is_ignored
    (bcrypt_compare : string -> string -> bool) (js_number : string -> option Z)
    (badge pin : Json) (clientIP userAgent : Value) (env env' : Env) (w : World) :
  same_but_log env env' ->
  (forall vals, faults env (Run (InsertInto "auth_logs" vals)) = true) ->
  let failing :=
    authenticate bcrypt_compare js_number badge pin clientIP userAgent env w in
  let reference :=
    authenticate bcrypt_compare js_number badge pin clientIP userAgent env' w in
  failing.1 = reference.1 /\
  store failing.2 !! "auth_logs" = store w !! "auth_logs" /\
  (forall t, t <> "auth_logs" -> store failing.2 !! t = store reference.2 !! t) /\
  unhandled failing.2 = unhandled reference.2.
Proof.
  intros Hag Hlf failing reference. subst failing reference.
  assert (Hjs : js_now env' = js_now env) by (destruct Hag as (_ & H & _); exact H).
  assert (Hlog : forall (response : Response) vals u,
             store u !! "auth_logs" = store w !! "auth_logs" ->
             (Resolved response, after_log vals env u).1
               = (Resolved response, after_log vals env' u).1 /\
             store (Resolved response, after_log vals env u).2 !! "auth_logs"
               = store w !! "auth_logs" /\
             (forall t, t <> "auth_logs" ->
                        store (Resolved response, after_log vals env u).2 !! t
                        = store (Resolved response, after_log vals env' u).2 !! t) /\
             unhandled (Resolved response, after_log vals env u).2
               = unhandled (Resolved response, after_log vals env' u).2).
  { intros response vals u Hu. cbn [fst snd]. split; [reflexivity|].
    apply (after_logs_compared env env' Hlf vals w u Hu). }
  destruct (truthy badge) eqn:Hb;
    [|rewrite !path_missing by auto; apply Hlog; reflexivity].
  destruct (truthy pin) eqn:Hp;
    [|rewrite !path_missing by auto; apply Hlog; reflexivity].
  destruct (fetch (lookup_firefighter (bound badge)) env (store w)) as [err|[ff|]] eqn:Hf;
    pose proof Hf as Hf'; rewrite <- (fetch_agrees env env' Hag) in Hf'.
  - rewrite (path_lookup_error _ _ _ _ _ _ env w Hb Hp err Hf).
    rewrite (path_lookup_error _ _ _ _ _ _ env' w Hb Hp err Hf'). auto.
  - destruct (locked ff) eqn:Hl.
    { rewrite (path_locked _ _ _ _ _ _ env w Hb Hp ff Hf Hl).
      rewrite (path_locked _ _ _ _ _ _ env' w Hb Hp ff Hf' Hl).
      apply Hlog; reflexivity. }
    assert (Hrej : (forall p, pin <> JString p) \/
                   (forall h, field ff "pin_hash" <> VText h) ->
                   authenticate bcrypt_compare js_number badge pin clientIP userAgent env w
                   = (Rejected BcryptArguments, w) /\
                   authenticate bcrypt_compare js_number badge pin clientIP userAgent env' w
                   = (Rejected BcryptArguments, w)).
    { intros H. split.
      - exact (path_no_hash _ _ _ _ _ _ env w Hb Hp ff Hf Hl H).
      - exact (path_no_hash _ _ _ _ _ _ env' w Hb Hp ff Hf' Hl H). }
    destruct pin as [p| |t s] eqn:Hpin; [|discriminate Hp|].
    2:{ assert (R : forall p0, JOther t s <> JString p0) by (intros p0 E; discriminate E).
        destruct (Hrej (or_introl R)) as [-> ->]. auto. }
    destruct (field ff "pin_hash") as [| |h] eqn:Hh.
    1:{ assert (R : forall h0, VNull <> VText h0) by (intros h0 E; discriminate E).
        destruct (Hrej (or_intror R)) as [-> ->]. auto. }
    1:{ assert (R : forall h0, VNum n <> VText h0) by (intros h0 E; discriminate E).
        destruct (Hrej (or_intror R)) as [-> ->]. auto. }
    clear Hrej.
    destruct (bcrypt_compare p h) eqn:Hc.
    + destruct (perform (reset_attempts (bound badge)) env (store w)).1 as [err|] eqn:Hu;
        pose proof Hu as Hu'; unfold reset_attempts in Hu';
        rewrite <- (perform_agrees env env' Hag) in Hu'.
      * rewrite (path_success_crash _ _ _ _ _ _ env w Hb Hp ff Hf p h eq_refl Hh err Hl Hc Hu).
        rewrite (path_success_crash _ _ _ _ _ _ env' w Hb Hp ff Hf' p h eq_refl Hh err Hl Hc
                   Hu').
        unfold reset_attempts. rewrite (after_run_agrees env env' Hag). cbn [fst snd].
        split; [reflexivity|]. split; [apply after_run_other; discriminate|auto].
      * rewrite (path_success _ _ _ _ _ _ env w Hb Hp ff Hf p h eq_refl Hh Hl Hc Hu).
        rewrite (path_success _ _ _ _ _ _ env' w Hb Hp ff Hf' p h eq_refl Hh Hl Hc Hu').
        unfold reset_attempts. rewrite (after_run_agrees env env' Hag).
        apply Hlog. apply after_run_other. discriminate.
    + pose proof (path_failure _ js_number _ _ clientIP userAgent env w Hb Hp ff Hf p h
                    eq_refl Hh Hl Hc) as E.
      pose proof (path_failure _ js_number _ _ clientIP userAgent env' w Hb Hp ff Hf' p h
                    eq_refl Hh Hl Hc) as E'.
      pose proof (fun err => path_failure_crash _ js_number _ _ clientIP userAgent env w
                    Hb Hp ff Hf p h eq_refl Hh err Hl Hc) as C.
      pose proof (fun err => path_failure_crash _ js_number _ _ clientIP userAgent env' w
                    Hb Hp ff Hf' p h eq_refl Hh err Hl Hc) as C'.
      cbv zeta in E, E', C, C'. rewrite Hjs in E', C'. unfold record_failure in E, E', C, C'.
      rewrite (perform_agrees env env' Hag) in E', C'.
      rewrite (after_run_agrees env env' Hag) in E', C'.
      match type of E with
      | (perform ?s env (store w)).1 = None -> _ =>
          destruct (perform s env (store w)).1 as [err|] eqn:Hu
      end.
      * rewrite (C err eq_refl), (C' err eq_refl). cbn [fst snd].
        split; [reflexivity|]. split; [apply after_run_other; discriminate|auto].
      * rewrite (E eq_refl), (E' eq_refl).
        apply Hlog. apply after_run_other. discriminate.
  - rewrite (path_unknown _ _ _ _ _ _ env w Hb Hp Hf).
    rewrite (path_unknown _ _ _ _ _ _ env' w Hb Hp Hf').
    apply Hlog; reflexivity.
Qed.

Lemma failed_log_insert_is_ignored_witness :
  let failing := authenticate toy_compare toy_number (JString "001") (JString "1234")
                   (VText "10.0.0.1") VNull broken_log_env sample_world in
  let reference := authenticate toy_compare toy_number (JString "001") (JString "1234")
                     (VText "10.0.0.1") VNull sample_env sample_world in
  failing.1 = reference.1 /\
  store failing.2 !! "auth_logs" = store sample_world !! "auth_logs" /\
  (forall t, t <> "auth_logs" -> store failing.2 !! t = store reference.2 !! t) /\
  unhandled failing.2 = unhandled reference.2.
Proof.
  apply (failed_log_insert_is_ignored toy_compare toy_number (JString "001")
           (JString "1234") (VText "10.0.0.1") VNull broken_log_env sample_env sample_world).
  - split; [reflexivity|]. split; [reflexivity|].
    intros op Hop. destruct op as [s|q]; [|reflexivity].
    destruct s; try reflexivity. simpl in Hop. apply bool_decide_eq_false in Hop.
    simpl. repeat (match goal with
                   | |- context [match ?x with _ => _ end] => destruct x; try reflexivity
                   end).
    destruct Hop. reflexivity.
  - intros vals. reflexivity.
Defined.

(** With the log insert failing, a correct PIN is still answered 200
    with the record, and the log has no entry for the call. *)
Lemma failed_log_insert_counterexample :
  let result := authenticate toy_compare toy_number (JString "001") (JString "1234")
                  (VText "10.0.0.1") VNull broken_log_env sample_world in
  (exists response firefighter,
      result.1 = Resolved response /\
      status response = 200 /\ body response = SuccessBody firefighter) /\
  result.1 <> Resolved (mkResponse 500 (ErrorBody "Internal server error")) /\
  auth_logs (store result.2) = [].
Proof.
  intros result.
  assert (T : match result.1 with
              | Resolved r =>
                  (status r =? 200) &&
                  match body r with SuccessBody _ => true | ErrorBody _ => false end
              | _ => false
              end = true) by (vm_compute; reflexivity).
  split; [|split].
  - destruct result.1 as [r|e|e]; [|discriminate T|discriminate T].
    apply andb_true_iff in T as [A B]. apply Z.eqb_eq in A.
    destruct (body r) as [e|ff] eqn:Hb; [discriminate B|].
    exists r, ff. auto.
  - intros E. rewrite E in T. clear E. discriminate T.
  - vm_compute. reflexivity.
Qed.

(** ** Reasoning about asynchronous code *)

Lemma ensures_resolve {A : Type} (env : Env) (P Q : World -> Prop) (a : A) :
  (forall w, P w -> Q w) -> ensures env P (resolve a) Q.
Proof. intros H w HP. apply H, HP. Qed.

Lemma ensures_await {A B : Type} (env : Env) (P I Q : World -> Prop)
    (m : Async A) (k : A -> Async B) :
  ensures env P m I ->
  (forall w, I w -> Q w) ->
  (forall a, ensures env I (k a) Q) ->
  ensures env P (await m k) Q.
Proof.
  intros Hm HIQ Hk w HP. specialize (Hm w HP). unfold await.
  destruct (m env w) as [[a|e|e] w']; simpl in *; [apply Hk, Hm|apply HIQ, Hm..].
Qed.

Lemma ensures_weaken {A : Type} (env : Env) (P P' Q Q' : World -> Prop) (m : Async A) :
  ensures env P' m Q' ->
  (forall w, P w -> P' w) -> (forall w, Q' w -> Q w) ->
  ensures env P m Q.
Proof. intros H HP HQ w Hw. apply HQ, H, HP, Hw. Qed.

Lemma ensures_when (env : Env) (I : World -> Prop) (b : bool) (m : Async unit) :
  ensures env I m I -> ensures env I (when b m) I.
Proof. intros H. destruct b; [exact H|]. apply ensures_resolve. auto. Qed.

Lemma ensures_for_of {A : Type} (env : Env) (I : World -> Prop) (l : list A)
    (body : A -> Async unit) :
  (forall x, x ∈ l -> ensures env I (body x) I) ->
  ensures env I (for_of l body) I.
Proof.
  induction l as [|x l IH]; intros H; simpl.
  - apply ensures_resolve. auto.
  - apply (ensures_await env I I I); [apply H; left|auto|].
    intros _. apply IH. intros y Hy. apply H. right. exact Hy.
Qed.

(** What a statement does to the store carries over to the three ways
    of issuing it. *)
Lemma ensures_db_run (env : Env) (P Q : World -> Prop) (s : Stmt) :
  (forall w u, P w -> Q (mkWorld (perform s env (store w)).2 u)) ->
  ensures env P (db_run s) Q.
Proof.
  intros H w HP. unfold db_run.
  specialize (H w). destruct (perform s env (store w)) as [[e|] db]; apply H, HP.
Qed.

Lemma ensures_db_run_checked (env : Env) (P Q : World -> Prop) (s : Stmt) :
  (forall w u, P w -> Q (mkWorld (perform s env (store w)).2 u)) ->
  ensures env P (db_run_checked s) Q.
Proof.
  intros H w HP. unfold db_run_checked.
  specialize (H w). destruct (perform s env (store w)) as [[e|] db]; apply H, HP.
Qed.

Lemma ensures_db_run_ignoring (env : Env) (P Q : World -> Prop) (s : Stmt) :
  (forall w u, P w -> Q (mkWorld (perform s env (store w)).2 u)) ->
  ensures env P (db_run_ignoring s) Q.
Proof. intros H w HP. apply H, HP. Qed.

(** ** The migration steps and the version table *)

Lemma keeps_other_table (env : Env) (t : string) (tb : option Table) (s : Stmt) :
  t <> target s ->
  forall w u, table_is t tb w -> table_is t tb (mkWorld (perform s env (store w)).2 u).
Proof.
  intros Hne w u H. unfold table_is in *. simpl.
  rewrite perform_other_table by exact Hne. exact H.
Qed.

Ltac keep_table :=
  repeat first
    [ apply ensures_db_run; apply keeps_other_table; discriminate
    | apply ensures_db_run_checked; apply keeps_other_table; discriminate
    | apply ensures_db_run_ignoring; apply keeps_other_table; discriminate
    | apply ensures_resolve; solve [auto]
    | apply ensures_when
    | apply ensures_for_of; intros ? ?
    | eapply ensures_await; [| intros ? H; exact H | intros ?] ].

Section VersionTable.

Variable js_number : string -> option Z.
Variable env : Env.
Variable tb : option Table.

Lemma migration_v1_keeps_version :
  ensures env (table_is "db_version" tb) migration_v1 (table_is "db_version" tb).
Proof. unfold migration_v1. keep_table. Qed.

Lemma migration_v2_keeps_version :
  ensures env (table_is "db_version" tb) migration_v2 (table_is "db_version" tb).
Proof. unfold migration_v2. keep_table. Qed.

Lemma migration_v3_keeps_version :
  ensures env (table_is "db_version" tb) migration_v3 (table_is "db_version" tb).
Proof. unfold migration_v3. keep_table. Qed.

Lemma getDatabaseVersion_reads (w : World) : (getDatabaseVersion env w).2 = w.
Proof.
  unfold getDatabaseVersion, await, db_get.
  destruct (fetch (SelectNameFromMaster "db_version") env (store w)) as [e|[r|]];
    try reflexivity.
  destruct (fetch (SelectFirst "db_version" (Some "version") None) env (store w))
    as [e|[r'|]]; reflexivity.
Qed.

End VersionTable.

(** [recorded_version] is what [getDatabaseVersion] resolves with, when
    its two queries do not fail in the storage layer. *)
Lemma getDatabaseVersion_recorded (env : Env) (w : World) :
  faults env (Get (SelectNameFromMaster "db_version")) = false ->
  faults env (Get (SelectFirst "db_version" (Some "version") None)) = false ->
  absent_or_schema "db_version" db_version_cols (store w) = true ->
  getDatabaseVersion env w = (Resolved (recorded_version (store w)), w).
Proof.
  intros H1 H2 Hown. unfold getDatabaseVersion, await, db_get, fetch, recorded_version.
  rewrite H1. unfold query at 1. unfold absent_or_schema in Hown.
  destruct (store w !! "db_version") as [[cols rows seq]|] eqn:E; [|reflexivity].
  apply bool_decide_eq_true in Hown. simpl in Hown. subst cols.
  rewrite H2. unfold query. rewrite E.
  destruct rows as [|versionRow rows]; reflexivity.
Qed.

Lemma recorded_version_same (db db' : Store) :
  db' !! "db_version" = db !! "db_version" -> recorded_version db' = recorded_version db.
Proof. unfold recorded_version. intros ->. reflexivity. Qed.

Lemma absent_or_schema_same (t : string) (cols : list Column) (db db' : Store) :
  db' !! t = db !! t -> absent_or_schema t cols db' = absent_or_schema t cols db.
Proof. unfold absent_or_schema. intros ->. reflexivity. Qed.

Lemma insert_version_row (now : string) (db : Store) (seq : Z) :
  db !! "db_version" = Some (mkTable db_version_cols [] seq) ->
  insert_row false now "db_version" [("version", VNum CURRENT_DB_VERSION)] db =
    inr (<["db_version" := mkTable db_version_cols
                             [{[ "version" := VNum CURRENT_DB_VERSION ]}] seq]> db).
Proof. intros H. unfold insert_row. rewrite H. reflexivity. Qed.

(** The version write, with the storage layer free to fail its CREATE
    and its DELETE but not its INSERT: the recorded version afterwards
    is the old one or [CURRENT_DB_VERSION]. *)
Lemma setDatabaseVersion_outcome (env : Env) (w : World) :
  absent_or_schema "db_version" db_version_cols (store w) = true ->
  faults env (Run version_insert) = false ->
  let w' := (setDatabaseVersion (VNum CURRENT_DB_VERSION) env w).2 in
  absent_or_schema "db_version" db_version_cols (store w') = true /\
  (recorded_version (store w') = recorded_version (store w) \/
   recorded_version (store w') = VNum CURRENT_DB_VERSION).
Proof.
  intros Hown Hins w'. subst w'.
  unfold setDatabaseVersion, await, db_run_checked, perform.
  destruct (faults env (Run (CreateTableIfNotExists _ _))); simpl; [auto|].
  set (db1 := match store w !! "db_version" with
              | Some _ => store w
              | None => <["db_version" := mkTable db_version_cols [] 0]> (store w)
              end).
  assert (H1 : exists rows seq,
             db1 !! "db_version" = Some (mkTable db_version_cols rows seq) /\
             recorded_version db1 = recorded_version (store w)).
  { subst db1. unfold absent_or_schema in Hown. unfold recorded_version.
    destruct (store w !! "db_version") as [[cols rows seq]|] eqn:E.
    - apply bool_decide_eq_true in Hown. simpl in Hown. subst cols.
      exists rows, seq. rewrite E. auto.
    - exists [], 0. rewrite lookup_insert_eq. auto. }
  destruct H1 as (rows & seq & Hdb1 & Hv1).
  assert (Hown1 : absent_or_schema "db_version" db_version_cols db1 = true)
    by (unfold absent_or_schema; rewrite Hdb1; reflexivity).
  replace (match store w !! "db_version" with
           | Some _ => inr (store w)
           | None => inr (<["db_version" := mkTable db_version_cols [] 0]> (store w))
           end) with (@inr Error Store db1)
    by (subst db1; destruct (store w !! "db_version"); reflexivity).
  simpl.
  destruct (faults env (Run (DeleteFrom "db_version"))); simpl; [auto|].
  rewrite Hdb1. simpl.
  fold version_insert. rewrite Hins.
  rewrite (insert_version_row _ _ seq) by apply lookup_insert_eq. simpl.
  split.
  - unfold absent_or_schema. rewrite lookup_insert_eq. reflexivity.
  - right. unfold recorded_version. rewrite lookup_insert_eq. reflexivity.
Qed.

Lemma runMigrations_version (js_number : string -> option Z) (env : Env) (w : World) :
  absent_or_schema "db_version" db_version_cols (store w) = true ->
  faults env (Run version_insert) = false ->
  let w' := (runMigrations js_number env w).2 in
  absent_or_schema "db_version" db_version_cols (store w') = true /\
  (recorded_version (store w') = recorded_version (store w) \/
   recorded_version (store w') = VNum CURRENT_DB_VERSION).
Proof.
  intros Hown Hins w'. subst w'.
  set (Q := fun w' : World =>
              absent_or_schema "db_version" db_version_cols (store w') = true /\
              (recorded_version (store w') = recorded_version (store w) \/
               recorded_version (store w') = VNum CURRENT_DB_VERSION)).
  set (I := table_is "db_version" (store w !! "db_version")).
  assert (HIQ : forall u, I u -> Q u).
  { intros u Hu. unfold I, table_is in Hu. split.
    - rewrite (absent_or_schema_same _ _ (store w)); assumption.
    - left. apply recorded_version_same. exact Hu. }
  assert (Hset : ensures env I (setDatabaseVersion (VNum CURRENT_DB_VERSION)) Q).
  { intros u Hu. unfold I, table_is in Hu.
    destruct (setDatabaseVersion_outcome env u) as [H1 H2]; [|exact Hins|].
    - rewrite (absent_or_schema_same _ _ (store w)); assumption.
    - split; [exact H1|]. rewrite (recorded_version_same (store w) (store u) Hu) in H2.
      exact H2. }
  change (Q (runMigrations js_number env w).2).
  unfold runMigrations, await at 1.
  pose proof (getDatabaseVersion_reads env w) as Hread.
  destruct (getDatabaseVersion env w) as [[cv|e|e] w0]; simpl in Hread; subst w0;
    [|apply HIQ; reflexivity..].
  assert (Hsteps : ensures env I
            (when (js_lt js_number cv 1) migration_v1 ;;
             when (js_lt js_number cv 2) migration_v2 ;;
             when (js_lt js_number cv 3) migration_v3 ;;
             setDatabaseVersion (VNum CURRENT_DB_VERSION)) Q).
  { apply (ensures_await env I I Q); [|exact HIQ|intros _].
    { apply ensures_when, migration_v1_keeps_version. }
    apply (ensures_await env I I Q); [|exact HIQ|intros _].
    { apply ensures_when, migration_v2_keeps_version. }
    apply (ensures_await env I I Q); [|exact HIQ|intros _].
    { apply ensures_when, migration_v3_keeps_version. }
    exact Hset. }
  apply Hsteps. reflexivity.
Qed.

(** ** The recorded version over a sequence of runs *)

(** C6 (amended). Over any sequence of migration runs, whichever
    statements the storage layer fails in them other than the INSERT of
    the version write, started from a store whose recorded version is
    at most [CURRENT_DB_VERSION]: after every run the recorded version
    is at least what it was before the run. *)
Theorem version_never_decreases
    (js_number : string -> option Z) (envs : list Env) (w : World) (v : Z) :
  absent_or_schema "db_version" db_version_cols (store w) = true ->
  recorded_version (store w) = VNum v ->
  v <= CURRENT_DB_VERSION ->
  Forall (fun env => faults env (Run version_insert) = false) envs ->
  forall (i : nat) (before after : World),
    (w :: migration_runs js_number envs w) !! i = Some before ->
    (w :: migration_runs js_number envs w) !! S i = Some after ->
    version_number (store before) <= version_number (store after).
Proof.
  intros Hown Hv Hle Hall. revert w v Hown Hv Hle.
  induction Hall as [|env envs Henv _ IH]; intros w v Hown Hv Hle i before after Hb Ha.
  - destruct i; discriminate.
  - destruct (runMigrations_version js_number env w Hown Henv) as [Hown' Hv'].
    cbv zeta in Hown', Hv'. rewrite Hv in Hv'.
    simpl in Hb, Ha. destruct i as [|i].
    + simpl in Hb, Ha. inversion Hb; inversion Ha; subst.
      unfold version_number. rewrite Hv.
      destruct Hv' as [-> | ->]; [lia|exact Hle].
    + simpl in Hb.
      destruct Hv' as [Hv'|Hv'];
        eapply (IH _ _ Hown' Hv'); try eassumption; unfold CURRENT_DB_VERSION; lia.
Qed.

Lemma version_never_decreases_witness :
  let first := (runMigrations toy_number sample_env empty_world).2 in
  let second := (runMigrations toy_number broken_lookup_env first).2 in
  version_number (store empty_world) <= version_number (store first) /\
  version_number (store first) <= version_number (store second).
Proof.
  split.
  - apply (version_never_decreases toy_number [sample_env; broken_lookup_env; later_env]
             empty_world 0 eq_refl eq_refl ltac:(unfold CURRENT_DB_VERSION; lia)
             ltac:(repeat constructor) 0%nat);
      reflexivity.
  - apply (version_never_decreases toy_number [sample_env; broken_lookup_env; later_env]
             empty_world 0 eq_refl eq_refl ltac:(unfold CURRENT_DB_VERSION; lia)
             ltac:(repeat constructor) 1%nat);
      reflexivity.
Defined.

(** A store recording version 5 records 3 after a run; and a run whose
    version INSERT fails after its DELETE leaves no version recorded. *)
Lemma version_decreases_counterexample :
  version_number (store (runMigrations toy_number sample_env (sample_world_versioned 5)).2)
    < version_number (store (sample_world_versioned 5)) /\
  version_number (store (runMigrations toy_number broken_version_insert_env sample_world).2)
    < version_number (store sample_world).
Proof. split; vm_compute; reflexivity. Qed.

(** ** Re-applying a migration step *)

Lemma create_table_reapplied (now : string) (t : string) (cols : list Column)
    (db db' : Store) :
  exec now (CreateTableIfNotExists t cols) db = inr db' ->
  exec now (CreateTableIfNotExists t cols) db' = inr db'.
Proof.
  simpl. destruct (db !! t) eqn:E; intros H; inversion H; subst.
  - rewrite E. reflexivity.
  - rewrite lookup_insert_eq. reflexivity.
Qed.

(** An ADD COLUMN that succeeded fails when it is issued again. *)
Lemma add_column_reapplied (now : string) (t : string) (c : Column) (db db' : Store) :
  exec now (AlterTableAddColumn t c) db = inr db' ->
  exec now (AlterTableAddColumn t c) db' = inl (DuplicateColumn t (cname c)).
Proof.
  simpl. destruct (db !! t) as [tb|] eqn:E; [|discriminate].
  destruct (has_col tb (cname c)); [discriminate|].
  intros H; inversion H; subst. rewrite lookup_insert_eq.
  unfold has_col, col_names. simpl. rewrite fmap_app. simpl.
  rewrite bool_decide_eq_true_2; [reflexivity|].
  apply elem_of_app. right. left.
Qed.

(** C7 (the code at the failing input). On the store that [migration_v1]
    and [migration_v2] leave behind when the version was not recorded,
    re-applying [migration_v2] fails in its first ADD COLUMN with a
    duplicate-column error. No callback receives it, and the process
    is killed there: the step does not complete, the store is as it
    was and the version is still not recorded. The next run of
    [runMigrations], which reads version 0 and re-applies the step, ends
    in the same way. Re-applying [migration_v1] on this store raises no
    error and changes nothing. *)
Theorem migration_v2_reapplied_kills_the_process :
  let w := after_two_steps in
  let again := migration_v2 later_env w in
  let rerun := runMigrations toy_number later_env w in
  let first := migration_v1 later_env w in
  unhandled w = [] /\
  recorded_version (store w) = VNum 0 /\
  again.1 = Crashed (DuplicateColumn "firefighters" "pin_hash") /\
  unhandled again.2 = [DuplicateColumn "firefighters" "pin_hash"] /\
  store again.2 = store w /\
  rerun.1 = Crashed (DuplicateColumn "firefighters" "pin_hash") /\
  store rerun.2 = store w /\
  recorded_version (store rerun.2) = VNum 0 /\
  first = (Resolved tt, w).
Proof. repeat split; vm_compute; reflexivity. Qed.

(** ** INSERT OR IGNORE into a keyed table *)

Lemma assoc_Some_in (vals : list (string * Value)) (k : string) (v : Value) :
  assoc vals k = Some v -> (k, v) ∈ vals.
Proof.
  induction vals as [|[k0 v0] vals IH]; simpl; [discriminate|].
  destruct (decide (k0 = k)) as [->|]; intros H.
  - inversion H; subst. left.
  - right. auto.
Qed.

Lemma assoc_None (vals : list (string * Value)) (k : string) :
  k ∉ vals.*1 -> assoc vals k = None.
Proof.
  induction vals as [|[k0 v0] vals IH]; simpl; [reflexivity|].
  intros H. apply not_elem_of_cons in H as [Hne H].
  destruct (decide (k0 = k)); [congruence|auto].
Qed.

Lemma find_existsb {A B : Type} (f : A -> bool) (l : list A) (a b : B) :
  match find f l with Some _ => a | None => b end = if existsb f l then a else b.
Proof.
  induction l as [|x l IH]; simpl; [reflexivity|].
  destruct (f x); [reflexivity|exact IH].
Qed.

Lemma field_build_row (now : string) (rows : list Row) (seq : Z)
    (vals : list (string * Value)) (cols : list Column) (c : Column) :
  NoDup (cname <$> cols) -> c ∈ cols ->
  field (build_row now rows seq vals cols) (cname c) = cell now rows seq vals c.
Proof.
  induction cols as [|c0 cols IH]; intros Hnd Hin; [inversion Hin|].
  simpl in Hnd. apply NoDup_cons in Hnd as [Hfresh Hnd].
  apply elem_of_cons in Hin as [->|Hin]; unfold field; simpl.
  - rewrite lookup_insert_eq. reflexivity.
  - rewrite lookup_insert_ne.
    + apply IH; assumption.
    + intros E. apply Hfresh. rewrite E. apply list_elem_of_fmap_2. exact Hin.
Qed.

Lemma key_present_app (k : string) (v : Value) (rows more : list Row) :
  key_present k v (rows ++ more) = key_present k v rows || key_present k v more.
Proof. unfold key_present. apply existsb_app. Qed.

(** A table without an AUTOINCREMENT column has no sequence to advance;
    a sequence never goes back. *)
Lemma advance_without_sequence (tb : Table) (r : Row) :
  auto_column (tcols tb) = None -> advance tb r = tseq tb.
Proof. unfold advance. intros ->. reflexivity. Qed.

Lemma advance_le (tb : Table) (r : Row) : tseq tb <= advance tb r.
Proof.
  unfold advance. destruct (auto_column _); [|lia]. destruct (field _ _); lia.
Qed.

Section Keyed.

Variables (now t k : string) (v : Value) (vals : list (string * Value)).
Variables (db : Store) (tb : Table).

Hypothesis table : db !! t = Some tb.
Hypothesis key : keyed_by k (vals.*1) (tcols tb) = true.
Hypothesis key_value : assoc vals k = Some v.
Hypothesis not_null : Forall (fun cv : string * Value => cv.2 <> VNull) vals.

Local Abbreviation new_row := (build_row now (trows tb) (tseq tb) vals (tcols tb)).

Lemma keyed_parts :
  NoDup (cname <$> tcols tb) /\
  (forall c, c ∈ tcols tb -> fresh_or_plain k (vals.*1) c = true) /\
  (forall c, c ∈ tcols tb -> never_null (vals.*1) c = true) /\
  exists c, c ∈ tcols tb /\ cname c = k /\ cunique c = true.
Proof.
  unfold keyed_by in key. rewrite !andb_true_iff in key.
  destruct key as [[[H1 H2] H3] H4].
  apply bool_decide_eq_true in H1. rewrite forallb_forall in H2, H3.
  apply existsb_exists in H4 as (c & Hc & H4). apply andb_true_iff in H4 as [H4 H5].
  apply bool_decide_eq_true in H4.
  repeat split; auto.
  - intros c' Hc'. apply H2, list_elem_of_In, Hc'.
  - intros c' Hc'. apply H3, list_elem_of_In, Hc'.
  - exists c. split; [apply list_elem_of_In; exact Hc|auto].
Qed.

Lemma given_not_null (c : string) (x : Value) : assoc vals c = Some x -> x <> VNull.
Proof.
  intros H. apply assoc_Some_in in H. rewrite Forall_forall in not_null.
  exact (not_null _ H).
Qed.

Lemma key_field : field new_row k = v.
Proof.
  destruct keyed_parts as (Hnd & _ & _ & c & Hc & Hk & _).
  rewrite <- Hk. rewrite field_build_row by assumption.
  unfold cell. rewrite Hk, key_value. reflexivity.
Qed.

Lemma no_violation : find (violates_not_null new_row) (tcols tb) = None.
Proof.
  destruct keyed_parts as (Hnd & _ & Hnn & _).
  apply find_is_None, Forall_forall. intros c Hc.
  unfold violates_not_null. destruct (cnotnull c) eqn:Hn; [simpl|reflexivity].
  apply bool_decide_eq_false. rewrite field_build_row by assumption.
  specialize (Hnn c Hc). unfold never_null in Hnn. rewrite Hn in Hnn. simpl in Hnn.
  unfold cell. destruct (assoc vals (cname c)) as [x|] eqn:E.
  - exact (given_not_null _ _ E).
  - apply orb_true_iff in Hnn as [Hin|Hd].
    + apply bool_decide_eq_true in Hin. exfalso.
      clear - Hin E. induction vals as [|[k0 v0] l IH]; [inversion Hin|].
      simpl in *. destruct (decide (k0 = cname c)); [discriminate|].
      apply elem_of_cons in Hin as [Hin|Hin]; [congruence|auto].
    + unfold default_value. destruct (cdefault c) as [|d| |]; try discriminate.
      apply negb_true_iff, bool_decide_eq_false in Hd. exact Hd.
Qed.

Lemma any_conflict :
  existsb (conflicts new_row tb) (tcols tb) = key_present k v (trows tb).
Proof.
  destruct keyed_parts as (Hnd & Hfp & _ & ck & Hck & Hk & Hu).
  pose proof key_field as Hkey.
  apply Bool.eq_iff_eq_true. split; intros H.
  - apply existsb_exists in H as (c & Hc & H). apply list_elem_of_In in Hc.
    assert (Hcase : cname c = k \/ conflicts new_row tb c = false).
    { specialize (Hfp c Hc). unfold fresh_or_plain in Hfp.
      unfold conflicts in H. apply existsb_exists in H as (r' & _ & H).
      unfold collides in H. rewrite !andb_true_iff in H. destruct H as [[Hun _] _].
      rewrite Hun in Hfp. simpl in Hfp. apply orb_true_iff in Hfp as [Hfp|Hfp].
      - left. apply bool_decide_eq_true in Hfp. exact Hfp.
      - right. apply andb_true_iff in Hfp as [Ha Hg].
        apply bool_decide_eq_true in Ha. apply negb_true_iff, bool_decide_eq_false in Hg.
        apply (conflicts_fresh_id _ _ _ (tseq tb)). rewrite field_build_row by assumption.
        unfold cell. rewrite (assoc_None _ _ Hg). unfold default_value. rewrite Ha.
        reflexivity. }
    destruct Hcase as [Hk'|Hno]; [|congruence].
    unfold conflicts in H. apply existsb_exists in H as (r' & Hr' & H).
    unfold collides in H. rewrite !andb_true_iff in H. destruct H as [_ H].
    apply bool_decide_eq_true in H. rewrite Hk', Hkey in H.
    apply existsb_exists. exists r'. split; [exact Hr'|].
    apply bool_decide_eq_true. exact H.
  - apply existsb_exists in H as (r' & Hr' & H). apply bool_decide_eq_true in H.
    apply existsb_exists. exists ck. split; [apply list_elem_of_In; exact Hck|].
    unfold conflicts. apply existsb_exists. exists r'. split; [exact Hr'|].
    unfold collides. rewrite Hu, Hk, Hkey, H. simpl.
    rewrite bool_decide_eq_false_2 by exact (given_not_null _ _ key_value).
    rewrite bool_decide_eq_true_2 by reflexivity. reflexivity.
Qed.

(** The statement adds its row unless a row with its key is stored;
    either way the sequence of the table advances. *)
Lemma insert_or_ignore_keyed :
  forallb (has_col tb) (vals.*1) = true ->
  insert_row true now t vals db =
    inr (<[t := mkTable (tcols tb)
                  (if key_present k v (trows tb) then trows tb
                   else trows tb ++ [new_row])
                  (advance tb new_row)]> db).
Proof.
  intros Hcols. unfold insert_row. rewrite table.
  rewrite find_is_None.
  2:{ rewrite forallb_forall in Hcols. apply Forall_forall. intros [c x] Hin.
      simpl. rewrite Hcols; [reflexivity|].
      apply list_elem_of_In. apply (list_elem_of_fmap_2 fst) in Hin. exact Hin. }
  cbv zeta. rewrite no_violation.
  rewrite (find_existsb (conflicts new_row tb) (tcols tb)).
  rewrite any_conflict. destruct (key_present k v (trows tb)); reflexivity.
Qed.

End Keyed.

(** ** The reference data *)

Lemma insertDefaultData_steps (bcrypt_hash : string -> string -> string)
    (env : Env) (w : World) :
  insertDefaultData bcrypt_hash env w =
    (Resolved tt,
     mkWorld (foldl (seed_step env) (store w) (seed_statements bcrypt_hash env))
             (unhandled w)).
Proof. reflexivity. Qed.

Lemma seed_statements_are_seeds (bcrypt_hash : string -> string -> string) (env : Env) :
  Forall (fun s => is_seed s = true) (seed_statements bcrypt_hash env).
Proof. repeat constructor. Qed.

Lemma seed_statements_keys (bcrypt_hash : string -> string -> string) (env env' : Env) :
  Forall2 (fun s s' => seed_key s = seed_key s')
          (seed_statements bcrypt_hash env) (seed_statements bcrypt_hash env').
Proof. repeat constructor. Qed.

Lemma insert_row_result (ignore : bool) (now t : string) (vals : list (string * Value))
    (db db' : Store) :
  insert_row ignore now t vals db = inr db' ->
  exists tb rows seq,
    db !! t = Some tb /\
    db' = <[t := mkTable (tcols tb) rows seq]> db /\
    (rows = trows tb \/ exists r, rows = (trows tb ++ [r])%list).
Proof.
  unfold insert_row. destruct (db !! t) as [tb|] eqn:E; [|discriminate].
  destruct (find _ vals); [discriminate|]. cbv zeta.
  destruct (find _ (tcols tb));
    [destruct ignore; [|discriminate]; intros H; inversion H;
     do 3 eexists; split; [reflexivity|split; [reflexivity|left; reflexivity]]|].
  destruct (find _ (tcols tb));
    [destruct ignore; [|discriminate]; intros H; inversion H;
     do 3 eexists; split; [reflexivity|split; [reflexivity|left; reflexivity]]|].
  intros H; inversion H.
  do 3 eexists; split; [reflexivity|split; [reflexivity|right; eexists; reflexivity]].
Qed.

Lemma seed_step_result (env : Env) (db : Store) (t : string) (vals : list (string * Value)) :
  let db' := seed_step env db (InsertOrIgnoreInto t vals) in
  db' = db \/
  exists tb rows seq,
    db !! t = Some tb /\
    db' = <[t := mkTable (tcols tb) rows seq]> db /\
    (rows = trows tb \/ exists r, rows = (trows tb ++ [r])%list).
Proof.
  unfold seed_step, perform. destruct (faults env _); [left; reflexivity|]. simpl.
  destruct (insert_row true (sql_now env) t vals db) as [e|db'] eqn:E; [left; reflexivity|].
  right. exact (insert_row_result _ _ _ _ _ _ E).
Qed.

Lemma same_columns_append (db : Store) (t : string) (tb : Table) (rows : list Row)
    (seq : Z) :
  db !! t = Some tb ->
  same_columns db (<[t := mkTable (tcols tb) rows seq]> db).
Proof.
  intros H t'. destruct (decide (t = t')) as [<-|Hne].
  - rewrite lookup_insert_eq, H. reflexivity.
  - rewrite lookup_insert_ne by exact Hne. reflexivity.
Qed.

Lemma same_columns_refl (db : Store) : same_columns db db.
Proof. intros t. reflexivity. Qed.

Lemma same_columns_trans (db1 db2 db3 : Store) :
  same_columns db1 db2 -> same_columns db2 db3 -> same_columns db1 db3.
Proof. intros H1 H2 t. rewrite H2. apply H1. Qed.

Lemma seed_step_columns (env : Env) (db : Store) (t : string) (vals : list (string * Value)) :
  same_columns db (seed_step env db (InsertOrIgnoreInto t vals)).
Proof.
  destruct (seed_step_result env db t vals) as [->|(tb & rows & seq & Htb & -> & _)].
  - apply same_columns_refl.
  - apply same_columns_append. exact Htb.
Qed.

Lemma forallb_same {A : Type} (f g : A -> bool) (l : list A) :
  (forall x, f x = g x) -> forallb f l = forallb g l.
Proof. intros H. induction l as [|x l IH]; simpl; [reflexivity|]. rewrite H, IH. reflexivity. Qed.

Lemma keyed_same_columns (db db' : Store) :
  same_columns db db' -> keyed db' = keyed db.
Proof.
  intros H. unfold keyed. apply forallb_same. intros [[t k] names].
  specialize (H t).
  destruct (db' !! t), (db !! t); simpl in H; inversion H; congruence.
Qed.

Lemma absent_or_schema_same_columns (t : string) (cols : list Column) (db db' : Store) :
  same_columns db db' -> absent_or_schema t cols db' = absent_or_schema t cols db.
Proof.
  intros H. unfold absent_or_schema. specialize (H t).
  destruct (db' !! t), (db !! t); simpl in H; inversion H; congruence.
Qed.

Lemma firefighters_shape_same_columns (i : nat) (db db' : Store) :
  same_columns db db' -> firefighters_shape i db' = firefighters_shape i db.
Proof.
  intros H. unfold firefighters_shape. specialize (H "firefighters").
  destruct (db' !! "firefighters"), (db !! "firefighters"); simpl in H; inversion H;
    congruence.
Qed.

Lemma other_schemas_same_columns (db db' : Store) :
  same_columns db db' -> other_schemas db' = other_schemas db.
Proof.
  intros H. unfold other_schemas. apply forallb_same. intros [t cols].
  apply absent_or_schema_same_columns. exact H.
Qed.

Lemma own_schema_same_columns (db db' : Store) :
  same_columns db db' -> own_schema db' = own_schema db.
Proof.
  intros H. unfold own_schema.
  rewrite (other_schemas_same_columns db db' H).
  rewrite (firefighters_shape_same_columns _ db db' H). reflexivity.
Qed.

Lemma same_rows_refl (db : Store) : same_rows db db.
Proof. intros t. reflexivity. Qed.

Lemma same_rows_trans (db1 db2 db3 : Store) :
  same_rows db1 db2 -> same_rows db2 db3 -> same_rows db1 db3.
Proof. intros H1 H2 t. rewrite H2. apply H1. Qed.

Lemma same_rows_columns (db db' : Store) : same_rows db db' -> same_columns db db'.
Proof.
  intros H t. specialize (H t).
  destruct (db' !! t) as [tb'|], (db !! t) as [tb|]; simpl in *; try discriminate;
    [|reflexivity].
  unfold contents in H. congruence.
Qed.

Lemma same_rows_sequence (db : Store) (t : string) (tb : Table) (seq : Z) :
  db !! t = Some tb ->
  same_rows db (<[t := mkTable (tcols tb) (trows tb) seq]> db).
Proof.
  intros H t'. destruct (decide (t = t')) as [<-|Hne].
  - rewrite lookup_insert_eq, H. reflexivity.
  - rewrite lookup_insert_ne by exact Hne. reflexivity.
Qed.

Lemma settled_same_rows (s : Stmt) (db db' : Store) :
  same_rows db db' -> settled s db' = settled s db.
Proof.
  intros H. unfold settled. destruct (seed_key s) as [[[[t k] v] names]|]; [|reflexivity].
  specialize (H t).
  destruct (db' !! t) as [tb'|], (db !! t) as [tb|]; simpl in H; try discriminate;
    [|reflexivity].
  unfold contents in H. inversion H as [[Hc Hr]]. rewrite Hr. f_equal. f_equal.
  apply forallb_same. intros c. unfold has_col, col_names. rewrite Hc. reflexivity.
Qed.

Lemma missing_column_found (tb : Table) (vals : list (string * Value)) :
  forallb (has_col tb) (vals.*1) = false ->
  exists cv, find (fun cv : string * Value => negb (has_col tb cv.1)) vals = Some cv.
Proof.
  induction vals as [|[c x] vals IH]; simpl; [discriminate|].
  destruct (has_col tb c); simpl; [exact IH|eauto].
Qed.

Lemma keyed_table (db : Store) (t k : string) (names : list string) (tb : Table) :
  keyed db = true -> (t, k, names) ∈ seed_tables -> db !! t = Some tb ->
  keyed_by k names (tcols tb) = true.
Proof.
  unfold keyed. rewrite forallb_forall. intros H Hin Htb.
  apply list_elem_of_In in Hin. specialize (H _ Hin). simpl in H.
  rewrite Htb in H. exact H.
Qed.

(** One statement of the reference data: afterwards it is settled, and
    on a store where it was settled already it changes at most the
    sequence of its table, and not even that in a table without an
    AUTOINCREMENT column. *)
Lemma seed_step_settles (env : Env) (db : Store) (s : Stmt) :
  is_seed s = true -> keyed db = true -> faults env (Run s) = false ->
  settled s (seed_step env db s) = true /\
  (settled s db = true ->
   seed_step env db s = db \/
   exists tb seq,
     db !! target s = Some tb /\
     seed_step env db s = <[target s := mkTable (tcols tb) (trows tb) seq]> db /\
     (auto_column (tcols tb) = None -> seq = tseq tb)).
Proof.
  intros Hs Hk Hf.
  destruct s as [| | | |t [|[k v] rest]|]; try discriminate.
  unfold is_seed in Hs. apply andb_true_iff in Hs as [Hnn Hmem].
  apply bool_decide_eq_true in Hmem.
  unfold seed_step, perform. rewrite Hf. unfold settled. cbn [seed_key target exec].
  destruct (db !! t) as [tb|] eqn:E.
  2:{ unfold insert_row. rewrite E. cbn [snd]. rewrite E. auto. }
  pose proof (keyed_table db t k _ tb Hk Hmem E) as Hkey.
  assert (Hnot : Forall (fun cv : string * Value => cv.2 <> VNull) ((k, v) :: rest)).
  { apply Forall_forall. intros cv Hin.
    rewrite forallb_forall in Hnn. specialize (Hnn cv).
    assert (In cv ((k, v) :: rest)) as Hin' by (apply list_elem_of_In; exact Hin).
    specialize (Hnn Hin'). apply negb_true_iff, bool_decide_eq_false in Hnn.
    exact Hnn. }
  assert (Hkv : assoc ((k, v) :: rest) k = Some v)
    by (simpl; rewrite decide_True by reflexivity; reflexivity).
  change (forallb (has_col tb) (k :: rest.*1))
    with (has_col tb k && forallb (has_col tb) (rest.*1)).
  destruct (has_col tb k && forallb (has_col tb) (rest.*1)) eqn:Hc.
  - rewrite (insert_or_ignore_keyed (sql_now env) t k v ((k, v) :: rest) db tb E Hkey
               Hkv Hnot Hc).
    cbn [snd]. rewrite lookup_insert_eq.
    change (forallb (has_col (mkTable (tcols tb) ?rows ?seq)) (k :: rest.*1))
      with (has_col tb k && forallb (has_col tb) (rest.*1)).
    rewrite Hc. cbn [negb orb trows].
    destruct (key_present k v (trows tb)) eqn:Kp.
    + split; [exact Kp|]. intros _. right. eexists tb, _.
      split; [reflexivity|]. split; [reflexivity|].
      intros Ha. apply advance_without_sequence, Ha.
    + split; [|discriminate]. rewrite key_present_app. cbn [key_present existsb].
      rewrite (key_field (sql_now env) k v ((k, v) :: rest) tb Hkey Hkv).
      rewrite bool_decide_eq_true_2 by reflexivity. apply orb_true_r.
  - destruct (missing_column_found tb ((k, v) :: rest) Hc) as [cv Hcv].
    unfold insert_row. rewrite E, Hcv. cbn [snd]. rewrite E.
    split; [|auto]. cbn [forallb]. rewrite Hc. reflexivity.
Qed.

(** What is settled stays settled through other statements of the
    reference data. *)
Lemma settled_persists (env : Env) (db : Store) (s s' : Stmt) :
  is_seed s = true -> settled s' db = true -> settled s' (seed_step env db s) = true.
Proof.
  intros Hs Hset.
  destruct s as [| | | |t vals|]; try discriminate.
  destruct (seed_step_result env db t vals) as [->|(tb & rows & seq & Htb & -> & Hrows)];
    [exact Hset|].
  unfold settled in *. destruct (seed_key s') as [[[[t' k'] v'] names']|]; [|reflexivity].
  destruct (decide (t = t')) as [<-|Hne].
  - rewrite lookup_insert_eq. rewrite Htb in Hset. simpl.
    apply orb_true_iff in Hset as [H|H]; apply orb_true_iff; [left; exact H|right].
    destruct Hrows as [->|[r ->]]; [exact H|].
    rewrite key_present_app, H. reflexivity.
  - rewrite lookup_insert_ne by exact Hne. exact Hset.
Qed.

Lemma seeds_first_run (env : Env) (stmts : list Stmt) (db : Store) :
  Forall (fun s => is_seed s = true) stmts ->
  keyed db = true ->
  no_faults env ->
  let db1 := foldl (seed_step env) db stmts in
  same_columns db db1 /\
  Forall (fun s => settled s db1 = true) stmts /\
  (forall s', settled s' db = true -> settled s' db1 = true).
Proof.
  intros Hall. revert db. induction Hall as [|s stmts Hs _ IH]; intros db Hk Hnf; simpl.
  - split; [apply same_columns_refl|]. split; [constructor|auto].
  - assert (Hcols : same_columns db (seed_step env db s)).
    { destruct s as [| | | |t vals|]; try discriminate. apply seed_step_columns. }
    assert (Hk' : keyed (seed_step env db s) = true)
      by (rewrite (keyed_same_columns db); assumption).
    destruct (IH (seed_step env db s) Hk' Hnf) as (C & S & P).
    destruct (seed_step_settles env db s Hs Hk (Hnf _)) as [Hset _].
    split; [exact (same_columns_trans _ _ _ Hcols C)|].
    split; [constructor; [apply P; exact Hset|exact S]|].
    intros s' Hs'. apply P. apply settled_persists; assumption.
Qed.

Lemma settled_same_key (s s' : Stmt) (db : Store) :
  seed_key s = seed_key s' -> settled s' db = settled s db.
Proof. unfold settled. intros ->. reflexivity. Qed.

Lemma settled_transfer (stmts stmts' : list Stmt) (db : Store) :
  Forall2 (fun s s' => seed_key s = seed_key s') stmts stmts' ->
  Forall (fun s => settled s db = true) stmts ->
  Forall (fun s => settled s db = true) stmts'.
Proof.
  induction 1 as [|s s' stmts stmts' Hk _ IH]; intros H; [constructor|].
  inversion H; subst. constructor; [|auto].
  rewrite (settled_same_key s s' db Hk). assumption.
Qed.

Lemma seed_target (s : Stmt) : is_seed s = true -> target s <> "db_version".
Proof.
  destruct s as [| | | |t [|[k v] rest]|]; try discriminate.
  unfold is_seed. intros H. apply andb_true_iff in H as [_ H].
  apply bool_decide_eq_true in H. simpl.
  unfold seed_tables in H. rewrite !elem_of_cons in H.
  destruct H as [H|[H|[H|[H|H]]]]; inversion H; subst; discriminate.
Qed.

Lemma seeds_keep_version (env : Env) (stmts : list Stmt) (db : Store) :
  Forall (fun s => is_seed s = true) stmts ->
  foldl (seed_step env) db stmts !! "db_version" = db !! "db_version".
Proof.
  intros Hall. revert db. induction Hall as [|s stmts Hs _ IH]; intros db; simpl;
    [reflexivity|].
  rewrite IH. unfold seed_step. apply perform_other_table.
  intros E. exact (seed_target s Hs (eq_sym E)).
Qed.

(** ** The schema of the migrations is keyed *)

Lemma other_schema (db : Store) (t : string) (cols : list Column) (tb : Table) :
  other_schemas db = true -> (t, cols) ∈ other_tables -> db !! t = Some tb ->
  tcols tb = cols.
Proof.
  unfold other_schemas. rewrite forallb_forall. intros H Hin Htb.
  apply list_elem_of_In in Hin. specialize (H _ Hin). simpl in H.
  unfold absent_or_schema in H. rewrite Htb in H. apply bool_decide_eq_true in H. exact H.
Qed.

Lemma firefighters_columns (i : nat) (db : Store) (tb : Table) :
  firefighters_shape i db = true -> db !! "firefighters" = Some tb ->
  exists n, (i <= n <= 6)%nat /\
            tcols tb = (firefighters_cols ++ take n firefighters_auth_cols)%list.
Proof.
  unfold firefighters_shape. intros H Htb. rewrite Htb in H.
  apply existsb_exists in H as (n & Hn & H). apply andb_true_iff in H as [Hle Heq].
  apply bool_decide_eq_true in Heq. apply Nat.leb_le in Hle.
  apply in_seq in Hn. exists n. split; [lia|exact Heq].
Qed.

Lemma own_schema_keyed (db : Store) : own_schema db = true -> keyed db = true.
Proof.
  unfold own_schema. intros H. apply andb_true_iff in H as [Ho Hf].
  unfold keyed, seed_tables. simpl. rewrite !andb_true_iff. repeat split.
  - destruct (db !! "stations") as [tb|] eqn:E; [|reflexivity].
    rewrite (other_schema db "stations" stations_cols tb Ho); [reflexivity| |exact E].
    unfold other_tables. rewrite !elem_of_cons. auto.
  - destruct (db !! "station_accounts") as [tb|] eqn:E; [|reflexivity].
    rewrite (other_schema db "station_accounts" station_accounts_cols tb Ho);
      [reflexivity| |exact E].
    unfold other_tables. rewrite !elem_of_cons. auto.
  - destruct (db !! "firefighters") as [tb|] eqn:E; [|reflexivity].
    destruct (firefighters_columns 0 db tb Hf E) as (n & Hn & ->).
    destruct n as [|[|[|[|[|[|[|n]]]]]]]; try lia; reflexivity.
  - destruct (db !! "activity_categories") as [tb|] eqn:E; [|reflexivity].
    rewrite (other_schema db "activity_categories" activity_categories_cols tb Ho);
      [reflexivity| |exact E].
    unfold other_tables. rewrite !elem_of_cons. auto 6.
Qed.

(** ** Seeding twice *)

Lemma no_sequence (db : Store) (s : Stmt) (tb : Table) :
  is_seed s = true -> own_schema db = true -> target s <> "activity_categories" ->
  db !! target s = Some tb -> auto_column (tcols tb) = None.
Proof.
  intros Hs Hown Hne Htb.
  destruct s as [| | | |t [|[k v] rest]|]; try discriminate.
  unfold is_seed in Hs. apply andb_true_iff in Hs as [_ H].
  apply bool_decide_eq_true in H. cbn [target] in *.
  unfold own_schema in Hown. apply andb_true_iff in Hown as [Ho Hf].
  unfold seed_tables in H. rewrite !elem_of_cons in H.
  destruct H as [H|[H|[H|[H|H]]]]; [| | | |inversion H]; inversion H; subst; clear H.
  - rewrite (other_schema db "stations" stations_cols tb Ho); [reflexivity| |exact Htb].
    unfold other_tables. rewrite !elem_of_cons. auto.
  - rewrite (other_schema db "station_accounts" station_accounts_cols tb Ho);
      [reflexivity| |exact Htb].
    unfold other_tables. rewrite !elem_of_cons. auto.
  - destruct (firefighters_columns 0 db tb Hf Htb) as (n & Hn & ->).
    destruct n as [|[|[|[|[|[|[|n]]]]]]]; try lia; reflexivity.
  - congruence.
Qed.

(** A second pass over statements that are settled: no table gets a
    row or a column, and only the table with a sequence changes at all. *)
Lemma seeds_second_run (env : Env) (stmts : list Stmt) (db : Store) :
  Forall (fun s => is_seed s = true) stmts ->
  own_schema db = true ->
  no_faults env ->
  Forall (fun s => settled s db = true) stmts ->
  let db2 := foldl (seed_step env) db stmts in
  same_rows db db2 /\
  forall t, t <> "activity_categories" -> db2 !! t = db !! t.
Proof.
  intros Hall. revert db.
  induction Hall as [|s stmts Hs _ IH]; intros db Hown Hnf Hset; simpl.
  - split; [apply same_rows_refl|reflexivity].
  - inversion Hset as [|? ? Hs1 Hrest]; subst.
    pose proof (own_schema_keyed _ Hown) as Hk.
    destruct (seed_step_settles env db s Hs Hk (Hnf _)) as [_ Hsame].
    specialize (Hsame Hs1).
    assert (Hrows : same_rows db (seed_step env db s)).
    { destruct Hsame as [->|(tb & seq & Htb & -> & _)];
        [apply same_rows_refl|apply same_rows_sequence; exact Htb]. }
    assert (Hother : forall t, t <> "activity_categories" ->
                               seed_step env db s !! t = db !! t).
    { intros t Ht. destruct Hsame as [->|(tb & seq & Htb & -> & Hseq)]; [reflexivity|].
      destruct (decide (target s = t)) as [Heq|Hne'].
      - subst t. rewrite lookup_insert_eq, Htb.
        rewrite Hseq by (apply (no_sequence db s); assumption).
        destruct tb; reflexivity.
      - rewrite lookup_insert_ne by exact Hne'. reflexivity. }
    destruct (IH (seed_step env db s)) as [R O].
    + rewrite (own_schema_same_columns db); [exact Hown|apply same_rows_columns, Hrows].
    + exact Hnf.
    + apply (Forall_impl _ _ _ Hrest). intros s' Hs'.
      rewrite (settled_same_rows s' db); assumption.
    + split; [exact (same_rows_trans _ _ _ Hrows R)|].
      intros t Ht. rewrite O by exact Ht. apply Hother, Ht.
Qed.

(** Seeding twice: the second pass adds no row, and changes no table
    but [activity_categories], whose sequence it advances. *)
Lemma insertDefaultData_twice (bcrypt_hash : string -> string -> string)
    (env env' : Env) (w : World) :
  own_schema (store w) = true -> no_faults env -> no_faults env' ->
  exists w1 w2,
    insertDefaultData bcrypt_hash env w = (Resolved tt, w1) /\
    insertDefaultData bcrypt_hash env' w1 = (Resolved tt, w2) /\
    store w1 !! "db_version" = store w !! "db_version" /\
    unhandled w1 = unhandled w /\
    same_rows (store w1) (store w2) /\
    (forall t, t <> "activity_categories" -> store w2 !! t = store w1 !! t) /\
    unhandled w2 = unhandled w1.
Proof.
  intros Hown Hnf Hnf'. rewrite insertDefaultData_steps.
  pose proof (own_schema_keyed _ Hown) as Hk.
  destruct (seeds_first_run env _ (store w) (seed_statements_are_seeds bcrypt_hash env)
              Hk Hnf) as (C & S & _).
  set (db1 := foldl (seed_step env) (store w) (seed_statements bcrypt_hash env)) in *.
  destruct (seeds_second_run env' (seed_statements bcrypt_hash env') db1) as [R O].
  { apply seed_statements_are_seeds. }
  { rewrite (own_schema_same_columns (store w)); assumption. }
  { exact Hnf'. }
  { exact (settled_transfer _ _ _ (seed_statements_keys bcrypt_hash env env') S). }
  exists (mkWorld db1 (unhandled w)),
         (mkWorld (foldl (seed_step env') db1 (seed_statements bcrypt_hash env'))
                  (unhandled w)).
  split; [reflexivity|]. split; [rewrite insertDefaultData_steps; reflexivity|].
  cbn [store unhandled].
  split; [apply seeds_keep_version, seed_statements_are_seeds|].
  split; [reflexivity|]. split; [exact R|]. split; [exact O|reflexivity].
Qed.

(** ** Code that resolves *)

Lemma succeeds_resolve {A : Type} (env : Env) (P Q : World -> Prop) (a : A) :
  (forall w, P w -> Q w) -> succeeds env P (resolve a) Q.
Proof. intros H w HP. exists a, w. split; [reflexivity|auto]. Qed.

Lemma succeeds_await {A B : Type} (env : Env) (P I Q : World -> Prop)
    (m : Async A) (k : A -> Async B) :
  succeeds env P m I ->
  (forall a, succeeds env I (k a) Q) ->
  succeeds env P (await m k) Q.
Proof.
  intros Hm Hk w HP. destruct (Hm w HP) as (a & w' & E & HI).
  unfold await. rewrite E. apply Hk, HI.
Qed.

Lemma succeeds_weaken {A : Type} (env : Env) (P P' Q Q' : World -> Prop) (m : Async A) :
  succeeds env P' m Q' ->
  (forall w, P w -> P' w) -> (forall w, Q' w -> Q w) ->
  succeeds env P m Q.
Proof.
  intros H HP HQ w Hw. destruct (H w (HP w Hw)) as (a & w' & E & HQ').
  exists a, w'. auto.
Qed.

Lemma succeeds_when (env : Env) (I : World -> Prop) (b : bool) (m : Async unit) :
  succeeds env I m I -> succeeds env I (when b m) I.
Proof. intros H. destruct b; [exact H|]. apply succeeds_resolve. auto. Qed.

(** A statement issued without a callback lets the code go on only
    when it raises no error. *)
Lemma succeeds_db_run (env : Env) (P Q : World -> Prop) (s : Stmt) :
  (forall w, P w -> (perform s env (store w)).1 = None) ->
  (forall w u, P w -> Q (mkWorld (perform s env (store w)).2 u)) ->
  succeeds env P (db_run s) Q.
Proof.
  intros Hok H w HP. unfold db_run. specialize (H w). specialize (Hok w HP).
  destruct (perform s env (store w)) as [[e|] db]; [discriminate|].
  eexists _, _; split; [reflexivity|]. apply H, HP.
Qed.

Lemma succeeds_db_run_checked (env : Env) (P Q : World -> Prop) (s : Stmt) :
  (forall w, P w -> (perform s env (store w)).1 = None) ->
  (forall w u, P w -> Q (mkWorld (perform s env (store w)).2 u)) ->
  succeeds env P (db_run_checked s) Q.
Proof.
  intros Hok H w HP. unfold db_run_checked. specialize (H w). specialize (Hok w HP).
  destruct (perform s env (store w)) as [[e|] db]; [discriminate|].
  eexists _, _; split; [reflexivity|]. apply H, HP.
Qed.

(** ** The steps on the schema of the migrations *)

Section Steps.

Variable env : Env.
Hypothesis working : no_faults env.

Lemma create_never_fails (t : string) (cols : list Column) (db : Store) :
  (perform (CreateTableIfNotExists t cols) env db).1 = None.
Proof.
  unfold perform. rewrite working. simpl. destruct (db !! t); reflexivity.
Qed.

Lemma create_result (t : string) (cols : list Column) (db : Store) :
  (perform (CreateTableIfNotExists t cols) env db).2 =
    match db !! t with
    | Some _ => db
    | None => <[t := mkTable cols [] 0]> db
    end.
Proof.
  unfold perform. rewrite working. simpl. destruct (db !! t); reflexivity.
Qed.

Lemma create_keeps_schemas (i : nat) (t : string) (cols : list Column) (db : Store) :
  create_ok i t cols = true ->
  other_schemas db = true ->
  other_schemas (perform (CreateTableIfNotExists t cols) env db).2 = true.
Proof.
  intros Hok Ho. rewrite create_result. destruct (db !! t) eqn:E; [exact Ho|].
  unfold create_ok in Hok. apply andb_true_iff in Hok as [Hok1 _].
  unfold other_schemas in *. rewrite forallb_forall in *. intros [t0 c0] Hin.
  specialize (Ho _ Hin). specialize (Hok1 _ Hin). simpl in *.
  unfold absent_or_schema in *. destruct (decide (t = t0)) as [<-|Hne].
  - rewrite lookup_insert_eq. simpl.
    rewrite bool_decide_eq_true_2 in Hok1 by reflexivity. exact Hok1.
  - rewrite lookup_insert_ne by exact Hne. exact Ho.
Qed.

Lemma create_step (i : nat) (t : string) (cols : list Column) :
  create_ok i t cols = true ->
  forall w u, migrating i w ->
              migrating i (mkWorld (perform (CreateTableIfNotExists t cols) env (store w)).2 u).
Proof.
  intros Hok w u [Ho Hf]. unfold migrating. cbn [store].
  split; [exact (create_keeps_schemas i t cols _ Hok Ho)|].
  rewrite create_result. destruct (store w !! t) eqn:E; [exact Hf|].
  unfold create_ok in Hok. apply andb_true_iff in Hok as [_ Hok2].
  unfold firefighters_shape in *. destruct (decide (t = "firefighters")) as [->|Hne].
  - rewrite lookup_insert_eq. simpl.
    rewrite bool_decide_eq_true_2 in Hok2 by reflexivity. simpl in Hok2.
    apply andb_true_iff in Hok2 as [Hc Hi].
    apply bool_decide_eq_true in Hc. apply Nat.eqb_eq in Hi. subst. reflexivity.
  - rewrite lookup_insert_ne by exact Hne. exact Hf.
Qed.

Lemma rows_step (i : nat) (s : Stmt) :
  (forall db, same_columns db (perform s env db).2) ->
  forall w u, migrating i w -> migrating i (mkWorld (perform s env (store w)).2 u).
Proof.
  intros Hs w u [Ho Hf]. unfold migrating. cbn [store].
  rewrite (other_schemas_same_columns (store w)) by apply Hs.
  rewrite (firefighters_shape_same_columns i (store w)) by apply Hs. auto.
Qed.

(** The first statement of [migration_v1] on a store without the
    columns of [migration_v2]; the other CREATE TABLE statements of the
    steps, which leave [firefighters] alone. *)
Lemma create_firefighters :
  forall w u, fresh w ->
              altering 0
                (mkWorld (perform (CreateTableIfNotExists "firefighters" firefighters_cols)
                            env (store w)).2 u).
Proof.
  intros w u [Ho Hf]. split; cbn [store].
  - apply (create_keeps_schemas 0); [reflexivity|exact Ho].
  - rewrite create_result. unfold has_schema, absent_or_schema in *.
    destruct (store w !! "firefighters") eqn:E.
    + rewrite E. exact Hf.
    + rewrite lookup_insert_eq. reflexivity.
Qed.

Lemma create_keeps_altering (i : nat) (t : string) (cols : list Column) :
  create_ok 0 t cols = true -> t <> "firefighters" ->
  forall w u, altering i w ->
              altering i (mkWorld (perform (CreateTableIfNotExists t cols) env (store w)).2 u).
Proof.
  intros Hok Hne w u [Ho Hf]. split; cbn [store].
  - apply (create_keeps_schemas 0); assumption.
  - unfold has_schema in *. rewrite perform_other_table; [exact Hf|].
    simpl. congruence.
Qed.

(** The [i]-th ADD COLUMN of [migration_v2] on a table that has the
    columns before it and none after: it raises no error and adds its
    column. *)
Lemma alter_step (i : nat) (c : Column) :
  firefighters_auth_cols !! i = Some c ->
  forall w, altering i w ->
    (perform (AlterTableAddColumn "firefighters" c) env (store w)).1 = None /\
    forall u, altering (S i)
                (mkWorld (perform (AlterTableAddColumn "firefighters" c) env (store w)).2 u).
Proof.
  intros Hc w [Ho Hf].
  assert (Hother : other_schemas
                     (perform (AlterTableAddColumn "firefighters" c) env (store w)).2 = true).
  { unfold other_schemas in *. rewrite forallb_forall in *. intros [t0 c0] Hin.
    specialize (Ho _ Hin). simpl in *.
    rewrite (absent_or_schema_same t0 c0 (store w)); [exact Ho|].
    apply perform_other_table. simpl.
    unfold other_tables in Hin. simpl in Hin.
    destruct Hin as [H|[H|[H|[H|[]]]]]; inversion H; discriminate. }
  destruct (has_schema_lookup _ _ _ Hf) as (rows & seq & E).
  assert (Hnew : has_col (mkTable (firefighters_cols ++ take i firefighters_auth_cols)
                                  rows seq) (cname c) = false).
  { destruct i as [|[|[|[|[|[|i]]]]]]; simpl in Hc; try discriminate;
      inversion Hc; subst c; vm_compute; reflexivity. }
  revert Hother. unfold perform. rewrite working. unfold exec. rewrite E, Hnew.
  cbn [fst snd]. intros Hother. split; [reflexivity|]. intros u. split; [exact Hother|].
  cbn [store]. unfold has_schema. rewrite lookup_insert_eq. cbn [tcols].
  apply bool_decide_eq_true. rewrite (take_S_r _ _ _ Hc), app_assoc. reflexivity.
Qed.

Lemma alter_run (i : nat) (c : Column) :
  firefighters_auth_cols !! i = Some c ->
  succeeds env (altering i) (db_run (AlterTableAddColumn "firefighters" c))
    (altering (S i)).
Proof.
  intros Hc. apply succeeds_db_run; [intros w H|intros w u H];
    apply (alter_step i c Hc w H).
Qed.

End Steps.

Lemma fresh_migrating (w : World) : fresh w -> migrating 0 w.
Proof.
  intros [Ho Hf]. split; [exact Ho|]. unfold firefighters_shape.
  unfold absent_or_schema in Hf. destruct (store w !! "firefighters"); [|reflexivity].
  apply bool_decide_eq_true in Hf. rewrite Hf. vm_compute. reflexivity.
Qed.

Lemma altered_migrating (w : World) : altering 6 w -> migrating 0 w.
Proof.
  intros [Ho Hf]. split; [exact Ho|]. unfold firefighters_shape.
  unfold has_schema in Hf. destruct (store w !! "firefighters"); [|reflexivity].
  apply bool_decide_eq_true in Hf. rewrite Hf. vm_compute. reflexivity.
Qed.

Lemma perform_rows_only (s : Stmt) (env : Env) (db : Store) :
  rows_only s = true -> same_columns db (perform s env db).2.
Proof.
  intros Hs. unfold perform. destruct (faults env (Run s)); [apply same_columns_refl|].
  destruct (exec (sql_now env) s db) as [e|db'] eqn:E; [apply same_columns_refl|].
  cbn [snd]. destruct s; simpl in Hs; try discriminate Hs; unfold exec in E.
  - destruct (db !! t) as [tb|] eqn:Ht; [|discriminate]. inversion E; subst.
    apply same_columns_append. exact Ht.
  - destruct (insert_row_result _ _ _ _ _ _ E) as (tb & rows & seq & Ht & -> & _).
    apply same_columns_append; exact Ht.
  - destruct (insert_row_result _ _ _ _ _ _ E) as (tb & rows & seq & Ht & -> & _).
    apply same_columns_append; exact Ht.
  - destruct (db !! t) as [tb|] eqn:Ht; [|discriminate].
    destruct (find _ _); [discriminate|]. inversion E; subst.
    apply same_columns_append. exact Ht.
Qed.

Section FirstRun.

Variable js_number : string -> option Z.
Variable env : Env.
Hypothesis working : no_faults env.

Ltac migrate :=
  repeat first
    [ apply succeeds_db_run;
        [ intros; apply (create_never_fails env working)
        | apply (create_step env working); reflexivity ]
    | apply succeeds_db_run_checked;
        [ intros; apply (create_never_fails env working)
        | apply (create_step env working); reflexivity ]
    | apply succeeds_resolve; solve [auto]
    | eapply succeeds_await; [|intros ?] ].

Ltac keep_altering :=
  repeat first
    [ apply succeeds_db_run;
        [ intros; apply (create_never_fails env working)
        | apply (create_keeps_altering env working); [reflexivity|discriminate] ]
    | apply succeeds_db_run_checked;
        [ intros; apply (create_never_fails env working)
        | apply (create_keeps_altering env working); [reflexivity|discriminate] ]
    | eapply succeeds_await; [|intros ?] ].

Lemma migration_v1_succeeds :
  succeeds env (migrating 0) migration_v1 (migrating 0).
Proof. unfold migration_v1. migrate. Qed.

Lemma migration_v3_succeeds :
  succeeds env (migrating 0) migration_v3 (migrating 0).
Proof. unfold migration_v3. migrate. Qed.

(** [migration_v1] on a store where [firefighters] is absent or has the
    columns of that step: afterwards the table is there, with these
    columns. *)
Lemma migration_v1_prepares :
  succeeds env fresh migration_v1 (altering 0).
Proof.
  unfold migration_v1.
  eapply succeeds_await;
    [apply succeeds_db_run;
       [intros; apply (create_never_fails env working)
       |apply (create_firefighters env working)]
    |intros _].
  keep_altering.
Qed.

(** [migration_v2] on a store where [firefighters] has the columns of
    [migration_v1] and no other: each ADD COLUMN adds its column, and
    the step resolves. *)
Lemma migration_v2_succeeds :
  succeeds env (altering 0) migration_v2 (altering 6).
Proof.
  unfold migration_v2, firefighters_auth_cols, for_of.
  apply (succeeds_await env _ (altering 6)); [|intros _; keep_altering].
  eapply succeeds_await; [apply (alter_run env working 0); reflexivity|intros _].
  eapply succeeds_await; [apply (alter_run env working 1); reflexivity|intros _].
  eapply succeeds_await; [apply (alter_run env working 2); reflexivity|intros _].
  eapply succeeds_await; [apply (alter_run env working 3); reflexivity|intros _].
  eapply succeeds_await; [apply (alter_run env working 4); reflexivity|intros _].
  eapply succeeds_await; [apply (alter_run env working 5); reflexivity|intros _].
  apply succeeds_resolve. auto.
Qed.

Lemma version_table_columns (w : World) (tb : Table) :
  migrating 0 w -> store w !! "db_version" = Some tb -> tcols tb = db_version_cols.
Proof.
  intros [Ho _] Htb. apply (other_schema (store w) "db_version" _ tb Ho); [|exact Htb].
  unfold other_tables. left.
Qed.

Lemma setDatabaseVersion_succeeds :
  succeeds env (migrating 0) (setDatabaseVersion (VNum CURRENT_DB_VERSION))
    (fun w' => migrating 0 w' /\ at_current_version (store w')).
Proof.
  unfold setDatabaseVersion.
  apply (succeeds_await env _
           (fun w => migrating 0 w /\
                     exists rows seq,
                       store w !! "db_version" = Some (mkTable db_version_cols rows seq))).
  { apply succeeds_db_run_checked; [intros; apply (create_never_fails env working)|].
    intros w u Hm. split; [apply (create_step env working); [reflexivity|exact Hm]|].
    cbn [store]. rewrite (create_result env working).
    destruct (store w !! "db_version") as [[cols rows seq]|] eqn:E.
    - rewrite E. pose proof (version_table_columns w _ Hm E) as Hc. simpl in Hc. subst.
      eauto.
    - rewrite lookup_insert_eq. eauto. }
  intros _.
  apply (succeeds_await env _
           (fun w => migrating 0 w /\
                     exists seq,
                       store w !! "db_version" = Some (mkTable db_version_cols [] seq))).
  { apply succeeds_db_run_checked.
    - intros w (_ & rows & seq & E). unfold perform. rewrite working. simpl.
      rewrite E. reflexivity.
    - intros w u (Hm & rows & seq & E).
      split; [apply rows_step; [intros; apply perform_rows_only; reflexivity|exact Hm]|].
      cbn [store]. unfold perform. rewrite working. simpl. rewrite E. simpl.
      exists seq. apply lookup_insert_eq. }
  intros _.
  apply succeeds_db_run_checked.
  - intros w (_ & seq & E). unfold perform. rewrite working. simpl.
    rewrite (insert_version_row _ _ seq E). reflexivity.
  - intros w u (Hm & seq & E).
    split; [apply rows_step; [intros; apply perform_rows_only; reflexivity|exact Hm]|].
    cbn [store]. unfold perform. rewrite working. simpl.
    rewrite (insert_version_row _ _ seq E). simpl. exists seq. apply lookup_insert_eq.
Qed.

Lemma consistent_version_table (db : Store) :
  other_schemas db = true -> absent_or_schema "db_version" db_version_cols db = true.
Proof.
  unfold other_schemas, other_tables. cbn [forallb]. rewrite !andb_true_iff. tauto.
Qed.

(** A run of the migrations on a store whose tables agree with the
    version it records, with a working storage layer: it resolves,
    leaves the schema of the migrations and records the current
    version. *)
Lemma runMigrations_first (w : World) :
  consistent js_number (store w) = true ->
  exists w', runMigrations js_number env w = (Resolved tt, w') /\
             own_schema (store w') = true /\
             at_current_version (store w').
Proof.
  intros Hc. unfold consistent in Hc. apply andb_true_iff in Hc as [Ho Hc].
  unfold runMigrations, await at 1.
  rewrite (getDatabaseVersion_recorded env w (working _) (working _)
             (consistent_version_table _ Ho)).
  set (cv := recorded_version (store w)) in *.
  set (Q := fun w' : World => migrating 0 w' /\ at_current_version (store w')).
  assert (Htail : succeeds env (migrating 0)
            (when (js_lt js_number cv 3) migration_v3 ;;
             setDatabaseVersion (VNum CURRENT_DB_VERSION)) Q).
  { eapply succeeds_await; [apply succeeds_when, migration_v3_succeeds|intros _].
    apply setDatabaseVersion_succeeds. }
  assert (Hrest : succeeds env (fun u => u = w)
            (when (js_lt js_number cv 1) migration_v1 ;;
             when (js_lt js_number cv 2) migration_v2 ;;
             when (js_lt js_number cv 3) migration_v3 ;;
             setDatabaseVersion (VNum CURRENT_DB_VERSION)) Q).
  { destruct (js_lt js_number cv 2) eqn:H2.
    - apply (succeeds_await env _ (altering 0)).
      + destruct (js_lt js_number cv 1).
        * apply (succeeds_weaken env _ fresh _ (altering 0));
            [exact migration_v1_prepares| |auto].
          intros u ->. split; [exact Ho|exact Hc].
        * apply succeeds_resolve. intros u ->. split; [exact Ho|exact Hc].
      + intros _. apply (succeeds_await env _ (migrating 0)); [|intros _; exact Htail].
        apply (succeeds_weaken env _ (altering 0) _ (altering 6));
          [exact migration_v2_succeeds|auto|apply altered_migrating].
    - apply (succeeds_await env _ (migrating 0)).
      + apply (succeeds_weaken env _ (migrating 0) _ (migrating 0));
          [apply succeeds_when, migration_v1_succeeds| |auto].
        intros u ->. split; [exact Ho|exact Hc].
      + intros _. apply (succeeds_await env _ (migrating 0)); [|intros _; exact Htail].
        apply succeeds_resolve. auto. }
  destruct (Hrest w eq_refl) as ([] & w' & E & [Ho' Hf'] & Hv').
  exists w'. split; [exact E|]. split; [|exact Hv'].
  unfold own_schema. rewrite Ho', Hf'. reflexivity.
Qed.

(** A run of the migrations on a store that records the current
    version, with a working storage layer: nothing changes. *)
Lemma runMigrations_again (w : World) :
  at_current_version (store w) ->
  runMigrations js_number env w = (Resolved tt, w).
Proof.
  intros [seq E]. unfold runMigrations, await at 1.
  assert (Hget : getDatabaseVersion env w = (Resolved (VNum CURRENT_DB_VERSION), w)).
  { unfold getDatabaseVersion, await, db_get, fetch. rewrite !working.
    unfold query. rewrite E. rewrite (working (Get _)). rewrite E. reflexivity. }
  rewrite Hget. simpl when.
  unfold await, resolve, setDatabaseVersion, await, db_run_checked, perform.
  rewrite !working. simpl exec. rewrite E. cbn [fst snd store unhandled].
  rewrite E. cbn [fst snd store unhandled tcols tseq].
  rewrite (insert_version_row _ _ seq (lookup_insert_eq _ _ _)).
  cbn [fst snd store unhandled].
  rewrite insert_insert_eq.
  rewrite (insert_id _ _ _ E). destruct w; reflexivity.
Qed.

End FirstRun.

(** ** Running the migration engine twice *)

(** C5. On a store whose tables agree with the version it records, with
    a working storage layer: [initializeDatabase] resolves, and running
    it again, at another time and with other salts, resolves as well;
    both runs record version [CURRENT_DB_VERSION]; the second run
    leaves every table with the columns and the rows the first run left
    (so no seeded station, account, person or category is duplicated),
    raises no error, and changes no table but [activity_categories],
    of which it changes the AUTOINCREMENT sequence at most. *)
Theorem initializeDatabase_twice
    (bcrypt_hash : string -> string -> string) (js_number : string -> option Z)
    (env env' : Env) (w : World) :
  consistent js_number (store w) = true ->
  no_faults env -> no_faults env' ->
  exists w1 w2,
    initializeDatabase bcrypt_hash js_number env w = (Resolved tt, w1) /\
    initializeDatabase bcrypt_hash js_number env' w1 = (Resolved tt, w2) /\
    recorded_version (store w1) = VNum CURRENT_DB_VERSION /\
    recorded_version (store w2) = VNum CURRENT_DB_VERSION /\
    same_rows (store w1) (store w2) /\
    (forall t, t <> "activity_categories" -> store w2 !! t = store w1 !! t) /\
    unhandled w2 = unhandled w1.
Proof.
  intros Hc Hnf Hnf'.
  destruct (runMigrations_first js_number env Hnf w Hc) as (wm & Hrun & Hown & Hv).
  destruct (insertDefaultData_twice bcrypt_hash env env' wm Hown Hnf Hnf')
    as (w1 & w2 & Hseed & Hseed' & Hv1 & _ & R & O & U).
  assert (Hcur : at_current_version (store w1)).
  { destruct Hv as [seq Hv]. exists seq. rewrite Hv1. exact Hv. }
  assert (Hrec : recorded_version (store w1) = VNum CURRENT_DB_VERSION).
  { destruct Hcur as [seq E]. unfold recorded_version. rewrite E. reflexivity. }
  exists w1, w2. split; [|split; [|split; [exact Hrec|split; [|auto]]]].
  - unfold initializeDatabase, await. rewrite Hrun. exact Hseed.
  - unfold initializeDatabase, await.
    rewrite (runMigrations_again js_number env' Hnf' w1 Hcur). exact Hseed'.
  - rewrite <- Hrec. apply recorded_version_same. apply O. discriminate.
Qed.

Lemma initializeDatabase_twice_witness :
  consistent toy_number (store empty_world) = true /\
  exists w1 w2,
    initializeDatabase toy_hash toy_number sample_env empty_world = (Resolved tt, w1) /\
    initializeDatabase toy_hash toy_number later_env w1 = (Resolved tt, w2) /\
    recorded_version (store w1) = VNum CURRENT_DB_VERSION /\
    recorded_version (store w2) = VNum CURRENT_DB_VERSION /\
    same_rows (store w1) (store w2) /\
    (length (rows_of "stations" (store w2)) = 5 /\
     length (rows_of "station_accounts" (store w2)) = 5 /\
     length (rows_of "firefighters" (store w2)) = 5 /\
     length (rows_of "activity_categories" (store w2)) = 5)%nat.
Proof.
  split; [reflexivity|].
  destruct (initializeDatabase_twice toy_hash toy_number sample_env later_env empty_world)
    as (w1 & w2 & H1 & H2 & H3 & H4 & H5 & _).
  - reflexivity.
  - intros op. reflexivity.
  - intros op. reflexivity.
  - exists w1, w2. split; [exact H1|]. split; [exact H2|]. split; [exact H3|].
    split; [exact H4|]. split; [exact H5|].
    replace w2 with (initializeDatabase toy_hash toy_number later_env w1).2
      by (rewrite H2; reflexivity).
    replace w1 with (initializeDatabase toy_hash toy_number sample_env empty_world).2
      by (rewrite H1; reflexivity).
    repeat split; vm_compute; reflexivity.
Defined.

(** What the second run does change: after a first run on an empty
    database the sequence of [activity_categories] is at 5; the second
    run, whose five INSERT OR IGNORE statements are all skipped, leaves
    it at 10. The store is not what the first run left, and the next
    category stored gets id 11 where it would have got id 6. *)
Lemma second_run_counterexample :
  let w1 := (initializeDatabase toy_hash toy_number sample_env empty_world).2 in
  let w2 := (initializeDatabase toy_hash toy_number later_env w1).2 in
  let drill := InsertInto "activity_categories" [("category_name", VText "Drill")] in
  let next_id := fun db : Store =>
    (fun r : Row => field r "id")
      <$> last (rows_of "activity_categories" (perform drill later_env db).2) in
  seq_of "activity_categories" (store w1) = 5 /\
  seq_of "activity_categories" (store w2) = 10 /\
  store w2 <> store w1 /\
  next_id (store w1) = Some (VNum 6) /\
  next_id (store w2) = Some (VNum 11).
Proof.
  cbv zeta.
  assert (S1 : seq_of "activity_categories"
                 (store (initializeDatabase toy_hash toy_number sample_env empty_world).2)
               = 5) by (vm_compute; reflexivity).
  assert (S2 : seq_of "activity_categories"
                 (store (initializeDatabase toy_hash toy_number later_env
                           (initializeDatabase toy_hash toy_number sample_env
                              empty_world).2).2)
               = 10) by (vm_compute; reflexivity).
  split; [exact S1|]. split; [exact S2|]. split.
  - intros E. rewrite E, S1 in S2. clear E. discriminate S2.
  - split; vm_compute; reflexivity.
Qed.

(** A store that records no version although [migration_v2] was applied
    to it does not agree with its version, and the engine does not
    complete on it. *)
Lemma initializeDatabase_inconsistent :
  consistent toy_number (store after_two_steps) = false /\
  (initializeDatabase toy_hash toy_number later_env after_two_steps).1 =
    Crashed (DuplicateColumn "firefighters" "pin_hash").
Proof. split; vm_compute; reflexivity. Qed.

(** ** Re-applying a step, on any store *)

Lemma perform_result (s : Stmt) (env : Env) (db : Store) :
  (perform s env db).2 = db \/
  exists tb, (perform s env db).2 = <[target s := tb]> db.
Proof.
  unfold perform. destruct (faults env (Run s)); [left; reflexivity|].
  destruct (exec (sql_now env) s db) as [e|db'] eqn:E; [left; reflexivity|].
  cbn [snd]. destruct s; unfold exec in E; cbn [target].
  - destruct (db !! t); inversion E; eauto.
  - destruct (db !! t); [|discriminate]. destruct (has_col _ _); inversion E; eauto.
  - destruct (db !! t); inversion E; eauto.
  - destruct (insert_row_result _ _ _ _ _ _ E) as (tb & rows & seq & _ & -> & _); eauto.
  - destruct (insert_row_result _ _ _ _ _ _ E) as (tb & rows & seq & _ & -> & _); eauto.
  - destruct (db !! t); [|discriminate]. destruct (find _ _); inversion E; eauto.
Qed.

(** No statement of the program removes a table. *)
Lemma perform_keeps_table (s : Stmt) (env : Env) (db : Store) (t : string) :
  is_Some (db !! t) -> is_Some ((perform s env db).2 !! t).
Proof.
  intros H. destruct (perform_result s env db) as [->|[tb ->]]; [exact H|].
  destruct (decide (target s = t)) as [<-|Hne].
  - rewrite lookup_insert_eq. eauto.
  - rewrite lookup_insert_ne by exact Hne. exact H.
Qed.

Section Reapplied.

Variables env env' : Env.
Hypothesis working : no_faults env.
Hypothesis working' : no_faults env'.

Lemma create_existing (t : string) (cols : list Column) (db : Store) :
  is_Some (db !! t) -> perform (CreateTableIfNotExists t cols) env' db = (None, db).
Proof.
  intros [tb H]. unfold perform. rewrite working'. simpl. rewrite H. reflexivity.
Qed.

Lemma create_makes (ts : list string) (t : string) (cols : list Column) :
  forall w u, tables_exist ts w ->
              tables_exist (t :: ts)
                (mkWorld (perform (CreateTableIfNotExists t cols) env (store w)).2 u).
Proof.
  intros w u H t' Hin. cbn [store]. apply elem_of_cons in Hin as [->|Hin].
  - rewrite (create_result env working). destruct (store w !! t) eqn:E.
    + rewrite E. eauto.
    + rewrite lookup_insert_eq. eauto.
  - apply perform_keeps_table, H, Hin.
Qed.

Ltac create_all :=
  repeat first
    [ apply succeeds_db_run;
        [ intros; apply (create_never_fails env working) | apply create_makes ]
    | apply succeeds_db_run_checked;
        [ intros; apply (create_never_fails env working) | apply create_makes ]
    | apply succeeds_resolve; solve [auto]
    | eapply succeeds_await; [|intros ?] ].

Lemma migration_v1_creates :
  succeeds env (tables_exist []) migration_v1 (tables_exist (reverse v1_tables)).
Proof. unfold migration_v1. create_all. Qed.

Lemma migration_v3_creates :
  succeeds env (tables_exist []) migration_v3 (tables_exist (reverse v3_tables)).
Proof. unfold migration_v3. create_all. Qed.

Lemma db_run_existing (t : string) (cols : list Column) (w : World) :
  is_Some (store w !! t) -> db_run (CreateTableIfNotExists t cols) env' w = (Resolved tt, w).
Proof.
  intros H. unfold db_run. rewrite (create_existing t cols _ H). destruct w; reflexivity.
Qed.

Lemma db_run_checked_existing (t : string) (cols : list Column) (w : World) :
  is_Some (store w !! t) ->
  db_run_checked (CreateTableIfNotExists t cols) env' w = (Resolved tt, w).
Proof.
  intros H. unfold db_run_checked. rewrite (create_existing t cols _ H).
  destruct w; reflexivity.
Qed.

(** X3. [migration_v1], applied to what an application of it left on
    any store, resolves and changes nothing. *)
Lemma migration_v1_reapplied (w : World) :
  let w1 := (migration_v1 env w).2 in
  migration_v1 env' w1 = (Resolved tt, w1).
Proof.
  intros w1. destruct (migration_v1_creates w) as ([] & w' & E & H).
  { intros t Ht. inversion Ht. }
  subst w1. rewrite E. cbn [snd]. unfold migration_v1, await.
  rewrite !db_run_existing, db_run_checked_existing; try reflexivity;
    apply H, elem_of_reverse; unfold v1_tables; rewrite !elem_of_cons; auto 10.
Qed.

(** X4. [migration_v3], applied to what an application of it left on
    any store, resolves and changes nothing. *)
Lemma migration_v3_reapplied (w : World) :
  let w1 := (migration_v3 env w).2 in
  migration_v3 env' w1 = (Resolved tt, w1).
Proof.
  intros w1. destruct (migration_v3_creates w) as ([] & w' & E & H).
  { intros t Ht. inversion Ht. }
  subst w1. rewrite E. cbn [snd]. unfold migration_v3, await.
  rewrite !db_run_existing; try reflexivity;
    apply H, elem_of_reverse; unfold v3_tables; rewrite !elem_of_cons; auto 10.
Qed.

(** An ADD COLUMN on [firefighters], failing or not, leaves the column
    it names in the table, and drops no other. *)
Lemma alter_adds (cs : list string) (c : Column) :
  forall w u, columns_exist cs w ->
              columns_exist (cname c :: cs)
                (mkWorld (perform (AlterTableAddColumn "firefighters" c) env (store w)).2 u).
Proof.
  intros w u (tb & Htb & H). unfold columns_exist. cbn [store].
  unfold perform. rewrite working. unfold exec. rewrite Htb.
  destruct (has_col tb (cname c)) eqn:Hc; cbn [snd].
  - exists tb. split; [exact Htb|]. intros c' Hin.
    apply elem_of_cons in Hin as [->|Hin]; auto.
  - eexists. split; [apply lookup_insert_eq|]. intros c' Hin.
    unfold has_col, col_names. cbn [tcols]. apply bool_decide_eq_true.
    rewrite fmap_app. apply elem_of_app.
    apply elem_of_cons in Hin as [->|Hin]; [right; left|left].
    specialize (H c' Hin). apply bool_decide_eq_true in H. exact H.
Qed.

Lemma alter_keeps_columns (cs : list string) (c : Column) :
  forall w u, columns_exist cs w ->
              columns_exist cs
                (mkWorld (perform (AlterTableAddColumn "firefighters" c) env (store w)).2 u).
Proof.
  intros w u H. destruct (alter_adds cs c w u H) as (tb & Htb & Hcs).
  exists tb. split; [exact Htb|]. intros c' Hin. apply Hcs. right. exact Hin.
Qed.

Lemma create_keeps_columns (cs : list string) (t : string) (cols : list Column) :
  t <> "firefighters" ->
  forall w u, columns_exist cs w ->
              columns_exist cs
                (mkWorld (perform (CreateTableIfNotExists t cols) env (store w)).2 u).
Proof.
  intros Hne w u (tb & Htb & H). exists tb. split; [|exact H]. cbn [store].
  rewrite perform_other_table; [exact Htb|]. simpl. congruence.
Qed.

(** However an application of [migration_v2] to a store with a
    [firefighters] table settles, the table has a [pin_hash] column
    afterwards. *)
Lemma migration_v2_adds :
  ensures env (columns_exist []) migration_v2 (columns_exist ["pin_hash"]).
Proof.
  unfold migration_v2, firefighters_auth_cols, for_of.
  set (I := columns_exist ["pin_hash"]).
  apply (ensures_await env _ I I); [|auto|intros _].
  - apply (ensures_await env _ I I); [|auto|intros _].
    + apply ensures_db_run. apply (alter_adds [] (col "pin_hash" TEXT)).
    + repeat (apply (ensures_await env I I I);
                [apply ensures_db_run, alter_keeps_columns|auto|intros _]).
      apply ensures_resolve. auto.
  - apply (ensures_await env I I I); [|auto|intros _].
    + apply ensures_db_run, create_keeps_columns. discriminate.
    + apply ensures_db_run_checked, create_keeps_columns. discriminate.
Qed.

Lemma alter_existing (c : Column) (w : World) :
  columns_exist [cname c] w ->
  db_run (AlterTableAddColumn "firefighters" c) env' w =
    (Crashed (DuplicateColumn "firefighters" (cname c)),
     mkWorld (store w) (unhandled w ++ [DuplicateColumn "firefighters" (cname c)])).
Proof.
  intros (tb & Htb & H). unfold db_run, perform. rewrite working'. unfold exec.
  rewrite Htb, H by left. reflexivity.
Qed.

(** X5. [migration_v2], applied to what an application of it left on a
    store with a [firefighters] table: its first ADD COLUMN raises a
    duplicate-column error that nothing handles, and the step ends
    there, with the store as it was. *)
Lemma migration_v2_reapplied (w : World) :
  is_Some (store w !! "firefighters") ->
  let w1 := (migration_v2 env w).2 in
  migration_v2 env' w1 =
    (Crashed (DuplicateColumn "firefighters" "pin_hash"),
     mkWorld (store w1) (unhandled w1 ++ [DuplicateColumn "firefighters" "pin_hash"])).
Proof.
  intros [tb Htb] w1.
  assert (Hc : columns_exist ["pin_hash"] w1).
  { apply migration_v2_adds. exists tb. split; [exact Htb|]. intros c Hc. inversion Hc. }
  unfold migration_v2, firefighters_auth_cols, for_of, await.
  rewrite (alter_existing (col "pin_hash" TEXT) w1 Hc). reflexivity.
Qed.

End Reapplied.

(** * Beyond the specification *)

(** ** What a call of the authentication route can do *)

Lemma find_matches_other (sets : list (string * Value)) (wcol : string) (b v : Value)
    (rows : list Row) :
  wcol ∉ sets.*1 -> v <> b ->
  find (matches (Some (wcol, v))) (update_row sets wcol b <$> rows) =
    find (matches (Some (wcol, v))) rows.
Proof.
  intros Hk Hne. induction rows as [|r rows IH]; [reflexivity|].
  cbn [fmap list_fmap find]. unfold update_row at 1 2.
  destruct (decide (r !! wcol = Some b)) as [E|E].
  - unfold matches at 1 3. rewrite set_fields_other by exact Hk. rewrite E.
    rewrite bool_decide_eq_false_2 by congruence. exact IH.
  - destruct (matches (Some (wcol, v)) r); [reflexivity|exact IH].
Qed.

(** An UPDATE of the record of one badge leaves the records of the
    others as they are, whether it succeeds or fails. *)
Lemma stored_update_other (env : Env) (db : Store) (sets : list (string * Value))
    (b v : Value) :
  "badge" ∉ sets.*1 -> v <> b ->
  stored (perform (UpdateSetWhere "firefighters" sets "badge" b) env db).2 v = stored db v.
Proof.
  intros Hk Hne. unfold perform.
  destruct (faults env _); [reflexivity|]. unfold exec.
  destruct (db !! "firefighters") as [tb|] eqn:Htb; [|reflexivity].
  destruct (find _ _); [reflexivity|]. cbn [snd].
  unfold stored, query, lookup_firefighter. rewrite lookup_insert_eq, Htb.
  unfold has_col, col_names. cbn [tcols trows].
  destruct (find _ _); [reflexivity|].
  rewrite find_matches_other by assumption. reflexivity.
Qed.

(** The record of the badge itself is rewritten, or left as it was when
    the UPDATE fails. *)
Lemma stored_update_same (env : Env) (db : Store) (sets : list (string * Value)) (b : Value) :
  "badge" ∉ sets.*1 ->
  let db' := (perform (UpdateSetWhere "firefighters" sets "badge" b) env db).2 in
  stored db' b = stored db b \/ stored db' b = set_fields sets <$> stored db b.
Proof.
  intros Hk db'. subst db'. unfold perform.
  destruct (faults env _); [left; reflexivity|]. unfold exec.
  destruct (db !! "firefighters") as [tb|] eqn:Htb; [|left; reflexivity].
  destruct (find _ _); [left; reflexivity|]. cbn [snd]. right.
  unfold stored, query, lookup_firefighter. rewrite lookup_insert_eq, Htb.
  unfold has_col, col_names. cbn [tcols trows].
  destruct (find _ _); [reflexivity|].
  rewrite find_update_row by assumption.
  destruct (find _ (trows tb)); reflexivity.
Qed.

Lemma stored_after_log (vals : list (string * Value)) (env : Env) (w : World) (v : Value) :
  stored (store (after_log vals env w)) v = stored (store w) v.
Proof. apply stored_same, after_log_other. discriminate. Qed.

(** The UPDATE of either branch, whether it runs or fails: the tables
    other than [firefighters] and the records of the other badges are
    as they were, and the record of the badge differs at most in the
    three columns of the failure branch. *)
Lemma update_touches_one_record (env : Env) (w : World) (sets : list (string * Value))
    (b : Value) :
  "badge" ∉ sets.*1 ->
  (forall c, c ∈ sets.*1 ->
             c ∈ ["failed_attempts"; "last_failed_attempt"; "account_locked"]) ->
  let v' := after_run (UpdateSetWhere "firefighters" sets "badge" b) env w in
  (forall t, t <> "firefighters" -> store v' !! t = store w !! t) /\
  (forall v, v <> b -> stored (store v') v = stored (store w) v) /\
  (forall r, stored (store w) b = Some r ->
     exists r', stored (store v') b = Some r' /\
       forall k, k ∉ ["failed_attempts"; "last_failed_attempt"; "account_locked"] ->
                 r' !! k = r !! k).
Proof.
  intros Hk Hsets v'. subst v'. repeat split.
  - intros t Ht. apply after_run_other. exact Ht.
  - intros v Hv. rewrite after_run_store. apply stored_update_other; assumption.
  - intros r Hr. rewrite after_run_store.
    destruct (stored_update_same env (store w) sets b Hk) as [-> | ->].
    + exists r. auto.
    + rewrite Hr. exists (set_fields sets r). split; [reflexivity|].
      intros k Hk'. apply set_fields_other. intros Hin. apply Hk', Hsets, Hin.
Qed.

(** X1. The route answers 200 only to a request whose PIN is a string,
    that names a stored, unlocked record, and whose PIN verifies
    against the hash of that record. *)
Theorem success_needs_a_valid_pin
    (bcrypt_compare : string -> string -> bool) (js_number : string -> option Z)
    (badge pin : Json) (clientIP userAgent : Value) (env : Env) (w w' : World)
    (response : Response) :
  authenticate bcrypt_compare js_number badge pin clientIP userAgent env w
    = (Resolved response, w') ->
  status response = 200 ->
  exists (p h : string) (firefighter : Row),
    pin = JString p /\
    stored (store w) (bound badge) = Some firefighter /\
    locked firefighter = false /\
    field firefighter "pin_hash" = VText h /\
    bcrypt_compare p h = true.
Proof.
  intros Hrun Hstatus.
  pose proof (authenticate_cases bcrypt_compare js_number badge pin clientIP userAgent
                env w) as H.
  cbv zeta in H.
  destruct H as [[_ E]|[(err & _ & _ & _ & E)|[[_ E]|[(ff & _ & _ & E)
               |[(ff & _ & _ & _ & _ & E)|[(ff & p & h & Hf & Hl & Hp & Hh & Hc & _ & E)
               |[(ff & p & h & _ & _ & _ & _ & _ & _ & E)
               |(ff & sets & err & _ & _ & _ & _ & _ & _ & E)]]]]]]];
    rewrite E in Hrun; inversion Hrun; subst; try discriminate.
  - exists p, h, ff. apply fetch_found in Hf. auto.
  - destruct (js_ge js_number _ 5); discriminate.
Qed.

Lemma success_needs_a_valid_pin_witness :
  exists (p h : string) (firefighter : Row),
    JString "1234" = JString p /\
    stored (store sample_world) (VText "001") = Some firefighter /\
    locked firefighter = false /\
    field firefighter "pin_hash" = VText h /\
    toy_compare p h = true.
Proof.
  eapply (success_needs_a_valid_pin toy_compare toy_number (JString "001") (JString "1234")
            (VText "10.0.0.1") VNull sample_env sample_world).
  - eapply (path_success toy_compare toy_number (JString "001") (JString "1234")
              (VText "10.0.0.1") VNull sample_env sample_world eq_refl eq_refl
              (default ∅ (stored (store sample_world) (VText "001")))
              _ "1234" "salt$1234" eq_refl).
    + vm_compute. reflexivity.
    + vm_compute. reflexivity.
    + vm_compute. reflexivity.
    + vm_compute. reflexivity.
  - reflexivity.
  Unshelve.
  apply fetch_stored; [reflexivity|]. apply found_record. vm_compute. reflexivity.
Defined.

(** X2. However a call settles and whatever fails in the storage layer,
    it changes no table other than [firefighters] and [auth_logs], and
    no record other than that of its badge; of that record it changes
    at most the counter, the time of the last failure and the lock
    flag. *)
Theorem authenticate_touches_one_record
    (bcrypt_compare : string -> string -> bool) (js_number : string -> option Z)
    (badge pin : Json) (clientIP userAgent : Value) (env : Env) (w : World) :
  let w' := (authenticate bcrypt_compare js_number badge pin clientIP userAgent env w).2 in
  (forall t, t <> "firefighters" -> t <> "auth_logs" -> store w' !! t = store w !! t) /\
  (forall v, v <> bound badge -> stored (store w') v = stored (store w) v) /\
  (forall r, stored (store w) (bound badge) = Some r ->
     exists r', stored (store w') (bound badge) = Some r' /\
       forall k, k ∉ ["failed_attempts"; "last_failed_attempt"; "account_locked"] ->
                 r' !! k = r !! k).
Proof.
  intros w'. subst w'.
  assert (Hlog : forall vals (u : World),
             ((forall t, t <> "firefighters" -> store u !! t = store w !! t) /\
              (forall v, v <> bound badge -> stored (store u) v = stored (store w) v) /\
              (forall r, stored (store w) (bound badge) = Some r ->
                 exists r', stored (store u) (bound badge) = Some r' /\
                   forall k, k ∉ ["failed_attempts"; "last_failed_attempt"; "account_locked"] ->
                             r' !! k = r !! k)) ->
             (forall t, t <> "firefighters" -> t <> "auth_logs" ->
                        store (after_log vals env u) !! t = store w !! t) /\
             (forall v, v <> bound badge ->
                        stored (store (after_log vals env u)) v = stored (store w) v) /\
             (forall r, stored (store w) (bound badge) = Some r ->
                exists r', stored (store (after_log vals env u)) (bound badge) = Some r' /\
                  forall k, k ∉ ["failed_attempts"; "last_failed_attempt"; "account_locked"] ->
                            r' !! k = r !! k)).
  { intros vals u (H1 & H2 & H3). repeat split.
    - intros t Ht1 Ht2. rewrite after_log_other by exact Ht2. apply H1, Ht1.
    - intros v Hv. rewrite stored_after_log. apply H2, Hv.
    - intros r Hr. rewrite stored_after_log. apply H3, Hr. }
  assert (Hsame : (forall t, t <> "firefighters" -> store w !! t = store w !! t) /\
                  (forall v, v <> bound badge -> stored (store w) v = stored (store w) v) /\
                  (forall r, stored (store w) (bound badge) = Some r ->
                     exists r', stored (store w) (bound badge) = Some r' /\
                       forall k, k ∉ ["failed_attempts"; "last_failed_attempt";
                                      "account_locked"] -> r' !! k = r !! k))
    by (repeat split; eauto).
  assert (Hthree : forall sets : list (string * Value),
             forallb (fun c => bool_decide (c ∈ ["failed_attempts"; "last_failed_attempt";
                                                 "account_locked"])) sets.*1 = true ->
             forall c, c ∈ sets.*1 ->
                       c ∈ ["failed_attempts"; "last_failed_attempt"; "account_locked"]).
  { intros sets H c Hin. rewrite forallb_forall in H.
    apply list_elem_of_In, H, bool_decide_eq_true in Hin. exact Hin. }
  pose proof (authenticate_cases bcrypt_compare js_number badge pin clientIP userAgent
                env w) as H.
  cbv zeta in H.
  destruct H as [[_ E]|[(err & _ & _ & _ & E)|[[_ E]|[(ff & _ & _ & E)
               |[(ff & _ & _ & _ & _ & E)|[(ff & p & h & _ & _ & _ & _ & _ & _ & E)
               |[(ff & p & h & _ & _ & _ & _ & _ & _ & E)
               |(ff & sets & err & _ & _ & Hb & _ & Hin & _ & E)]]]]]]];
    rewrite E; cbn [snd].
  - apply Hlog, Hsame.
  - destruct Hsame as (H1 & H2 & H3). repeat split; auto.
  - apply Hlog, Hsame.
  - apply Hlog, Hsame.
  - destruct Hsame as (H1 & H2 & H3). repeat split; auto.
  - apply Hlog. apply update_touches_one_record;
      [apply badge_not_set; reflexivity|apply Hthree; reflexivity].
  - apply Hlog. apply update_touches_one_record;
      [apply badge_not_set; reflexivity|apply Hthree; reflexivity].
  - destruct (update_touches_one_record env w sets (bound badge) Hb Hin) as (H1 & H2 & H3).
    repeat split; auto.
Qed.

(** ** The migration steps, applied again *)

Lemma migration_v1_reapplied_witness :
  let w1 := (migration_v1 sample_env empty_world).2 in
  migration_v1 later_env w1 = (Resolved tt, w1).
Proof.
  apply (migration_v1_reapplied sample_env later_env); intros op; reflexivity.
Defined.

Lemma migration_v3_reapplied_witness :
  let w1 := (migration_v3 sample_env empty_world).2 in
  migration_v3 later_env w1 = (Resolved tt, w1).
Proof.
  apply (migration_v3_reapplied sample_env later_env); intros op; reflexivity.
Defined.

Lemma migration_v2_reapplied_witness :
  let w := (migration_v1 sample_env empty_world).2 in
  let w1 := (migration_v2 sample_env w).2 in
  migration_v2 later_env w1 =
    (Crashed (DuplicateColumn "firefighters" "pin_hash"),
     mkWorld (store w1) (unhandled w1 ++ [DuplicateColumn "firefighters" "pin_hash"])).
Proof.
  apply (migration_v2_reapplied sample_env later_env).
  - intros op. reflexivity.
  - intros op. reflexivity.
  - vm_compute. eauto.
Defined.

(** X6. A start on a store that records the current version, with a
    working storage layer: no migration step is applied, the version
    is written again, and the world is as it was. *)
Theorem runMigrations_at_current_version
    (js_number : string -> option Z) (env : Env) (w : World) :
  no_faults env ->
  at_current_version (store w) ->
  runMigrations js_number env w = (Resolved tt, w) /\
  recorded_version (store w) = VNum CURRENT_DB_VERSION.
Proof.
  intros Hnf Hv. split; [exact (runMigrations_again js_number env Hnf w Hv)|].
  destruct Hv as [seq E]. unfold recorded_version. rewrite E. reflexivity.
Qed.

Lemma runMigrations_at_current_version_witness :
  runMigrations toy_number later_env sample_world = (Resolved tt, sample_world) /\
  recorded_version (store sample_world) = VNum CURRENT_DB_VERSION.
Proof.
  apply (runMigrations_at_current_version toy_number later_env sample_world).
  - intros op. reflexivity.
  - exists 0. vm_compute. reflexivity.
Defined.

(** ** A first start *)

(** X7. After a first start on an empty database, each person of the
    reference data is answered 200 for the PIN the data gives them, and
    401 for another. *)
Theorem seeded_personnel_can_log_in :
  Forall (fun person =>
            (fun result : Settled Response * World =>
               match result.1 with
               | Resolved response => status response
               | _ => 0
               end)
              <$> [authenticate toy_compare toy_number (JString (p_badge person))
                     (JString (p_pin person)) (VText "10.0.0.1") VNull sample_env
                     sample_world;
                   authenticate toy_compare toy_number (JString (p_badge person))
                     (JString "0000") (VText "10.0.0.1") VNull sample_env sample_world]
            = [200; 401])
         defaultPersonnel.
Proof. repeat constructor; vm_compute; reflexivity. Qed.
